(** * The AWS SQS input of connect: a shallow embedding of
      [internal/impl/aws/input_sqs.go]

    The model comes first: Go's [time] as far as the file uses it, the
    deadline cell and the message handle, the in-flight tracker, the queue
    client with the log of the calls made on it, the two batching senders,
    [ackLoop], [Read] with the acknowledgement closure it returns,
    [readLoop] and [Close].  The notions the statements use and the
    scenarios they are run on follow, then the lemmas and theorems.

    Handles are heap objects in Go, shared by reference between the tracker,
    the pending slices and the closures.  Their [id] and [receiptHandle]
    never change after construction, so a handle is carried as a value
    together with the location of its only mutable part, the atomic deadline
    cell; the cells live in one store that every operation threads.

    Goroutines meet at the tracker's mutex, at the atomic cells and at the
    unbuffered channels.  A method of the tracker is one atomic step, a
    [select] takes the branch the caller of the model names, and a send and
    its receive are one step.  The goroutine a tick of [ackLoop] starts with
    [go refreshCurrentHandles()] is followed to its end before the loop
    takes its next event. *)

From stdpp Require Import gmap strings list.
From Stdlib Require Import ZArith Lia.

Local Open Scope Z_scope.

(** ** Go's [time] package, as far as the file uses it *)

Module time.

(** A [Duration] is an int64 count of nanoseconds.  An instant is kept as
    the count of nanoseconds since the Unix epoch. *)
Definition Duration := Z.
Definition Time := Z.

Definition Second : Duration := 1000000000.

Definition minDuration : Duration := - 2 ^ 63.
Definition maxDuration : Duration := 2 ^ 63 - 1.

(** [time.Unix(sec, nsec)] *)
Definition Unix (sec nsec : Z) : Time := sec * Second + nsec.

(** [t.Unix()]: whole seconds since the epoch, rounded down. *)
Definition Unix_of (t : Time) : Z := t `div` Second.

(** [t.Add(d)] *)
Definition Add (t : Time) (d : Duration) : Time := t + d.

(** [t.Sub(u)]: the difference, saturated to the range of [Duration]. *)
Definition Sub (t u : Time) : Duration :=
  Z.max minDuration (Z.min maxDuration (t - u)).

(** [t.Truncate(d)] for a positive [d]: [t] rounded down to a multiple of
    [d].  Go counts from its zero time, which lies a whole number of
    seconds before the epoch, so for [d = Second] the two origins agree. *)
Definition Truncate (t : Time) (d : Duration) : Time := t - t `mod` d.

End time.

(** ** Errors *)

Inductive error :=
  | ErrNotConnected                 (* service.ErrNotConnected *)
  | ErrEndOfInput                   (* service.ErrEndOfInput *)
  | Canceled                        (* context.Canceled *)
  | DeadlineExceeded                (* context.DeadlineExceeded *)
  | ErrOther (msg : string).        (* anything the queue client reports *)

#[global] Instance error_eq_dec : EqDecision error.
Proof. solve_decision. Defined.

(** A [context.Context], observed at the time of a call: [Err] is [nil]
    until the context is done. *)
Record Context := { Err : option error }.

Definition Background : Context := {| Err := None |}.

(** ** Configuration *)

Record sqsiConfig := {
  URL : string;
  WaitTimeSeconds : Z;
  DeleteMessage : bool;
  ResetVisibility : bool;
  MaxNumberOfMessages : Z;
  MaxOutstanding : Z;
  MessageTimeout : time.Duration
}.

(** ** The deadline cell: [type sqsMessageDeadline atomic.Int64]

    "Unix seconds of when the message timeout expires.  If -1 then the
    message has been deleted." *)

Definition loc := nat.

Abbreviation cells := (gmap loc Z).

Module atomic.
(** The zero value of an [atomic.Int64] is 0. *)
Definition Load (σ : cells) (l : loc) : Z := default 0 (σ !! l).
Definition Store (σ : cells) (l : loc) (v : Z) : cells := <[l := v]> σ.
End atomic.

Module sqsMessageDeadline.

Definition Load (σ : cells) (s : loc) : time.Time :=
  time.Unix (atomic.Load σ s) 0.

Definition Store (σ : cells) (s : loc) (v : time.Time) : cells :=
  atomic.Store σ s (time.Unix_of v).

Definition SetDeleted (σ : cells) (s : loc) : cells :=
  atomic.Store σ s (-1).

Definition IsDeleted (σ : cells) (s : loc) : bool :=
  bool_decide (atomic.Load σ s = -1).

End sqsMessageDeadline.

Record sqsMessageHandle := {
  id : string;
  receiptHandle : string;
  deadline : loc
}.

#[global] Instance sqsMessageHandle_eq_dec : EqDecision sqsMessageHandle.
Proof. solve_decision. Defined.

(** ** The SDK's message and request types *)

Module types.

Record MessageAttributeValue := { StringValue : option string }.

(** Every pointer field of the SDK's [Message] may be nil. *)
Record Message := {
  MessageId : option string;
  ReceiptHandle : option string;
  Body : option string;
  Attributes : gmap string string;
  MessageAttributes : gmap string MessageAttributeValue
}.

Record DeleteMessageBatchRequestEntry := {
  del_Id : string;
  del_ReceiptHandle : string
}.

Record ChangeMessageVisibilityBatchRequestEntry := {
  vis_Id : string;
  vis_ReceiptHandle : string;
  VisibilityTimeout : Z
}.

End types.

Record sqsMessage := {
  Message : types.Message;
  handle : option sqsMessageHandle
}.

(** ** The in-flight tracker

    The mutex makes every method atomic, so a method is a function of the
    tracker (and of the deadline store where it touches deadlines). *)

Record sqsInFlightTracker := {
  handles : gmap string sqsMessageHandle;
  limit : Z;
  timeout : time.Duration
}.

Definition with_handles (t : sqsInFlightTracker)
    (m : gmap string sqsMessageHandle) : sqsInFlightTracker :=
  {| handles := m; limit := limit t; timeout := timeout t |}.

(** The tracker [Connect] builds. *)
Definition newTracker (conf : sqsiConfig) : sqsInFlightTracker :=
  {| handles := ∅; limit := MaxOutstanding conf; timeout := MessageTimeout conf |}.

(** The body of [for _, v := range t.handles] in [PullToRefresh]. *)
Definition PullToRefresh_visit (t : sqsInFlightTracker) (now : time.Time)
    (acc : list sqsMessageHandle * cells) (v : sqsMessageHandle)
    : list sqsMessageHandle * cells :=
  let '(hs, σ) := acc in
  if bool_decide (time.Sub (sqsMessageDeadline.Load σ (deadline v)) now
                  < timeout t `quot` 2)
  then (hs, σ)
  else (hs ++ [v], sqsMessageDeadline.Store σ (deadline v) (time.Add now (timeout t))).

(** Go leaves the iteration order of a map unspecified; the model visits the
    entries in the order of [map_to_list]. *)
Definition PullToRefresh (t : sqsInFlightTracker) (now : time.Time) (σ : cells)
    : list sqsMessageHandle * cells :=
  foldl (PullToRefresh_visit t now) ([], σ) (snd <$> map_to_list (handles t)).

Definition Size (t : sqsInFlightTracker) : Z := Z.of_nat (size (handles t)).

Definition Remove (i : string) (t : sqsInFlightTracker) : sqsInFlightTracker :=
  with_handles t (delete i (handles t)).

Definition Clear (t : sqsInFlightTracker) : sqsInFlightTracker :=
  with_handles t ∅.

(** The second loop of [AddNew]. *)
Definition AddNew_insert (messages : list sqsMessage)
    (m : gmap string sqsMessageHandle) : gmap string sqsMessageHandle :=
  foldl (λ m msg, match handle msg with
                  | None => m
                  | Some h => <[id h := h]> m
                  end) m messages.

(** One pass through the guard of [AddNew], under the lock.  [Parked] is the
    call sitting in [t.l.Wait()]: it holds no lock, changes nothing, and runs
    the guard again on the tracker it finds when it is woken. *)
Inductive AddNewOutcome :=
  | Inserted (t' : sqsInFlightTracker)
  | ReturnedEarly
  | Parked.

Definition AddNew (ctx : Context) (messages : list sqsMessage)
    (t : sqsInFlightTracker) : AddNewOutcome :=
  if bool_decide (limit t ≤ Size t) then
    if Err ctx is Some _ then ReturnedEarly else Parked
  else Inserted (with_handles t (AddNew_insert messages (handles t))).

(** The tracker after the call has moved as far as it can. *)
Definition AddNew_tracker (ctx : Context) (messages : list sqsMessage)
    (t : sqsInFlightTracker) : sqsInFlightTracker :=
  match AddNew ctx messages t with
  | Inserted t' => t'
  | ReturnedEarly | Parked => t
  end.

(** The methods that other goroutines run on the shared tracker. *)
Inductive trackerOp :=
  | OpAddNew (ctx : Context) (messages : list sqsMessage)
  | OpRemove (i : string)
  | OpClear
  | OpPullToRefresh (now : time.Time)
  | OpSize.

Definition trackerOp_run (op : trackerOp) (t : sqsInFlightTracker)
    : sqsInFlightTracker :=
  match op with
  | OpAddNew ctx messages => AddNew_tracker ctx messages t
  | OpRemove i => Remove i t
  | OpClear => Clear t
  | OpPullToRefresh _ | OpSize => t
  end.

(** What [readLoop] registers: slices of at most [MaxNumberOfMessages]
    messages, the most one [ReceiveMessage] returns. *)
Definition batch_bounded (conf : sqsiConfig) (op : trackerOp) : Prop :=
  match op with
  | OpAddNew _ messages => Z.of_nat (length messages) ≤ MaxNumberOfMessages conf
  | _ => True
  end.

(** The states of the tracker of a connected reader. *)
Inductive reachable (conf : sqsiConfig) : sqsInFlightTracker → Prop :=
  | reachable_new : reachable conf (newTracker conf)
  | reachable_op t op :
      reachable conf t → batch_bounded conf op →
      reachable conf (trackerOp_run op t).

(** ** The queue client and the calls made on it *)

Inductive rpc :=
  | DeleteMessageBatchInput (Entries : list types.DeleteMessageBatchRequestEntry)
  | ChangeMessageVisibilityBatchInput
      (Entries : list types.ChangeMessageVisibilityBatchRequestEntry).

(** A call fails as a whole, or answers each entry: [rejected i] tells
    whether the entry at position [i] of the request is reported in
    [Failed]. *)
Inductive response :=
  | RpcErr (err : error)
  | RpcOk (rejected : nat → bool).

(** The two methods of [sqsAPI] the reader's senders use.  A client may
    answer differently each time: it sees the calls made so far and the
    context of the call. *)
Record sqsAPI := {
  DeleteMessageBatch :
    list rpc → Context → list types.DeleteMessageBatchRequestEntry → response;
  ChangeMessageVisibilityBatch :
    list rpc → Context → list types.ChangeMessageVisibilityBatchRequestEntry → response
}.

(** [response.Failed]: the rejected entries of the request, in order. *)
Fixpoint Failed {A} (rejected : nat → bool) (i : nat) (entries : list A) : list A :=
  match entries with
  | [] => []
  | e :: entries =>
      if rejected i then e :: Failed rejected (S i) entries
      else Failed rejected (S i) entries
  end.

(** ** State: the calls issued so far, the deadline cells, the tracker *)

Record world := {
  rpcs : list rpc;
  store : cells;
  inFlight : sqsInFlightTracker
}.

(** A computation ends with a value, panics, or is cut off by the bound put
    on a loop. *)
Inductive result (A : Type) :=
  | Val (a : A) (w : world)
  | Panic (w : world)
  | OutOfFuel (w : world).
Arguments Val {A} a w.
Arguments Panic {A} w.
Arguments OutOfFuel {A} w.

Definition M (A : Type) : Type := world → result A.

#[global] Instance M_ret : MRet M := λ A a w, Val a w.
#[global] Instance M_bind : MBind M := λ A B f m w,
  match m w with
  | Val a w' => f a w'
  | Panic w' => Panic w'
  | OutOfFuel w' => OutOfFuel w'
  end.

Definition final {A} (r : result A) : world :=
  match r with Val _ w | Panic w | OutOfFuel w => w end.

Definition panic {A} : M A := λ w, Panic w.
Definition out_of_fuel {A} : M A := λ w, OutOfFuel w.
Definition get_store : M cells := λ w, Val (store w) w.
Definition modify_store (f : cells → cells) : M unit := λ w,
  Val () {| rpcs := rpcs w; store := f (store w); inFlight := inFlight w |}.
Definition get_tracker : M sqsInFlightTracker := λ w, Val (inFlight w) w.
Definition modify_tracker (f : sqsInFlightTracker → sqsInFlightTracker) : M unit := λ w,
  Val () {| rpcs := rpcs w; store := store w; inFlight := f (inFlight w) |}.

(** Issue a call: ask the client, then record the call. *)
Definition issue (call : rpc) (answer : list rpc → response) : M response := λ w,
  Val (answer (rpcs w))
      {| rpcs := rpcs w ++ [call]; store := store w; inFlight := inFlight w |}.

(** ** The reader *)

Record awsSQSReader := {
  conf : sqsiConfig;
  sqs : option sqsAPI;          (* nil until [Connect] *)
  softStop : bool               (* has [closeSignal] fired its soft stop? *)
}.

(** [a.sqs.DeleteMessageBatch(ctx, &input)]; calling through a nil client
    panics. *)
Definition call_DeleteMessageBatch (a : awsSQSReader) (ctx : Context)
    (Entries : list types.DeleteMessageBatchRequestEntry) : M response :=
  match sqs a with
  | None => panic
  | Some api =>
      issue (DeleteMessageBatchInput Entries)
            (λ sofar, DeleteMessageBatch api sofar ctx Entries)
  end.

Definition call_ChangeMessageVisibilityBatch (a : awsSQSReader) (ctx : Context)
    (Entries : list types.ChangeMessageVisibilityBatchRequestEntry) : M response :=
  match sqs a with
  | None => panic
  | Some api =>
      issue (ChangeMessageVisibilityBatchInput Entries)
            (λ sofar, ChangeMessageVisibilityBatch api sofar ctx Entries)
  end.

Definition maxBatchSize : nat := 10.

(** *** [deleteMessages] *)

Definition deleteEntry (msg : sqsMessageHandle) : types.DeleteMessageBatchRequestEntry :=
  {| types.del_Id := id msg; types.del_ReceiptHandle := receiptHandle msg |}.

(** The inner [for i := range msgs]: append entries until the batch is full
    or the slice ends. *)
Fixpoint deleteMessages_entries (msgs : list sqsMessageHandle)
    (Entries : list types.DeleteMessageBatchRequestEntry)
    : list types.DeleteMessageBatchRequestEntry :=
  match msgs with
  | [] => Entries
  | msg :: msgs =>
      let Entries := Entries ++ [deleteEntry msg] in
      if bool_decide (length Entries = maxBatchSize) then Entries
      else deleteMessages_entries msgs Entries
  end.

(** The outer [for len(msgs) > 0].  Entries the service rejects are only
    written to the log, which the model does not keep. *)
Fixpoint deleteMessages_loop (a : awsSQSReader) (fuel : nat) (ctx : Context)
    (msgs : list sqsMessageHandle) : M (option error) :=
  match msgs with
  | [] => mret None
  | _ :: _ =>
      match fuel with
      | O => out_of_fuel
      | S fuel =>
          let Entries := deleteMessages_entries msgs [] in
          let msgs := drop (length Entries) msgs in
          response ← call_DeleteMessageBatch a ctx Entries;
          match response with
          | RpcErr err => mret (Some err)
          | RpcOk _ => deleteMessages_loop a fuel ctx msgs
          end
      end
  end.

Definition deleteMessages (a : awsSQSReader) (ctx : Context)
    (msgs : list sqsMessageHandle) : M (option error) :=
  if negb (DeleteMessage (conf a)) then mret None
  else deleteMessages_loop a (length msgs) ctx msgs.

(** *** [updateVisibilityMessages] and [resetMessages]

    A call is taken to run without another goroutine writing a deadline in
    between, so the moment a handle is considered is the store the call
    runs in. *)

(** The conversion [int32(timeout)] wraps around. *)
Definition int32 (z : Z) : Z := (z + 2 ^ 31) `mod` 2 ^ 32 - 2 ^ 31.

Definition visibilityEntry (timeout : Z) (msg : sqsMessageHandle)
    : types.ChangeMessageVisibilityBatchRequestEntry :=
  {| types.vis_Id := id msg; types.vis_ReceiptHandle := receiptHandle msg;
     types.VisibilityTimeout := int32 timeout |}.

Record visibilityBatch := {
  vb_Entries : list types.ChangeMessageVisibilityBatchRequestEntry;
  vb_sent : list sqsMessageHandle;
  vb_consumed : nat
}.

(** The inner [for i := range msgs]. *)
Fixpoint updateVisibility_entries (σ : cells) (timeout : Z)
    (msgs : list sqsMessageHandle) (b : visibilityBatch) : visibilityBatch :=
  match msgs with
  | [] => b
  | msg :: msgs =>
      let consumed := S (vb_consumed b) in
      if sqsMessageDeadline.IsDeleted σ (deadline msg) then
        updateVisibility_entries σ timeout msgs
          {| vb_Entries := vb_Entries b; vb_sent := vb_sent b; vb_consumed := consumed |}
      else
        let Entries := vb_Entries b ++ [visibilityEntry timeout msg] in
        let sent := vb_sent b ++ [msg] in
        let b := {| vb_Entries := Entries; vb_sent := sent; vb_consumed := consumed |} in
        if bool_decide (length Entries = maxBatchSize) then b
        else updateVisibility_entries σ timeout msgs b
  end.

(** [for i, fail := range response.Failed]: [sent[i]] is indexed by the
    position in [Failed]; past the end of [sent] it panics.  What is logged
    is not kept. *)
Fixpoint updateVisibility_failed {A} (σ : cells) (sent : list sqsMessageHandle)
    (i : nat) (failed : list A) : bool :=
  match failed with
  | [] => true
  | _ :: failed =>
      match sent !! i with
      | None => false
      | Some h =>
          if sqsMessageDeadline.IsDeleted σ (deadline h)
          then updateVisibility_failed σ sent (S i) failed   (* continue *)
          else updateVisibility_failed σ sent (S i) failed   (* Debugf *)
      end
  end.

Fixpoint updateVisibility_loop (a : awsSQSReader) (fuel : nat) (ctx : Context)
    (timeout : Z) (msgs : list sqsMessageHandle) : M (option error) :=
  match msgs with
  | [] => mret None
  | _ :: _ =>
      match fuel with
      | O => out_of_fuel
      | S fuel =>
          σ ← get_store;
          let b := updateVisibility_entries σ timeout msgs
                     {| vb_Entries := []; vb_sent := []; vb_consumed := 0 |} in
          let msgs := drop (vb_consumed b) msgs in
          response ← call_ChangeMessageVisibilityBatch a ctx (vb_Entries b);
          match response with
          | RpcErr err => mret (Some err)
          | RpcOk rejected =>
              if updateVisibility_failed σ (vb_sent b) 0
                   (Failed rejected 0 (vb_Entries b))
              then updateVisibility_loop a fuel ctx timeout msgs
              else panic
          end
      end
  end.

Definition updateVisibilityMessages (a : awsSQSReader) (ctx : Context)
    (timeout : Z) (msgs : list sqsMessageHandle) : M (option error) :=
  updateVisibility_loop a (length msgs) ctx timeout msgs.

Definition resetMessages (a : awsSQSReader) (ctx : Context)
    (msgs : list sqsMessageHandle) : M (option error) :=
  if negb (ResetVisibility (conf a)) then mret None
  else updateVisibilityMessages a ctx 0 msgs.

(** ** [ackLoop] *)

Record ackLoopState := {
  pendingAcks : list sqsMessageHandle;
  pendingNacks : list sqsMessageHandle;
  refreshes : nat    (* goroutines started with [go refreshCurrentHandles()] *)
}.

(** What becomes of the goroutine a tick starts with
    [go refreshCurrentHandles()]: it finds [refreshLock] taken by a pass
    that is still running and returns at once, or it runs its pass, with
    [now] the clock [PullToRefresh] reads and [seconds] the value of
    [int(a.conf.MessageTimeout.Seconds())], which Go computes in floating
    point. *)
Inductive refreshRun :=
  | refreshLocked
  | refreshRuns (now : time.Time) (seconds : Z).

(** What the [select] of the loop can receive; a tick comes with the
    goroutine it starts. *)
Inductive ackLoopEvent :=
  | ackMessagesChan (h : sqsMessageHandle)
  | nackMessagesChan (h : sqsMessageHandle)
  | flushTimer (run : refreshRun)
  | SoftStopChan.

Definition flushFinishedHandles (a : awsSQSReader) (closeNowCtx : Context)
    (handles : list sqsMessageHandle) (erase : bool) : M unit :=
  if bool_decide (length handles = 0%nat) then mret ()
  else if erase then _ ← deleteMessages a closeNowCtx handles; mret ()
  else _ ← resetMessages a closeNowCtx handles; mret ().

(** [refreshCurrentHandles], once it holds [refreshLock]. *)
Definition refreshCurrentHandles (a : awsSQSReader) (closeNowCtx : Context)
    (now : time.Time) (seconds : Z) : M nat :=
  t ← get_tracker;
  σ ← get_store;
  let '(currentHandles, σ') := PullToRefresh t now σ in
  _ ← modify_store (λ _, σ');
  if bool_decide (length currentHandles = 0%nat) then mret 0%nat
  else _ ← updateVisibilityMessages a closeNowCtx seconds currentHandles;
       mret (length currentHandles).

(** [go refreshCurrentHandles()].  The goroutine is followed to its end
    within the turn that starts it: the pass is one step, like every call
    of the senders, and it comes before the next event of the loop.  Its
    result is dropped. *)
Definition go_refreshCurrentHandles (a : awsSQSReader) (closeNowCtx : Context)
    (run : refreshRun) : M unit :=
  match run with
  | refreshLocked => mret ()           (* [if !refreshLock.TryLock() { return 0 }] *)
  | refreshRuns now seconds =>
      _ ← refreshCurrentHandles a closeNowCtx now seconds; mret ()
  end.

(** One turn of the loop; [None] is [break ackLoop]. *)
Definition ackLoop_select (a : awsSQSReader) (closeNowCtx : Context)
    (s : ackLoopState) (ev : ackLoopEvent) : M (option ackLoopState) :=
  match ev with
  | ackMessagesChan h =>
      let pendingAcks := pendingAcks s ++ [h] in
      _ ← modify_tracker (Remove (id h));
      _ ← modify_store (λ σ, sqsMessageDeadline.SetDeleted σ (deadline h));
      _ ← (if bool_decide (MaxNumberOfMessages (conf a) ≤ Z.of_nat (length pendingAcks))
           then flushFinishedHandles a closeNowCtx pendingAcks true
           else mret ());
      mret (Some {| pendingAcks := pendingAcks; pendingNacks := pendingNacks s;
                    refreshes := refreshes s |})
  | nackMessagesChan h =>
      let pendingNacks := pendingNacks s ++ [h] in
      _ ← modify_tracker (Remove (id h));
      _ ← modify_store (λ σ, sqsMessageDeadline.SetDeleted σ (deadline h));
      _ ← (if bool_decide (MaxNumberOfMessages (conf a) ≤ Z.of_nat (length pendingNacks))
           then flushFinishedHandles a closeNowCtx pendingNacks false
           else mret ());
      mret (Some {| pendingAcks := pendingAcks s; pendingNacks := pendingNacks;
                    refreshes := refreshes s |})
  | flushTimer run =>
      _ ← flushFinishedHandles a closeNowCtx (pendingAcks s) true;
      _ ← flushFinishedHandles a closeNowCtx (pendingNacks s) false;
      _ ← go_refreshCurrentHandles a closeNowCtx run;
      mret (Some {| pendingAcks := pendingAcks s; pendingNacks := pendingNacks s;
                    refreshes := S (refreshes s) |})
  | SoftStopChan => mret None
  end.

(** The [for] around the [select], over the events the loop receives; the
    boolean tells whether the loop was left. *)
Fixpoint ackLoop_for (a : awsSQSReader) (closeNowCtx : Context)
    (s : ackLoopState) (evs : list ackLoopEvent) : M (ackLoopState * bool) :=
  match evs with
  | [] => mret (s, false)
  | ev :: evs =>
      next ← ackLoop_select a closeNowCtx s ev;
      match next with
      | None => mret (s, true)
      | Some s' => ackLoop_for a closeNowCtx s' evs
      end
  end.

(** After the loop: the last two flushes, then the deferred [Clear]. *)
Definition ackLoop_leave (a : awsSQSReader) (closeNowCtx : Context)
    (s : ackLoopState) : M unit :=
  _ ← flushFinishedHandles a closeNowCtx (pendingAcks s) true;
  _ ← flushFinishedHandles a closeNowCtx (pendingNacks s) false;
  modify_tracker Clear.

Definition ackLoop_start : ackLoopState :=
  {| pendingAcks := []; pendingNacks := []; refreshes := 0 |}.

Definition ackLoop (a : awsSQSReader) (closeNowCtx : Context)
    (evs : list ackLoopEvent) : M ackLoopState :=
  '(s, stopped) ← ackLoop_for a closeNowCtx ackLoop_start evs;
  if stopped : bool then _ ← ackLoop_leave a closeNowCtx s; mret s else mret s.

(** ** [readLoop]: wrapping a received message

    [getMsgs] gives a message a handle only when both its id and its receipt
    handle are present; [l] is the fresh deadline cell of the new handle. *)
Definition pendingMsg (a : awsSQSReader) (now : time.Time) (l : loc)
    (msg : types.Message) (σ : cells) : sqsMessage * cells :=
  match types.MessageId msg, types.ReceiptHandle msg with
  | Some i, Some r =>
      ({| Message := msg;
          handle := Some {| id := i; receiptHandle := r; deadline := l |} |},
       sqsMessageDeadline.Store σ l (time.Add now (MessageTimeout (conf a))))
  | _, _ => ({| Message := msg; handle := None |}, σ)
  end.

(** ** [Read] and the acknowledgement closure *)

Module service.

Record Message := { content : string; metadata : gmap string string }.

Definition NewMessage (content : string) : Message :=
  {| content := content; metadata := ∅ |}.

Definition MetaSetMut (key value : string) (p : Message) : Message :=
  {| content := content p; metadata := <[key := value]> (metadata p) |}.

End service.

(** [None] is the nil-pointer panic of [*sqsMsg.MessageId] or
    [*sqsMsg.ReceiptHandle]. *)
Definition addSQSMetadata (p : service.Message) (sqsMsg : types.Message)
    : option service.Message :=
  match types.MessageId sqsMsg with
  | None => None
  | Some messageId =>
      let p := service.MetaSetMut "sqs_message_id" messageId p in
      match types.ReceiptHandle sqsMsg with
      | None => None
      | Some receipt =>
          let p := service.MetaSetMut "sqs_receipt_handle" receipt p in
          let p := match types.Attributes sqsMsg !! "ApproximateReceiveCount" with
                   | Some rCountStr =>
                       service.MetaSetMut "sqs_approximate_receive_count" rCountStr p
                   | None => p
                   end in
          Some (map_fold (λ k v p,
                            match types.StringValue v with
                            | Some s => service.MetaSetMut k s p
                            | None => p
                            end) p (types.MessageAttributes sqsMsg))
      end
  end.

(** The branch a [select] of the closure takes. *)
Inductive ackSelect :=
  | rctxDone            (* <-rctx.Done() *)
  | ackSoftStop         (* <-a.closeSignal.SoftStopChan() *)
  | ackSend.            (* the send on the ack or nack channel *)

(** A handle passed to [ackLoop] over one of its two channels. *)
Inductive handoff :=
  | onAckMessagesChan (h : sqsMessageHandle)
  | onNackMessagesChan (h : sqsMessageHandle).

(** A branch can be taken only when its channel is ready; [receiving]
    tells whether [ackLoop] is at its [select]. *)
Definition ackSelect_ready (a : awsSQSReader) (rctx : Context)
    (receiving : bool) (sel : ackSelect) : bool :=
  match sel with
  | rctxDone => bool_decide (is_Some (Err rctx))
  | ackSoftStop => softStop a
  | ackSend => receiving
  end.

(** The closure [Read] returns, with [mHandle] as it captured it.  It gives
    back its error and the handle it passed on, if any. *)
Definition ackFn (a : awsSQSReader) (mHandle : option sqsMessageHandle)
    (rctx : Context) (res : option error) (sel : ackSelect)
    : M (option error * option handoff) :=
  match mHandle with
  | None => mret (None, None)
  | Some mHandle =>
      match res with
      | None =>
          match sel with
          | rctxDone => mret (Err rctx, None)
          | ackSoftStop => err ← deleteMessages a rctx [mHandle]; mret (err, None)
          | ackSend => mret (None, Some (onAckMessagesChan mHandle))
          end
      | Some _ =>
          match sel with
          | rctxDone => mret (Err rctx, None)
          | ackSoftStop => err ← resetMessages a rctx [mHandle]; mret (err, None)
          | ackSend => mret (None, Some (onNackMessagesChan mHandle))
          end
      end
  end.

Definition AckFunc : Type :=
  Context → option error → ackSelect → M (option error * option handoff).

(** The branch the [select] of [Read] takes. *)
Inductive readSelect :=
  | messagesChan (next : sqsMessage) (open : bool)   (* next, open = <-a.messagesChan *)
  | readSoftStop                                     (* <-a.closeSignal.SoftStopChan() *)
  | ctxDone.                                         (* <-ctx.Done() *)

Definition readSelect_ready (a : awsSQSReader) (ctx : Context)
    (sel : readSelect) : bool :=
  match sel with
  | messagesChan _ _ => true
  | readSoftStop => softStop a
  | ctxDone => bool_decide (is_Some (Err ctx))
  end.

Inductive readOutcome :=
  | ReadPanics
  | ReadReturns (msg : option service.Message) (ack : option AckFunc)
                (err : option error).

Definition Read (a : awsSQSReader) (ctx : Context) (sel : readSelect)
    : readOutcome :=
  match sqs a with
  | None => ReadReturns None None (Some ErrNotConnected)
  | Some _ =>
      let received :=
        match sel with
        | messagesChan next open =>
            if open then inl next
            else inr (ReadReturns None None (Some ErrEndOfInput))
        | readSoftStop => inr (ReadReturns None None (Some ErrEndOfInput))
        | ctxDone => inr (ReadReturns None None (Err ctx))
        end in
      match received with
      | inr returned => returned
      | inl next =>
          match types.Body (Message next) with
          | None => ReadReturns None None (Some Canceled)
          | Some body =>
              let msg := service.NewMessage body in
              match addSQSMetadata msg (Message next) with
              | None => ReadPanics
              | Some msg =>
                  let mHandle := handle next in
                  ReadReturns (Some msg) (Some (ackFn a mHandle)) None
              end
          end
      end
  end.

(** ** The consumer's acknowledgements together with [ackLoop]

    The channels are unbuffered: a send of the closure and the receive of
    the loop are one step.  A tick comes with the goroutine it starts, as
    in [ackLoop_select].  [None] as loop state: [ackLoop] has returned. *)
Inductive ackEvent :=
  | callAckFn (mHandle : option sqsMessageHandle) (rctx : Context)
              (res : option error) (sel : ackSelect)
  | tick (run : refreshRun)
  | stop.

Definition ack_step (a : awsSQSReader) (closeNowCtx : Context)
    (s : option ackLoopState) (ev : ackEvent) : M (option ackLoopState) :=
  match ev, s with
  | callAckFn mHandle rctx res sel, _ =>
      '(_, sent) ← ackFn a mHandle rctx res sel;
      match sent, s with
      | Some (onAckMessagesChan h), Some s =>
          ackLoop_select a closeNowCtx s (ackMessagesChan h)
      | Some (onNackMessagesChan h), Some s =>
          ackLoop_select a closeNowCtx s (nackMessagesChan h)
      | _, _ => mret s
      end
  | tick run, Some s => ackLoop_select a closeNowCtx s (flushTimer run)
  | stop, Some s => _ ← ackLoop_leave a closeNowCtx s; mret None
  | _, None => mret None
  end.

Fixpoint ack_run (a : awsSQSReader) (closeNowCtx : Context)
    (s : option ackLoopState) (evs : list ackEvent) : M (option ackLoopState) :=
  match evs with
  | [] => mret s
  | ev :: evs => s' ← ack_step a closeNowCtx s ev; ack_run a closeNowCtx s' evs
  end.

(** ** [readLoop]

    [ReceiveMessage] is not among the calls the log keeps: its answer is an
    input of the turn that asks for it.  A turn is one pass through the body
    of the [for], or what is left of it once a parked [AddNew] is woken; the
    other goroutines run between the turns. *)

Inductive receiveReply :=
  | ReceiveErr (err : error)
  | ReceiveOk (Messages : list types.Message).

Record readLoopState := {
  pendingMsgs : list sqsMessage;
  backoffs : nat     (* calls of [backoff.NextBackOff()] since the last [Reset] *)
}.

(** What the surroundings settle for one turn of the loop. *)
Record readLoopTurn := {
  meanwhile : world → world;      (* what the other goroutines did before it *)
  reply : receiveReply;           (* the answer of [ReceiveMessage], if asked *)
  clock : nat → time.Time;        (* [time.Now()] at the i-th message of the answer *)
  closeAtLeisureCtx : Context;    (* the soft-stop context, as [AddNew] finds it *)
  onSoftStop : bool               (* the [select] takes [<-SoftStopChan()] *)
}.

(** The loop over [res.Messages].  A new handle is a new heap object: its
    deadline cell is one the store does not hold yet (every handle the loop
    has built had its deadline stored at once, so its cell is in the
    store). *)
Fixpoint getMsgs_wrap (a : awsSQSReader) (clock : nat → time.Time) (i : nat)
    (Messages : list types.Message) (σ : cells) : list sqsMessage * cells :=
  match Messages with
  | [] => ([], σ)
  | msg :: Messages =>
      let '(m, σ) := pendingMsg a (clock i) (fresh (dom σ)) msg σ in
      let '(ms, σ) := getMsgs_wrap a clock (S i) Messages σ in
      (m :: ms, σ)
  end.

(** Where the loop stands between two turns. *)
Inductive readLoopPoint :=
  | atFor (s : readLoopState)               (* at the top of the [for] *)
  | inWait (s : readLoopState) (messages : list sqsMessage)
                                            (* in [t.l.Wait()] of [AddNew] *)
  | readLoopReturned (s : readLoopState).   (* after the deferred calls *)

(** What a turn shows to the outside. *)
Inductive readLoopAction :=
  | Received (Messages : list types.Message)   (* [res.Messages], when not empty *)
  | Sent (msg : sqsMessage).                   (* [a.messagesChan <- pendingMsgs[0]] *)

(** The deferred function of [readLoop]. *)
Definition readLoop_deferred (a : awsSQSReader) (closeNowCtx : Context)
    (s : readLoopState) : M unit :=
  if bool_decide (0 < length (pendingMsgs s))%nat then
    let tmpNacks := omap handle (pendingMsgs s) in
    _ ← resetMessages a closeNowCtx tmpNacks; mret ()
  else mret ().

Definition backoff_Reset (s : readLoopState) : readLoopState :=
  {| pendingMsgs := pendingMsgs s; backoffs := 0 |}.

(** The body of the [for] after [getMsgs]: the wait for the back-off when
    nothing is pending, else the send of [pendingMsgs[0]]. *)
Definition readLoop_select (a : awsSQSReader) (closeNowCtx : Context)
    (env : readLoopTurn) (s : readLoopState)
    : M (readLoopPoint * list readLoopAction) :=
  match pendingMsgs s with
  | [] =>
      let s := {| pendingMsgs := []; backoffs := S (backoffs s) |} in
      if onSoftStop env
      then _ ← readLoop_deferred a closeNowCtx s; mret (readLoopReturned s, [])
      else mret (atFor s, [])
  | next :: rest =>
      if onSoftStop env
      then _ ← readLoop_deferred a closeNowCtx s; mret (readLoopReturned s, [])
      else mret (atFor {| pendingMsgs := rest; backoffs := backoffs s |}, [Sent next])
  end.

(** [getMsgs] from its call of [AddNew] on, and the rest of the turn.  The
    call is made with messages received, so the back-off is reset after
    it. *)
Definition readLoop_AddNew (a : awsSQSReader) (closeNowCtx : Context)
    (env : readLoopTurn) (s : readLoopState) (messages : list sqsMessage)
    : M (readLoopPoint * list readLoopAction) :=
  t ← get_tracker;
  match AddNew (closeAtLeisureCtx env) messages t with
  | Parked => mret (inWait s messages, [])
  | ReturnedEarly => readLoop_select a closeNowCtx env (backoff_Reset s)
  | Inserted t' =>
      _ ← modify_tracker (λ _, t');
      readLoop_select a closeNowCtx env (backoff_Reset s)
  end.

Definition readLoop_turn (a : awsSQSReader) (closeNowCtx : Context)
    (p : readLoopPoint) (env : readLoopTurn)
    : M (readLoopPoint * list readLoopAction) :=
  match p with
  | readLoopReturned s => mret (readLoopReturned s, [])
  | inWait s messages => readLoop_AddNew a closeNowCtx env s messages
  | atFor s =>
      if bool_decide (length (pendingMsgs s) = 0%nat) then
        match sqs a with
        | None => panic
        | Some _ =>
            match reply env with
            | ReceiveErr _ => readLoop_select a closeNowCtx env s
            | ReceiveOk Messages =>
                if bool_decide (0 < length Messages)%nat then
                  σ ← get_store;
                  let '(new, σ') := getMsgs_wrap a (clock env) 0 Messages σ in
                  _ ← modify_store (λ _, σ');
                  let pendingMsgs := pendingMsgs s ++ new in
                  '(p, acts) ← readLoop_AddNew a closeNowCtx env
                      {| pendingMsgs := pendingMsgs; backoffs := backoffs s |}
                      (drop (length pendingMsgs - length Messages) pendingMsgs);
                  mret (p, Received Messages :: acts)
                else
                  readLoop_select a closeNowCtx env
                    (if bool_decide (0 < WaitTimeSeconds (conf a))
                     then backoff_Reset s else s)
            end
        end
      else readLoop_select a closeNowCtx env s
  end.

Definition readLoop_start : readLoopPoint :=
  atFor {| pendingMsgs := []; backoffs := 0 |}.

(** The loop over the turns it is given, with what it showed. *)
Fixpoint readLoop_for (a : awsSQSReader) (closeNowCtx : Context)
    (p : readLoopPoint) (envs : list readLoopTurn)
    : M (readLoopPoint * list readLoopAction) :=
  match envs with
  | [] => mret (p, [])
  | env :: envs =>
      '(p, acts) ← (λ w, readLoop_turn a closeNowCtx p env (meanwhile env w));
      '(p, acts') ← readLoop_for a closeNowCtx p envs;
      mret (p, acts ++ acts')
  end.

Definition readLoop (a : awsSQSReader) (closeNowCtx : Context)
    (envs : list readLoopTurn) : M (readLoopPoint * list readLoopAction) :=
  readLoop_for a closeNowCtx readLoop_start envs.

(** ** [Close] *)

(** Arithmetic on a [time.Duration] wraps around. *)
Definition int64 (z : Z) : Z := (z + 2 ^ 63) `mod` 2 ^ 64 - 2 ^ 63.

Inductive closeSignalCall :=
  | TriggerSoftStop
  | TriggerHardStop.

(** The two branches both [select]s of [Close] have. *)
Inductive closeWait :=
  | closeCtxDone        (* <-ctx.Done() *)
  | HasStoppedChan.     (* <-a.closeSignal.HasStoppedChan() *)

(** [Close], with the deadline of its context ([None] when [ok] is false),
    the reading of the clock in [time.Until], and the branches its
    [select]s take; [None] for the first one is [<-time.After(closeNowAt)].
    It gives back the calls made on [closeSignal], in order, and its
    error. *)
Definition Close (ctx : Context) (Deadline : option time.Time) (now : time.Time)
    (first : option closeWait) (second : closeWait)
    : list closeSignalCall * option error :=
  let closeNowAt :=
    match Deadline with
    | Some dline => int64 (time.Sub dline now - time.Second)
    | None => 0
    end in
  let calls :=
    TriggerSoftStop ::
    match Deadline with
    | Some _ => if bool_decide (closeNowAt ≤ 0) then [TriggerHardStop] else []
    | None => []
    end in
  let last (calls : list closeSignalCall) :=
    match second with
    | closeCtxDone => (calls, Err ctx)
    | HasStoppedChan => (calls, None)
    end in
  if bool_decide (0 < closeNowAt) then
    match first with
    | None => last (calls ++ [TriggerHardStop])
    | Some closeCtxDone => (calls, Err ctx)
    | Some HasStoppedChan => (calls, None)
    end
  else last calls.

(** A branch on [ctx.Done()] can be taken only when the context is done. *)
Definition closeWait_ready (ctx : Context) (sel : closeWait) : bool :=
  match sel with
  | closeCtxDone => bool_decide (is_Some (Err ctx))
  | HasStoppedChan => true
  end.

(** * Notions the statements use *)

(** ** Deadlines *)

(** The test [PullToRefresh] applies to a handle before it takes it: at
    least half the timeout is left. *)
Definition far_from_expiry (t : sqsInFlightTracker) (now : time.Time)
    (σ : cells) (v : sqsMessageHandle) : Prop :=
  timeout t `quot` 2 ≤ time.Sub (sqsMessageDeadline.Load σ (deadline v)) now.

#[global] Instance far_from_expiry_dec t now σ v :
  Decision (far_from_expiry t now σ v).
Proof. unfold far_from_expiry. apply _. Defined.

(** Distinct entries of the tracker hold handles with distinct cells. *)
Definition cells_distinct (t : sqsInFlightTracker) : Prop :=
  ∀ k1 k2 v1 v2,
    handles t !! k1 = Some v1 → handles t !! k2 = Some v2 →
    deadline v1 = deadline v2 → k1 = k2.

(** The handle does not read as deleted. *)
Definition live (σ : cells) (h : sqsMessageHandle) : Prop :=
  sqsMessageDeadline.IsDeleted σ (deadline h) = false.

#[global] Instance live_dec σ h : Decision (live σ h).
Proof. unfold live. apply _. Defined.

(** ** Batches *)

(** [ceil(n/10)] *)
Definition batches_for (n : nat) : nat := (n + 9) / 10.

(** ** The log of calls *)

(** The calls a computation adds to the log all satisfy [P]. *)
Definition adds_only {A} (P : rpc → Prop) (w : world) (r : result A) : Prop :=
  ∃ calls, rpcs (final r) = rpcs w ++ calls ∧ Forall P calls.

(** The same, and the value the computation ends with, if it ends with one,
    satisfies [Q]. *)
Definition ensures {A} (P : rpc → Prop) (Q : A → Prop) (w : world)
    (r : result A) : Prop :=
  adds_only P w r ∧ ∀ x w', r = Val x w' → Q x.

Ltac unfold_M :=
  unfold mbind, mret, M_bind, M_ret, issue, panic, out_of_fuel, get_store,
    modify_store, get_tracker, modify_tracker in *.

(** ** The refresh goroutines *)

(** The goroutines the ticks of a run start. *)
Definition passes_of (evs : list ackLoopEvent) : list refreshRun :=
  omap (λ ev, if ev is flushTimer run then Some run else None) evs.

Definition passes_in (evs : list ackEvent) : list refreshRun :=
  omap (λ ev, if ev is tick run then Some run else None) evs.

(** No refresh pass runs: every goroutine finds the lock taken. *)
Definition no_pass (runs : list refreshRun) : Prop :=
  Forall (λ run, run = refreshLocked) runs.

(** The call is one a refresh pass among [runs] can make: a visibility
    change whose entries all carry the seconds of that pass, for handles
    that satisfy [P]. *)
Definition refreshed (P : sqsMessageHandle → Prop) (runs : list refreshRun)
    (call : rpc) : Prop :=
  match call with
  | ChangeMessageVisibilityBatchInput Entries =>
      ∃ now seconds, refreshRuns now seconds ∈ runs ∧
        ∀ e, e ∈ Entries → ∃ v, P v ∧ e = visibilityEntry seconds v
  | DeleteMessageBatchInput _ => False
  end.

(** The tracker holds the handle, under some id. *)
Definition tracked (t : sqsInFlightTracker) (v : sqsMessageHandle) : Prop :=
  ∃ k, handles t !! k = Some v.

(** Handles are heap objects of their own: no handle the tracker holds
    under another id shares the deadline cell of [h]. *)
Definition cell_apart (t : sqsInFlightTracker) (h : sqsMessageHandle) : Prop :=
  ∀ k v, handles t !! k = Some v → deadline v = deadline h → k = id h.

(** No handle the tracker holds has the cell [l] as deadline. *)
Definition untracked_cell (t : sqsInFlightTracker) (l : loc) : Prop :=
  ∀ k v, handles t !! k = Some v → deadline v ≠ l.

(** ** Routing *)

(** The wire knows a message by its id and receipt handle. *)
Definition same_message (h h' : sqsMessageHandle) : Prop :=
  id h' = id h ∧ receiptHandle h' = receiptHandle h.

(** The event is a call of the closure with nil, respectively with an
    error, for the message of [h]. *)
Definition is_ack_of (h : sqsMessageHandle) (ev : ackEvent) : Prop :=
  match ev with
  | callAckFn (Some h') _ None _ => same_message h h'
  | _ => False
  end.

Definition is_nack_of (h : sqsMessageHandle) (ev : ackEvent) : Prop :=
  match ev with
  | callAckFn (Some h') _ (Some _) _ => same_message h h'
  | _ => False
  end.

(** The call is a delete, respectively a visibility change, with an entry
    for the message of [h]. *)
Definition deletes (h : sqsMessageHandle) (call : rpc) : Prop :=
  match call with
  | DeleteMessageBatchInput Entries =>
      ∃ e, e ∈ Entries ∧ types.del_Id e = id h
           ∧ types.del_ReceiptHandle e = receiptHandle h
  | _ => False
  end.

Definition changes_visibility (h : sqsMessageHandle) (call : rpc) : Prop :=
  match call with
  | ChangeMessageVisibilityBatchInput Entries =>
      ∃ e, e ∈ Entries ∧ types.vis_Id e = id h
           ∧ types.vis_ReceiptHandle e = receiptHandle h
  | _ => False
  end.

(** The consumer acked, respectively nacked, the handle somewhere in the
    run. *)
Definition acked (evs : list ackEvent) (h : sqsMessageHandle) : Prop :=
  ∃ rctx sel, callAckFn (Some h) rctx None sel ∈ evs.

Definition nacked (evs : list ackEvent) (h : sqsMessageHandle) : Prop :=
  ∃ rctx err sel, callAckFn (Some h) rctx (Some err) sel ∈ evs.

(** A delete carries acked handles only, a visibility change is a reset of
    nacked handles only. *)
Definition routed (evs : list ackEvent) (call : rpc) : Prop :=
  match call with
  | DeleteMessageBatchInput Entries =>
      ∀ e, e ∈ Entries → ∃ h, acked evs h ∧ e = deleteEntry h
  | ChangeMessageVisibilityBatchInput Entries =>
      ∀ e, e ∈ Entries → ∃ h, nacked evs h ∧ e = visibilityEntry 0 h
  end.

(** What the closure and the loop may put on the wire in a run: what is
    routed, and what the refresh passes of its ticks send. *)
Definition routed_or_refreshed (evs : list ackEvent) (call : rpc) : Prop :=
  routed evs call ∨ refreshed (λ _, True) (passes_in evs) call.

(** The pending slices of a running loop hold acked, respectively nacked,
    handles; so does what the loop receives. *)
Definition pending_routed (evs : list ackEvent) (s : option ackLoopState) : Prop :=
  match s with
  | None => True
  | Some s => Forall (acked evs) (pendingAcks s) ∧ Forall (nacked evs) (pendingNacks s)
  end.

Definition received_routed (evs : list ackEvent) (ev : ackLoopEvent) : Prop :=
  match ev with
  | ackMessagesChan h => acked evs h
  | nackMessagesChan h => nacked evs h
  | flushTimer run => tick run ∈ evs
  | SoftStopChan => True
  end.

(** ** The tracker *)

(** Every key of the tracker is the id of the handle it holds. *)
Definition keyed_by_id (t : sqsInFlightTracker) : Prop :=
  ∀ k v, handles t !! k = Some v → id v = k.

(** The handle the second loop of [AddNew] leaves under an id: the last one
    of the batch that carries it. *)
Definition last_with_id (i : string) (messages : list sqsMessage)
    : option sqsMessageHandle :=
  last (filter (λ h, id h = i) (omap handle messages)).

(** ** The history of the ack loop *)

(** The handles the loop received for acking, for nacking, and for either,
    in the order of their arrival. *)
Definition acks_of (evs : list ackLoopEvent) : list sqsMessageHandle :=
  omap (λ ev, if ev is ackMessagesChan h then Some h else None) evs.

Definition nacks_of (evs : list ackLoopEvent) : list sqsMessageHandle :=
  omap (λ ev, if ev is nackMessagesChan h then Some h else None) evs.

Definition finished_of (evs : list ackLoopEvent) : list sqsMessageHandle :=
  omap (λ ev, match ev with
              | ackMessagesChan h | nackMessagesChan h => Some h
              | _ => None
              end) evs.

Definition ticks_of (evs : list ackLoopEvent) : nat :=
  length (omap (λ ev, if ev is flushTimer _ then Some () else None) evs).

(** The events before the soft stop reaches the loop. *)
Fixpoint before_stop (evs : list ackLoopEvent) : list ackLoopEvent :=
  match evs with
  | [] => []
  | SoftStopChan :: _ => []
  | ev :: evs => ev :: before_stop evs
  end.

Definition stop_in (evs : list ackLoopEvent) : bool :=
  bool_decide (length (before_stop evs) < length evs)%nat.

(** The store after the deadlines of the handles were marked deleted, and
    the tracker after their ids were removed. *)
Definition mark_deleted (σ : cells) (hs : list sqsMessageHandle) : cells :=
  foldl (λ σ h, sqsMessageDeadline.SetDeleted σ (deadline h)) σ hs.

Definition remove_all (t : sqsInFlightTracker) (hs : list sqsMessageHandle)
    : sqsInFlightTracker :=
  foldl (λ t h, Remove (id h) t) t hs.

(** Every pending handle reads as deleted. *)
Definition pending_deleted (s : ackLoopState) (σ : cells) : Prop :=
  Forall (λ h, sqsMessageDeadline.IsDeleted σ (deadline h) = true)
         (pendingAcks s ++ pendingNacks s).

(** What the loop may put on the wire: deletes only with [DeleteMessage] on,
    visibility changes only with [ResetVisibility] on, and the latter
    without a single entry. *)
Definition loop_call (a : awsSQSReader) (call : rpc) : Prop :=
  match call with
  | DeleteMessageBatchInput _ => DeleteMessage (conf a) = true
  | ChangeMessageVisibilityBatchInput Entries =>
      ResetVisibility (conf a) = true ∧ Entries = []
  end.

(** The client never fails a call as a whole. *)
Definition never_fails (api : sqsAPI) : Prop :=
  (∀ sofar ctx es err, DeleteMessageBatch api sofar ctx es ≠ RpcErr err) ∧
  (∀ sofar ctx es err, ChangeMessageVisibilityBatch api sofar ctx es ≠ RpcErr err).

(** A call the toggles of the reader allow. *)
Definition toggle_call (a : awsSQSReader) (call : rpc) : Prop :=
  match call with
  | DeleteMessageBatchInput _ => DeleteMessage (conf a) = true
  | ChangeMessageVisibilityBatchInput _ => ResetVisibility (conf a) = true
  end.

(** ** Metadata *)

(** The metadata [addSQSMetadata] leaves under a key: a message attribute of
    that name with a string value wins, then come the receive count, the
    receipt handle and the message id under their fixed names, then what
    the message carried before. *)
Definition metadata_of (p : service.Message) (sqsMsg : types.Message)
    (messageId receipt : string) (k : string) : option string :=
  match types.MessageAttributes sqsMsg !! k ≫= types.StringValue with
  | Some s => Some s
  | None =>
      match types.Attributes sqsMsg !! "ApproximateReceiveCount" with
      | Some rCountStr =>
          if decide (k = "sqs_approximate_receive_count") then Some rCountStr
          else if decide (k = "sqs_receipt_handle") then Some receipt
          else if decide (k = "sqs_message_id") then Some messageId
          else service.metadata p !! k
      | None =>
          if decide (k = "sqs_receipt_handle") then Some receipt
          else if decide (k = "sqs_message_id") then Some messageId
          else service.metadata p !! k
      end
  end.

(** ** The read loop *)

(** The messages the loop holds at a point. *)
Definition pending_of (p : readLoopPoint) : list sqsMessage :=
  match p with
  | atFor s | inWait s _ | readLoopReturned s => pendingMsgs s
  end.

(** The messages the queue gave and those handed to [Read], in order. *)
Definition received_of (acts : list readLoopAction) : list types.Message :=
  acts ≫= λ act, match act with Received Messages => Messages | Sent _ => [] end.

Definition sent_of (acts : list readLoopAction) : list sqsMessage :=
  omap (λ act, match act with Sent msg => Some msg | Received _ => None end) acts.

(** A message carries a handle exactly when it has both an id and a receipt
    handle, and the handle repeats them. *)
Definition wrapped (m : sqsMessage) : Prop :=
  match handle m with
  | Some h =>
      types.MessageId (Message m) = Some (id h) ∧
      types.ReceiptHandle (Message m) = Some (receiptHandle h)
  | None =>
      types.MessageId (Message m) = None ∨ types.ReceiptHandle (Message m) = None
  end.

(** The calls hand the messages back to the queue.  They are visibility
    changes to 0, made only with [ResetVisibility] on and only when a
    message with a handle is held: with the toggle off, or with no handle
    held, there is no call.  They carry the handles of the held messages
    that do not read as deleted, in order, ten to a call but for the last;
    every call but the last was answered, so the calls stop at a call that
    fails; and when the last call is answered too, every such handle was
    handed back.  [sofar] is the log before the first of the calls. *)
Definition hands_back (a : awsSQSReader) (api : sqsAPI) (ctx : Context)
    (sofar : list rpc) (σ : cells) (msgs : list sqsMessage) (calls : list rpc)
    : Prop :=
  ∃ batches,
    calls = ChangeMessageVisibilityBatchInput <$> batches ∧
    (batches ≠ [] → ResetVisibility (conf a) = true) ∧
    (batches = [] ↔ ResetVisibility (conf a) = false ∨ omap handle msgs = []) ∧
    Forall (λ b, length b ≤ maxBatchSize)%nat batches ∧
    (∀ i b, batches !! i = Some b → (S i < length batches)%nat →
            length b = maxBatchSize ∧
            ∃ rejected,
              ChangeMessageVisibilityBatch api
                (sofar ++ (ChangeMessageVisibilityBatchInput <$> take i batches)) ctx b
              = RpcOk rejected) ∧
    (∃ m, concat batches
          = visibilityEntry 0 <$> filter (live σ) (take m (omap handle msgs))) ∧
    (ResetVisibility (conf a) = true →
     ∃ m, concat batches
          = visibilityEntry 0 <$> filter (live σ) (take m (omap handle msgs)) ∧
          (m = length (omap handle msgs)
           ∨ ∃ b, last batches = Some b ∧ length b = maxBatchSize)) ∧
    (ResetVisibility (conf a) = true →
     (∀ before b, batches = before ++ [b] →
                  ∃ rejected,
                    ChangeMessageVisibilityBatch api
                      (sofar ++ (ChangeMessageVisibilityBatchInput <$> before)) ctx b
                    = RpcOk rejected) →
     concat batches = visibilityEntry 0 <$> filter (live σ) (omap handle msgs)) ∧
    (ResetVisibility (conf a) = true → never_fails api →
     concat batches = visibilityEntry 0 <$> filter (live σ) (omap handle msgs)).

(** The world after the other goroutines alone have run through the
    turns. *)
Definition others_only (envs : list readLoopTurn) (w : world) : world :=
  foldl (λ w env, meanwhile env w) w envs.

(** At every one of the turns the tracker is found full and the soft stop
    has not fired. *)
Fixpoint no_room (envs : list readLoopTurn) (w : world) : Prop :=
  match envs with
  | [] => True
  | env :: envs =>
      limit (inFlight (meanwhile env w)) ≤ Size (inFlight (meanwhile env w)) ∧
      Err (closeAtLeisureCtx env) = None ∧
      no_room envs (meanwhile env w)
  end.

(** A turn in which the queue gives nothing and the soft stop is not
    taken. *)
Definition idle (env : readLoopTurn) : Prop :=
  onSoftStop env = false ∧
  match reply env with
  | ReceiveErr _ => True
  | ReceiveOk Messages => Messages = []
  end.

(** * Scenarios *)

(** The defaults of the input's configuration fields. *)
Definition default_conf : sqsiConfig :=
  {| URL := "https://sqs.example/queue"; WaitTimeSeconds := 0;
     DeleteMessage := true; ResetVisibility := true;
     MaxNumberOfMessages := 10; MaxOutstanding := 1000;
     MessageTimeout := 30 * time.Second |}.

(** A client that accepts every call and every entry, and one that fails
    every call. *)
Definition quiet_api : sqsAPI :=
  {| DeleteMessageBatch := λ _ _ _, RpcOk (λ _, false);
     ChangeMessageVisibilityBatch := λ _ _ _, RpcOk (λ _, false) |}.

Definition failing_api : sqsAPI :=
  {| DeleteMessageBatch := λ _ _ _, RpcErr (ErrOther "ServiceUnavailable");
     ChangeMessageVisibilityBatch := λ _ _ _, RpcErr (ErrOther "ServiceUnavailable") |}.

Definition connected : awsSQSReader :=
  {| conf := default_conf; sqs := Some quiet_api; softStop := false |}.

Definition stopping : awsSQSReader :=
  {| conf := default_conf; sqs := Some quiet_api; softStop := true |}.

Definition unreachable_queue : awsSQSReader :=
  {| conf := default_conf; sqs := Some failing_api; softStop := false |}.

(** Three handles. *)
Definition m1 : sqsMessageHandle :=
  {| id := "m1"; receiptHandle := "r1"; deadline := 1%nat |}.
Definition m2 : sqsMessageHandle :=
  {| id := "m2"; receiptHandle := "r2"; deadline := 2%nat |}.
Definition m3 : sqsMessageHandle :=
  {| id := "m3"; receiptHandle := "r3"; deadline := 3%nat |}.

(** Two tracked handles under a timeout of 30 s, at clock reading 1000 s:
    [fresh] was received just now (deadline 1030), [stale] has 5 s left
    (deadline 1005). *)
Definition fresh : sqsMessageHandle := m1.
Definition stale : sqsMessageHandle := m2.
Definition two_tracked : sqsInFlightTracker :=
  {| handles := {[ "m1" := fresh; "m2" := stale ]};
     limit := 1000; timeout := 30 * time.Second |}.
Definition two_deadlines : cells := {[ 1%nat := 1030; 2%nat := 1005 ]}.

(** Messages as they come off the hand-off channel: a complete one, one
    without a body, and a received message without a receipt handle. *)
Definition one_message : sqsMessage :=
  {| Message := {| types.MessageId := Some "m1"; types.ReceiptHandle := Some "r1";
                   types.Body := Some "hello"; types.Attributes := ∅;
                   types.MessageAttributes := ∅ |};
     handle := Some m1 |}.

Definition no_body : sqsMessage :=
  {| Message := {| types.MessageId := Some "m1"; types.ReceiptHandle := Some "r1";
                   types.Body := None; types.Attributes := ∅;
                   types.MessageAttributes := ∅ |};
     handle := Some m1 |}.

Definition no_receipt : types.Message :=
  {| types.MessageId := Some "m1"; types.ReceiptHandle := None;
     types.Body := Some "hello"; types.Attributes := ∅;
     types.MessageAttributes := ∅ |}.

(** A tracker at its limit, and a context that was cancelled. *)
Definition full_tracker : sqsInFlightTracker :=
  {| handles := {[ "m2" := m2 ]}; limit := 1; timeout := 30 * time.Second |}.

Definition cancelled : Context := {| Err := Some Canceled |}.

(** Eleven handles, one more than a batch holds. *)
Definition numbered (i : nat) : sqsMessageHandle :=
  {| id := String (Ascii.ascii_of_nat (65 + i)) ""; receiptHandle := "receipt";
     deadline := i |}.

Definition eleven : list sqsMessageHandle := numbered <$> seq 0 11.

(** Worlds: nothing issued and nothing tracked; the handle [m1] already
    deleted; the happy path before and after its three acks. *)
Definition empty_world : world :=
  {| rpcs := []; store := ∅; inFlight := newTracker default_conf |}.

Definition deleted_one : world :=
  {| rpcs := []; store := {[ 1%nat := -1 ]}; inFlight := newTracker default_conf |}.

Definition three_in_flight : world :=
  {| rpcs := [];
     store := {[ 1%nat := 1030; 2%nat := 1030; 3%nat := 1030 ]};
     inFlight := {| handles := {[ "m1" := m1; "m2" := m2; "m3" := m3 ]};
                    limit := 1000; timeout := 30 * time.Second |} |}.

Definition three_acked : world :=
  {| rpcs := [];
     store := {[ 1%nat := -1; 2%nat := -1; 3%nat := -1 ]};
     inFlight := {| handles := ∅; limit := 1000; timeout := 30 * time.Second |} |}.

Definition delete_all_three : rpc :=
  DeleteMessageBatchInput (deleteEntry <$> [m1; m2; m3]).

(** A run during shutdown: [m1] is acked over the channel, [m2] is nacked
    after the soft stop has fired, the timer ticks and its refresh pass runs
    at clock reading 1000 s, the loop leaves. *)
Definition shutdown_run : list ackEvent :=
  [ callAckFn (Some m1) Background None ackSend;
    callAckFn (Some m2) Background (Some (ErrOther "processing failed")) ackSoftStop;
    tick (refreshRuns (time.Unix 1000 0) 30);
    stop ].

(** The same run with a tick whose goroutine finds the lock taken. *)
Definition shutdown_run_locked : list ackEvent :=
  [ callAckFn (Some m1) Background None ackSend;
    callAckFn (Some m2) Background (Some (ErrOther "processing failed")) ackSoftStop;
    tick refreshLocked;
    stop ].

(** A batch of three messages: [m1], a message without a handle, and a
    second delivery of [m1] under a new receipt handle. *)
Definition m1_again : sqsMessageHandle :=
  {| id := "m1"; receiptHandle := "r1b"; deadline := 4%nat |}.

Definition redelivery : list sqsMessage :=
  [ one_message;
    {| Message := no_receipt; handle := None |};
    {| Message := {| types.MessageId := Some "m1"; types.ReceiptHandle := Some "r1b";
                     types.Body := Some "hello"; types.Attributes := ∅;
                     types.MessageAttributes := ∅ |};
       handle := Some m1_again |} ].

(** A configuration that admits nothing. *)
Definition closed_conf : sqsiConfig :=
  {| URL := "https://sqs.example/queue"; WaitTimeSeconds := 0;
     DeleteMessage := true; ResetVisibility := true;
     MaxNumberOfMessages := 10; MaxOutstanding := 0;
     MessageTimeout := 30 * time.Second |}.

(** A reader with both toggles off. *)
Definition hands_off : awsSQSReader :=
  {| conf := {| URL := "https://sqs.example/queue"; WaitTimeSeconds := 0;
                DeleteMessage := false; ResetVisibility := false;
                MaxNumberOfMessages := 2; MaxOutstanding := 1000;
                MessageTimeout := 30 * time.Second |};
     sqs := Some quiet_api; softStop := true |}.

(** A message whose attributes use one of the fixed metadata names, and
    hold one value that is not a string. *)
Definition shadowing : types.Message :=
  {| types.MessageId := Some "m1"; types.ReceiptHandle := Some "r1";
     types.Body := Some "hello";
     types.Attributes := {[ "ApproximateReceiveCount" := "3" ]};
     types.MessageAttributes :=
       {[ "sqs_message_id" := {| types.StringValue := Some "spoofed" |};
          "binary" := {| types.StringValue := None |};
          "tenant" := {| types.StringValue := Some "acme" |} ]} |}.

(** The read loop: an answer of three messages, the second without a
    receipt handle; a turn that gets it at clock readings 1000.5 s, 1001.5 s
    and 1002.5 s, a turn that sends, and the turn of the soft stop. *)
Definition received_m2 : types.Message :=
  {| types.MessageId := Some "m2"; types.ReceiptHandle := Some "r2";
     types.Body := Some "world"; types.Attributes := ∅;
     types.MessageAttributes := ∅ |}.

Definition answer : list types.Message :=
  [Message one_message; no_receipt; received_m2].

Definition turn_receiving (Messages : list types.Message) : readLoopTurn :=
  {| meanwhile := λ w, w; reply := ReceiveOk Messages;
     clock := λ i, time.Unix (1000 + Z.of_nat i) 500000000;
     closeAtLeisureCtx := Background; onSoftStop := false |}.

Definition turn_sending : readLoopTurn :=
  {| meanwhile := λ w, w; reply := ReceiveErr (ErrOther "RequestTimeout");
     clock := λ _, time.Unix 1010 0;
     closeAtLeisureCtx := Background; onSoftStop := false |}.

Definition turn_leaving : readLoopTurn :=
  {| meanwhile := λ w, w; reply := ReceiveErr Canceled;
     clock := λ _, time.Unix 1020 0;
     closeAtLeisureCtx := cancelled; onSoftStop := true |}.

(** A turn before which [ackLoop] has removed [m2] from the tracker. *)
Definition turn_after_ack : readLoopTurn :=
  {| meanwhile := λ w, {| rpcs := rpcs w; store := store w;
                          inFlight := Remove "m2" (inFlight w) |};
     reply := ReceiveErr (ErrOther "RequestTimeout");
     clock := λ _, time.Unix 1010 0;
     closeAtLeisureCtx := Background; onSoftStop := false |}.

(** A world whose tracker is at its limit. *)
Definition no_room_world : world :=
  {| rpcs := []; store := {[ 2%nat := 1030 ]}; inFlight := full_tracker |}.

(** * Theorems *)

(** ** The deadline cell *)

Lemma atomic_Load_Store σ l v : atomic.Load (atomic.Store σ l v) l = v.
Proof. unfold atomic.Load, atomic.Store. by rewrite lookup_insert_eq. Qed.

Lemma atomic_Load_Store_ne σ l l' v :
  l ≠ l' → atomic.Load (atomic.Store σ l v) l' = atomic.Load σ l'.
Proof. intros. unfold atomic.Load, atomic.Store. by rewrite lookup_insert_ne. Qed.

(** C10.  The cell keeps whole Unix seconds only: loading after [Store t]
    gives [t] truncated to the second; after [SetDeleted] the cell reads as
    deleted; and storing any instant whose Unix second is -1 (the last second
    of 1969) leaves the very cell [SetDeleted] leaves, so it reads as deleted
    too, exactly like an acked or nacked handle. *)
Theorem deadline_whole_seconds (σ : cells) (s : loc) :
  (∀ t : time.Time,
     sqsMessageDeadline.Load (sqsMessageDeadline.Store σ s t) s
     = time.Truncate t time.Second) ∧
  sqsMessageDeadline.IsDeleted (sqsMessageDeadline.SetDeleted σ s) s = true ∧
  (∀ t : time.Time,
     time.Unix_of t = -1 →
     sqsMessageDeadline.IsDeleted (sqsMessageDeadline.Store σ s t) s = true
     ∧ sqsMessageDeadline.Store σ s t = sqsMessageDeadline.SetDeleted σ s).
Proof.
  split; [|split].
  - intros t.
    unfold sqsMessageDeadline.Load, sqsMessageDeadline.Store.
    rewrite atomic_Load_Store.
    unfold time.Unix, time.Unix_of, time.Truncate, time.Second.
    pose proof (Z.div_mod t 1000000000). lia.
  - unfold sqsMessageDeadline.IsDeleted, sqsMessageDeadline.SetDeleted.
    rewrite atomic_Load_Store. by apply bool_decide_eq_true.
  - intros t Ht.
    unfold sqsMessageDeadline.IsDeleted, sqsMessageDeadline.Store,
      sqsMessageDeadline.SetDeleted.
    rewrite atomic_Load_Store, Ht. split; [by apply bool_decide_eq_true|done].
Qed.

(** Half a second before the epoch: the sub-second part is lost and the
    stored value is the deleted marker. *)
Lemma deadline_whole_seconds_witness :
  time.Unix_of (-500000000) = -1 ∧
  sqsMessageDeadline.IsDeleted
    (sqsMessageDeadline.Store ∅ 0%nat (-500000000)) 0%nat = true ∧
  sqsMessageDeadline.Load
    (sqsMessageDeadline.Store ∅ 0%nat 1500000000) 0%nat = 1000000000.
Proof.
  pose proof (deadline_whole_seconds ∅ 0%nat) as (Hload & _ & Hdel).
  split; [reflexivity|]. split.
  - apply (Hdel (-500000000)). reflexivity.
  - rewrite Hload. reflexivity.
Defined.

(** ** [PullToRefresh] *)

Lemma PullToRefresh_visit_far t now hs σ v :
  far_from_expiry t now σ v →
  PullToRefresh_visit t now (hs, σ) v
  = (hs ++ [v], sqsMessageDeadline.Store σ (deadline v) (time.Add now (timeout t))).
Proof.
  unfold far_from_expiry, PullToRefresh_visit. intros.
  rewrite bool_decide_eq_false_2; [done | lia].
Qed.

Lemma PullToRefresh_visit_near t now hs σ v :
  ¬ far_from_expiry t now σ v →
  PullToRefresh_visit t now (hs, σ) v = (hs, σ).
Proof.
  unfold far_from_expiry, PullToRefresh_visit. intros.
  rewrite bool_decide_eq_true_2; [done | lia].
Qed.

Lemma far_from_expiry_agree t now σ σ' v :
  atomic.Load σ' (deadline v) = atomic.Load σ (deadline v) →
  far_from_expiry t now σ' v ↔ far_from_expiry t now σ v.
Proof.
  unfold far_from_expiry, sqsMessageDeadline.Load. by intros ->.
Qed.

Lemma filter_agree {A} (P1 P2 : A → Prop)
    `{!∀ x, Decision (P1 x), !∀ x, Decision (P2 x)} (l : list A) :
  (∀ x, x ∈ l → P1 x ↔ P2 x) → filter P1 l = filter P2 l.
Proof.
  induction l as [|x l IH]; intros Hiff; [done|].
  rewrite !filter_cons.
  rewrite IH by (intros y Hy; apply Hiff; by right).
  destruct (decide (P1 x)) as [H1|H1], (decide (P2 x)) as [H2|H2]; try done;
    exfalso; apply (Hiff x) in H1 || apply (Hiff x) in H2; try done; by left.
Qed.

(** The visits over a list of handles with pairwise distinct deadline
    cells: the handles taken are those far from expiry in the store the
    pass started in, and only their cells are written. *)
Lemma PullToRefresh_visits t now vs : ∀ hs σ,
  NoDup (deadline <$> vs) →
  ∃ σ',
    foldl (PullToRefresh_visit t now) (hs, σ) vs
    = (hs ++ filter (far_from_expiry t now σ) vs, σ') ∧
    (∀ v, v ∈ vs → far_from_expiry t now σ v →
          atomic.Load σ' (deadline v) = time.Unix_of (time.Add now (timeout t))) ∧
    (∀ l, (∀ v, v ∈ vs → far_from_expiry t now σ v → deadline v ≠ l) →
          atomic.Load σ' l = atomic.Load σ l).
Proof.
  induction vs as [|v vs IH]; intros hs σ Hnd.
  - exists σ. rewrite app_nil_r. split; [done|]. split; [|done].
    intros v Hv. by apply elem_of_nil in Hv.
  - rewrite fmap_cons in Hnd. apply NoDup_cons in Hnd as [Hv Hnd].
    assert (Hfresh : ∀ u, u ∈ vs → deadline u ≠ deadline v).
    { intros u Hu Heq. apply Hv. rewrite <- Heq. by apply list_elem_of_fmap_2. }
    cbn [foldl]. destruct (decide (far_from_expiry t now σ v)) as [Hfar|Hnear].
    + rewrite PullToRefresh_visit_far by done.
      set (σ1 := sqsMessageDeadline.Store σ (deadline v) (time.Add now (timeout t))).
      destruct (IH (hs ++ [v]) σ1 Hnd) as (σ' & Hfold & Hbump & Hkeep).
      assert (Hload : ∀ u, u ∈ vs →
                atomic.Load σ1 (deadline u) = atomic.Load σ (deadline u)).
      { intros u Hu. subst σ1. unfold sqsMessageDeadline.Store.
        apply atomic_Load_Store_ne. intros Heq. by apply (Hfresh u). }
      assert (Hfilter : filter (far_from_expiry t now σ1) vs
                        = filter (far_from_expiry t now σ) vs).
      { apply filter_agree. intros u Hu.
        exact (far_from_expiry_agree t now σ σ1 u (Hload u Hu)). }
      exists σ'. rewrite Hfold, Hfilter, filter_cons_True, <- app_assoc by done.
      split; [done|]. split.
      * intros u [->|Hu]%elem_of_cons Hu_far.
        -- rewrite Hkeep.
           ++ subst σ1. unfold sqsMessageDeadline.Store. apply atomic_Load_Store.
           ++ intros u Hu _. by apply Hfresh.
        -- apply Hbump; [done|].
           by apply (far_from_expiry_agree t now σ σ1 u (Hload u Hu)).
      * intros l Hl. rewrite Hkeep.
        -- subst σ1. unfold sqsMessageDeadline.Store. apply atomic_Load_Store_ne.
           apply Hl; [by left|done].
        -- intros u Hu Hu_far. apply Hl; [by right|].
           by apply (far_from_expiry_agree t now σ σ1 u (Hload u Hu)).
    + rewrite PullToRefresh_visit_near by done.
      destruct (IH hs σ Hnd) as (σ' & Hfold & Hbump & Hkeep).
      exists σ'. rewrite Hfold, filter_cons_False by done.
      split; [done|]. split.
      * intros u [->|Hu]%elem_of_cons Hu_far; [done|]. by apply Hbump.
      * intros l Hl. apply Hkeep. intros u Hu Hu_far. apply Hl; [by right|done].
Qed.

(** X16.  What [PullToRefresh] does, for every tracker and every clock
    reading: it returns the handles that still have at least half the
    timeout left, and moves their deadlines; the handles with less than half
    the timeout left are not returned and keep their deadlines. *)
Lemma PullToRefresh_takes_far_from_expiry t now σ :
  cells_distinct t →
  let '(hs, σ') := PullToRefresh t now σ in
  (∀ v, v ∈ hs ↔ (∃ k, handles t !! k = Some v) ∧ far_from_expiry t now σ v) ∧
  (∀ v, v ∈ hs →
        atomic.Load σ' (deadline v) = time.Unix_of (time.Add now (timeout t))) ∧
  (∀ k v, handles t !! k = Some v → v ∉ hs →
          atomic.Load σ' (deadline v) = atomic.Load σ (deadline v)).
Proof.
  intros Hdist. unfold PullToRefresh.
  set (vs := (map_to_list (handles t)).*2).
  assert (Hin : ∀ v, v ∈ vs ↔ ∃ k, handles t !! k = Some v).
  { intros v. subst vs. rewrite list_elem_of_fmap. split.
    - intros ([k v'] & -> & Hkv). exists k. by apply elem_of_map_to_list.
    - intros [k Hk]. exists (k, v). split; [done|]. by apply elem_of_map_to_list. }
  assert (Hnd : NoDup (deadline <$> vs)).
  { subst vs. rewrite <- list_fmap_compose. apply NoDup_fmap_2_strong.
    - intros [k1 v1] [k2 v2] H1%elem_of_map_to_list H2%elem_of_map_to_list Heq.
      simpl in Heq. assert (k1 = k2) as -> by eauto using Hdist. congruence.
    - apply NoDup_map_to_list. }
  destruct (PullToRefresh_visits t now vs [] σ Hnd) as (σ' & -> & Hbump & Hkeep).
  simpl. split; [|split].
  - intros v. rewrite list_elem_of_filter, Hin. tauto.
  - intros v [Hfar Hv]%list_elem_of_filter. by apply Hbump.
  - intros k v Hk Hnot. apply Hkeep. intros u Hu Hu_far Heq.
    apply Hnot, list_elem_of_filter.
    apply Hin in Hu as [k' Hk'].
    assert (k' = k) as -> by eauto using Hdist.
    assert (u = v) as -> by congruence. split; [done|]. by apply Hin; eauto.
Qed.

(** C1.  [PullToRefresh] on the two handles returns the fresh one, not the
    one about to expire, and the deadline of the latter stays where it was:
    the comparison in the loop is the wrong way round. *)
Theorem PullToRefresh_skips_near_expiry :
  let now := time.Unix 1000 0 in
  let '(hs, σ') := PullToRefresh two_tracked now two_deadlines in
  time.Sub (sqsMessageDeadline.Load two_deadlines (deadline stale)) now
    < timeout two_tracked `quot` 2 ∧
  ¬ time.Sub (sqsMessageDeadline.Load two_deadlines (deadline fresh)) now
    < timeout two_tracked `quot` 2 ∧
  hs = [fresh] ∧
  atomic.Load σ' (deadline stale) = 1005 ∧
  atomic.Load σ' (deadline fresh) = 1030.
Proof. vm_compute. repeat split; congruence. Qed.

(** ** Occupancy of the tracker *)

Lemma AddNew_insert_size messages : ∀ m : gmap string sqsMessageHandle,
  (size (AddNew_insert messages m) ≤ size m + length messages)%nat.
Proof.
  induction messages as [|msg messages IH]; intros m; simpl; [lia|].
  destruct (handle msg) as [h|].
  - etrans; [apply IH|]. rewrite map_size_insert.
    destruct (m !! id h); simpl; lia.
  - etrans; [apply IH|]. lia.
Qed.

Lemma reachable_limit conf t :
  reachable conf t → limit t = MaxOutstanding conf.
Proof.
  induction 1 as [|t op _ IH _]; [done|].
  destruct op; simpl; try done.
  unfold AddNew_tracker, AddNew. repeat case_match; simplify_eq; done.
Qed.

Lemma Size_nonneg t : 0 ≤ Size t.
Proof. unfold Size. lia. Qed.

Lemma Remove_Size i t : Size (Remove i t) ≤ Size t.
Proof.
  unfold Size, Remove. simpl. rewrite map_size_delete.
  destruct (handles t !! i); simpl; lia.
Qed.

(** C3, as the code has it.  For a configuration whose bound
    [MaxOutstanding + MaxNumberOfMessages] is not negative, every state the
    tracker reaches through batches of at most [MaxNumberOfMessages]
    messages holds at most that many handles.  And in every state: [AddNew]
    inserts only when the size it finds is below the limit, and with the
    tracker at its limit and the context cancelled it returns without
    inserting. *)
Theorem bounded_occupancy (conf : sqsiConfig) :
  0 ≤ MaxOutstanding conf + MaxNumberOfMessages conf →
  (∀ t, reachable conf t →
        Size t ≤ MaxOutstanding conf + MaxNumberOfMessages conf) ∧
  (∀ ctx messages t t',
     AddNew ctx messages t = Inserted t' →
     Size t < limit t ∧ t' = with_handles t (AddNew_insert messages (handles t))) ∧
  (∀ ctx messages t,
     limit t ≤ Size t → Err ctx ≠ None →
     AddNew ctx messages t = ReturnedEarly ∧ AddNew_tracker ctx messages t = t).
Proof.
  intros Hbound. split; [|split].
  - induction 1 as [|t op Hreach IH Hop].
    + unfold Size. simpl. rewrite map_size_empty. lia.
    + pose proof (reachable_limit _ _ Hreach) as Hlimit.
      destruct op as [ctx messages|i| | |]; simpl in *; try done.
      * (* AddNew *)
        unfold AddNew_tracker, AddNew.
        case_bool_decide as Hfull; [by repeat case_match|].
        unfold Size in *. simpl.
        pose proof (AddNew_insert_size messages (handles t)). lia.
      * (* Remove; Clear empties the map *)
        etrans; [apply Remove_Size|done].
  - intros ctx messages t t' Hadd. unfold AddNew in Hadd.
    case_bool_decide; [by repeat case_match|].
    split; [lia|congruence].
  - intros ctx messages t Hfull Hctx. unfold AddNew_tracker, AddNew.
    rewrite bool_decide_eq_true_2 by done.
    by destruct (Err ctx).
Qed.

(** The three parts at work: one message registered with the defaults; the
    insertion into the empty tracker; a call with a cancelled context on a
    tracker at its limit. *)
Lemma bounded_occupancy_witness :
  Size (trackerOp_run (OpAddNew Background [one_message]) (newTracker default_conf))
  ≤ MaxOutstanding default_conf + MaxNumberOfMessages default_conf ∧
  Size (newTracker default_conf) < limit (newTracker default_conf) ∧
  AddNew cancelled [one_message] full_tracker = ReturnedEarly.
Proof.
  assert (Hbound : 0 ≤ MaxOutstanding default_conf + MaxNumberOfMessages default_conf)
    by (vm_compute; discriminate).
  destruct (bounded_occupancy default_conf Hbound) as (Hsize & Hinsert & Hcancel).
  split; [|split].
  - apply Hsize. apply reachable_op; [apply reachable_new|].
    vm_compute. discriminate.
  - eapply (Hinsert Background [one_message] (newTracker default_conf)). reflexivity.
  - apply (Hcancel cancelled [one_message] full_tracker).
    + vm_compute. discriminate.
    + discriminate.
Defined.

(** The bound as the specification words it, for every configuration, does
    not hold: the configuration is not validated, and with
    [max_outstanding_messages: -20] the bound is negative while the tracker
    is empty. *)
Lemma bounded_occupancy_negative_limit :
  ¬ (∀ conf t, reachable conf t →
               Size t ≤ MaxOutstanding conf + MaxNumberOfMessages conf).
Proof.
  intros Hclaim.
  specialize (Hclaim {| URL := "https://sqs.example/queue"; WaitTimeSeconds := 0;
                        DeleteMessage := true; ResetVisibility := true;
                        MaxNumberOfMessages := 10; MaxOutstanding := -20;
                        MessageTimeout := 30 * time.Second |}
                     _ (reachable_new _)).
  vm_compute in Hclaim. by apply Hclaim.
Qed.

(** ** [Read] *)

(** The nil handle never reaches the queue: the closure returns nil at
    once, whatever the context, the result and the state. *)
Lemma ackFn_nil_handle a rctx res sel w :
  ackFn a None rctx res sel w = Val (None, None) w.
Proof. done. Qed.

(** C5, as the code has it.  An error returned by [Read] is NOT_CONNECTED
    with the client missing, END_OF_INPUT with the soft stop fired or the
    channel closed, the error of the caller's context with that context
    done, or -- the fourth case -- [context.Canceled] for a message that
    arrived without a body, whatever the state of the caller's context. *)
Theorem Read_errors a ctx sel msg ack err :
  readSelect_ready a ctx sel = true →
  Read a ctx sel = ReadReturns msg ack (Some err) →
  (err = ErrNotConnected ∧ sqs a = None) ∨
  (err = ErrEndOfInput ∧
     (sel = readSoftStop ∧ softStop a = true ∨ ∃ next, sel = messagesChan next false)) ∨
  (Err ctx = Some err ∧ sel = ctxDone) ∨
  (err = Canceled ∧
     ∃ next, sel = messagesChan next true ∧ types.Body (Message next) = None).
Proof.
  unfold Read, readSelect_ready. intros Hready Hread.
  destruct (sqs a) as [api|]; [|left; split; congruence].
  right. destruct sel as [next [|]| |]; simpl in *.
  - destruct (types.Body (Message next)) as [body|] eqn:Hbody.
    + destruct (addSQSMetadata _ _); discriminate.
    + right; right. split; [congruence|eauto].
  - left. split; [congruence|eauto].
  - left. split; [congruence|eauto].
  - right; left. split; [congruence|done].
Qed.

Lemma Read_errors_witness :
  (Canceled = ErrNotConnected ∧ sqs connected = None) ∨
  (Canceled = ErrEndOfInput ∧
     (messagesChan no_body true = readSoftStop ∧ softStop connected = true
      ∨ ∃ next, messagesChan no_body true = messagesChan next false)) ∨
  (Err Background = Some Canceled ∧ messagesChan no_body true = ctxDone) ∨
  (Canceled = Canceled ∧
     ∃ next, messagesChan no_body true = messagesChan next true
             ∧ types.Body (Message next) = None).
Proof.
  apply (Read_errors connected Background (messagesChan no_body true) None None);
    reflexivity.
Defined.

(** The list of three is not complete, even read as a list of values only:
    a connected reader whose caller's context is not done, with no soft stop
    and the channel open, returns [context.Canceled] for a message without a
    body. *)
Lemma Read_cancelled_without_body :
  ¬ (∀ a ctx sel msg ack err,
       readSelect_ready a ctx sel = true →
       Read a ctx sel = ReadReturns msg ack (Some err) →
       err = ErrNotConnected ∨ err = ErrEndOfInput ∨ Err ctx = Some err).
Proof.
  intros Hclaim.
  destruct (Hclaim connected Background (messagesChan no_body true)
              None None Canceled eq_refl eq_refl)
    as [?|[?|?]]; discriminate.
Qed.

(** A message with a body, an id and a receipt handle is returned, with its
    metadata, and with a closure over its handle; over no handle the closure
    does nothing. *)
Lemma Read_delivers a api ctx next body i r :
  sqs a = Some api →
  types.Body (Message next) = Some body →
  types.MessageId (Message next) = Some i →
  types.ReceiptHandle (Message next) = Some r →
  ∃ msg, Read a ctx (messagesChan next true)
         = ReadReturns (Some msg) (Some (ackFn a (handle next))) None
         ∧ service.content msg = body.
Proof.
  intros Hsqs Hbody Hid Hr. unfold Read, addSQSMetadata.
  rewrite Hsqs, Hbody, Hid, Hr. eexists. split; [done|].
  apply (map_fold_weak_ind (λ p _, service.content p = body)).
  - by destruct (types.Attributes (Message next) !! _).
  - intros k v m p _ IH. by destruct (types.StringValue v).
Qed.

(** C6.  A message that [readLoop] wrapped with its id or its receipt handle
    missing has no handle, and with a body present [Read] does not return
    it: [addSQSMetadata] dereferences the missing field and panics. *)
Theorem Read_panics_without_ack_metadata a api ctx now l σ msg body :
  sqs a = Some api →
  types.Body msg = Some body →
  types.MessageId msg = None ∨ types.ReceiptHandle msg = None →
  let next := (pendingMsg a now l msg σ).1 in
  handle next = None ∧ Read a ctx (messagesChan next true) = ReadPanics.
Proof.
  intros Hsqs Hbody Hmissing. unfold pendingMsg, Read. rewrite Hsqs.
  destruct (types.MessageId msg) as [i|] eqn:Hid,
           (types.ReceiptHandle msg) as [r|] eqn:Hr;
    [by destruct Hmissing| | |];
    simpl; rewrite Hbody; unfold addSQSMetadata; rewrite ?Hid, ?Hr; done.
Qed.

Lemma Read_panics_without_ack_metadata_witness :
  let next := (pendingMsg connected 0 0%nat no_receipt ∅).1 in
  handle next = None ∧ Read connected Background (messagesChan next true) = ReadPanics.
Proof.
  apply (Read_panics_without_ack_metadata connected quiet_api Background
           0 0%nat ∅ no_receipt "hello"); [reflexivity|reflexivity|by right].
Defined.

(** ** Reasoning about computations *)

(** ** [deleteMessages] *)

Lemma batches_for_step n : (1 ≤ n)%nat → batches_for n = S (batches_for (n - 10)).
Proof.
  intros Hn. unfold batches_for.
  destruct (decide (n ≤ 10)%nat) as [Hle|Hgt].
  - replace (n - 10)%nat with 0%nat by lia.
    change ((0 + 9) / 10)%nat with 0%nat.
    symmetry. apply (Nat.div_unique _ _ _ (n - 1)%nat); lia.
  - replace (n + 9)%nat with (1 * 10 + (n - 10 + 9))%nat by lia.
    rewrite Nat.div_add_l by lia. lia.
Qed.

(** The inner loop fills the batch up to ten entries from the front of the
    slice. *)
Lemma deleteMessages_entries_spec msgs : ∀ Entries,
  (length Entries < maxBatchSize)%nat →
  deleteMessages_entries msgs Entries
  = Entries ++ (deleteEntry <$> take (maxBatchSize - length Entries) msgs).
Proof.
  induction msgs as [|msg msgs IH]; intros Entries Hlen; simpl.
  - by rewrite take_nil, app_nil_r.
  - rewrite length_app. simpl. case_bool_decide as Hfull.
    + replace (maxBatchSize - length Entries)%nat with 1%nat by lia.
      by rewrite firstn_cons, take_0.
    + rewrite IH by (rewrite length_app; simpl; lia).
      rewrite length_app. simpl.
      replace (maxBatchSize - length Entries)%nat
        with (S (maxBatchSize - (length Entries + 1)))%nat by lia.
      by rewrite firstn_cons, fmap_cons, <- app_assoc.
Qed.

Lemma deleteMessages_first_batch msgs :
  deleteMessages_entries msgs [] = deleteEntry <$> take maxBatchSize msgs.
Proof. by rewrite deleteMessages_entries_spec by (simpl; unfold maxBatchSize; lia). Qed.

(** What a run of the outer loop issues and returns, given a client and
    enough fuel: the loop ends by itself, never panics, leaves the store and
    the tracker alone, and issues the ten-entry slices of the list in order,
    up to the first call the client fails. *)
Lemma deleteMessages_loop_spec a api ctx : ∀ fuel msgs w,
  sqs a = Some api →
  (length msgs ≤ fuel)%nat →
  ∃ batches res w',
    deleteMessages_loop a fuel ctx msgs w = Val res w' ∧
    store w' = store w ∧ inFlight w' = inFlight w ∧
    rpcs w' = rpcs w ++ (DeleteMessageBatchInput <$> batches) ∧
    Forall (λ b, 0 < length b ≤ maxBatchSize)%nat batches ∧
    (length batches ≤ batches_for (length msgs))%nat ∧
    (∃ m, concat batches = deleteEntry <$> take m msgs) ∧
    match res with
    | None =>
        concat batches = deleteEntry <$> msgs ∧
        length batches = batches_for (length msgs)
    | Some err =>
        ∃ before b, batches = before ++ [b] ∧
          DeleteMessageBatch api (rpcs w ++ (DeleteMessageBatchInput <$> before)) ctx b
          = RpcErr err
    end ∧
    ((∀ sofar c es err, DeleteMessageBatch api sofar c es ≠ RpcErr err) →
     res = None) ∧
    (∀ i b, batches !! i = Some b →
            b = deleteEntry <$> take maxBatchSize (drop (maxBatchSize * i) msgs)) ∧
    (∀ i b, batches !! i = Some b →
            (S i < length batches)%nat ∨ res = None →
            ∃ rejected,
              DeleteMessageBatch api
                (rpcs w ++ (DeleteMessageBatchInput <$> take i batches)) ctx b
              = RpcOk rejected).
Proof.
  induction fuel as [|fuel IH]; intros msgs w Hsqs Hfuel.
  - destruct msgs; [|simpl in Hfuel; lia].
    exists [], None, w. simpl. rewrite app_nil_r.
    repeat split; try done. by exists 0%nat.
  - destruct msgs as [|msg msgs'].
    { exists [], None, w. simpl. rewrite app_nil_r.
      repeat split; try done. by exists 0%nat. }
    cbn [deleteMessages_loop].
    remember (msg :: msgs') as msgs eqn:Hmsgs.
    assert (Hn : (1 ≤ length msgs)%nat) by (subst msgs; simpl; lia).
    clear Hmsgs msg msgs'.
    rewrite deleteMessages_first_batch.
    set (Entries := deleteEntry <$> take maxBatchSize msgs).
    assert (HlenE : length Entries = (maxBatchSize `min` length msgs)%nat).
    { subst Entries. by rewrite length_fmap, length_take. }
    assert (Hdrop : drop (length Entries) msgs = drop maxBatchSize msgs).
    { rewrite HlenE. destruct (decide (maxBatchSize ≤ length msgs)%nat).
      - by rewrite Nat.min_l by done.
      - rewrite Nat.min_r by lia. rewrite drop_all. symmetry. apply drop_ge. lia. }
    rewrite Hdrop.
    unfold call_DeleteMessageBatch. rewrite Hsqs. unfold_M. cbv beta.
    set (w1 := {| rpcs := rpcs w ++ [DeleteMessageBatchInput Entries];
                  store := store w; inFlight := inFlight w |}).
    assert (HboundE : (0 < length Entries ≤ maxBatchSize)%nat).
    { rewrite HlenE. unfold maxBatchSize. lia. }
    destruct (DeleteMessageBatch api (rpcs w) ctx Entries) as [err|rejected] eqn:Hans.
    + exists [Entries], (Some err), w1.
      split; [done|]. split; [done|]. split; [done|]. split; [done|].
      split; [by apply Forall_singleton|]. split.
      { rewrite batches_for_step by done. simpl. lia. }
      split.
      { exists maxBatchSize. simpl. by rewrite app_nil_r. }
      split; [exists [], Entries; simpl; by rewrite app_nil_r|].
      split; [intros Hnever; by destruct (Hnever _ _ _ _ Hans)|].
      split.
      * intros [|i] b Hb; simpl in Hb; [|done]. injection Hb as <-.
        by rewrite Nat.mul_0_r, drop_0.
      * intros [|i] b Hb [Hlt|Hnone]; simpl in *; try done; lia.
    + destruct (IH (drop maxBatchSize msgs) w1 Hsqs)
        as (batches & res & w' & Hrun & Hstore & Htracker & Hlog & Hsizes
            & Hcount & [m Hcover] & Hres & Hnever & Hslices & Hanswers).
      { rewrite length_drop. unfold maxBatchSize. simpl in Hfuel |- *. lia. }
      exists (Entries :: batches), res, w'.
      assert (Hstep : batches_for (length msgs)
                      = S (batches_for (length (drop maxBatchSize msgs)))).
      { rewrite length_drop. by apply batches_for_step. }
      split; [done|]. split; [done|]. split; [done|]. split.
      { rewrite Hlog. simpl. by rewrite <- app_assoc. }
      split; [by constructor|]. split; [simpl; lia|]. split.
      { exists (maxBatchSize + m)%nat. simpl. rewrite Hcover.
        subst Entries. by rewrite <- fmap_app, take_take_drop. }
      split.
      { destruct res as [err|].
        * destruct Hres as (before & b & -> & Hans').
          exists (Entries :: before), b. split; [done|].
          rewrite <- Hans'. simpl. by rewrite <- app_assoc.
        * destruct Hres as [Hall Hlen]. split.
          -- simpl. rewrite Hall. subst Entries.
             by rewrite <- fmap_app, take_drop.
          -- simpl. lia. }
      split; [done|]. split.
      * intros [|i] b Hb; simpl in Hb.
        -- injection Hb as <-. by rewrite Nat.mul_0_r, drop_0.
        -- rewrite (Hslices i b Hb), drop_drop. do 3 f_equal. lia.
      * intros [|i] b Hb Hcase; simpl in Hb.
        -- injection Hb as <-. exists rejected. simpl. by rewrite app_nil_r.
        -- destruct (Hanswers i b Hb) as [rejected' Hok].
           { destruct Hcase as [Hlt|Hnone]; [left; simpl in Hlt; lia|by right]. }
           exists rejected'. rewrite <- Hok. simpl. by rewrite <- app_assoc.
Qed.

(** Without a client the first call panics and nothing is issued. *)
Lemma deleteMessages_loop_nil_client a ctx fuel msgs w :
  sqs a = None →
  rpcs (final (deleteMessages_loop a fuel ctx msgs w)) = rpcs w.
Proof.
  intros Hsqs. destruct msgs, fuel; try done.
  cbn [deleteMessages_loop]. unfold call_DeleteMessageBatch. by rewrite Hsqs.
Qed.

Lemma elem_of_concat {A} (x : A) (ls : list (list A)) :
  x ∈ concat ls ↔ ∃ l, x ∈ l ∧ l ∈ ls.
Proof.
  rewrite list_elem_of_In, in_concat. split.
  - intros (l & Hl & Hx). exists l. by rewrite !list_elem_of_In.
  - intros (l & Hx & Hl). exists l. by rewrite <- !list_elem_of_In.
Qed.

(** Whatever the reader, every entry [deleteMessages] puts on the wire is
    the entry of one of the handles it was given. *)
Lemma deleteMessages_issues a ctx msgs w :
  ∃ batches,
    rpcs (final (deleteMessages a ctx msgs w))
    = rpcs w ++ (DeleteMessageBatchInput <$> batches) ∧
    Forall (λ b, ∀ e, e ∈ b → ∃ msg, msg ∈ msgs ∧ e = deleteEntry msg) batches.
Proof.
  unfold deleteMessages. destruct (DeleteMessage (conf a)); simpl.
  - destruct (sqs a) as [api|] eqn:Hsqs.
    + destruct (deleteMessages_loop_spec a api ctx (length msgs) msgs w Hsqs)
        as (batches & res & w' & -> & _ & _ & Hlog & _ & _ & [m Hcover] & _);
        [done|].
      exists batches. split; [done|].
      apply Forall_forall. intros b Hb e He.
      assert (Hin : e ∈ concat batches) by (apply elem_of_concat; eauto).
      rewrite Hcover in Hin. apply list_elem_of_fmap in Hin as (msg & -> & Hmsg).
      exists msg. split; [|done]. eapply subseteq_take, Hmsg.
    + exists []. rewrite deleteMessages_loop_nil_client by done.
      simpl. by rewrite app_nil_r.
  - exists []. simpl. by rewrite app_nil_r.
Qed.

(** C8, as the code has it.  With [DeleteMessage] off nothing is issued and
    nil is returned.  With it on, the i-th call issued carries the i-th
    ten-entry slice of the list; every call before the last was answered
    without an error, so the loop stops at the first call the client fails,
    and it returns that error; when it returns nil no call failed, and the
    [ceil(n/10)] calls cover all [n] handles. *)
Theorem deleteMessages_batches a api ctx msgs w :
  sqs a = Some api →
  if DeleteMessage (conf a) then
    ∃ batches res w',
      deleteMessages a ctx msgs w = Val res w' ∧
      rpcs w' = rpcs w ++ (DeleteMessageBatchInput <$> batches) ∧
      Forall (λ b, 0 < length b ≤ 10)%nat batches ∧
      (length batches ≤ batches_for (length msgs))%nat ∧
      (∃ m, concat batches = deleteEntry <$> take m msgs) ∧
      (∀ i b, batches !! i = Some b →
              b = deleteEntry <$> take 10 (drop (10 * i) msgs)) ∧
      (∀ i b, batches !! i = Some b → (S i < length batches)%nat →
              ∃ rejected,
                DeleteMessageBatch api
                  (rpcs w ++ (DeleteMessageBatchInput <$> take i batches)) ctx b
                = RpcOk rejected) ∧
      match res with
      | None =>
          concat batches = deleteEntry <$> msgs ∧
          length batches = batches_for (length msgs) ∧
          ∀ i b, batches !! i = Some b →
                 ∃ rejected,
                   DeleteMessageBatch api
                     (rpcs w ++ (DeleteMessageBatchInput <$> take i batches)) ctx b
                   = RpcOk rejected
      | Some err =>
          ∃ before b, batches = before ++ [b] ∧
            DeleteMessageBatch api
              (rpcs w ++ (DeleteMessageBatchInput <$> before)) ctx b
            = RpcErr err
      end ∧
      ((∀ sofar c es err, DeleteMessageBatch api sofar c es ≠ RpcErr err) →
       res = None)
  else deleteMessages a ctx msgs w = Val None w.
Proof.
  intros Hsqs. unfold deleteMessages.
  destruct (DeleteMessage (conf a)); simpl; [|done].
  destruct (deleteMessages_loop_spec a api ctx (length msgs) msgs w Hsqs)
    as (batches & res & w' & Hrun & _ & _ & Hlog & Hsizes & Hcount & Hcover
        & Hres & Hnever & Hslices & Hanswers); [done|].
  exists batches, res, w'. repeat (split; [done|]).
  split; [intros i b Hb Hlt; apply (Hanswers i b Hb); by left|].
  split; [|done].
  destruct res as [err|]; [done|]. destruct Hres as [Hall Hlen].
  split; [done|]. split; [done|].
  intros i b Hb. apply (Hanswers i b Hb). by right.
Qed.

(** Eleven handles.  Against a client that accepts every call: two calls
    that cover them all, and nil.  Against a client that fails every call:
    the first ten-entry slice alone, and the error of that call. *)
Lemma deleteMessages_batches_witness :
  (∃ batches w',
     deleteMessages connected Background eleven empty_world = Val None w' ∧
     rpcs w' = DeleteMessageBatchInput <$> batches ∧
     concat batches = deleteEntry <$> eleven ∧
     length batches = 2%nat) ∧
  (∃ w',
     deleteMessages unreachable_queue Background eleven empty_world
     = Val (Some (ErrOther "ServiceUnavailable")) w' ∧
     rpcs w' = [DeleteMessageBatchInput (deleteEntry <$> take 10 eleven)]).
Proof.
  split.
  - pose proof (deleteMessages_batches connected quiet_api Background eleven
                  empty_world eq_refl) as Hspec.
    simpl in Hspec.
    destruct Hspec as (batches & res & w' & Hrun & Hlog & _ & _ & _ & _ & _
                       & Hres & Hnever).
    rewrite (Hnever ltac:(done)) in Hrun, Hres.
    destruct Hres as (Hall & Hlen & _).
    exists batches, w'. repeat split; done.
  - pose proof (deleteMessages_batches unreachable_queue failing_api Background
                  eleven empty_world eq_refl) as Hspec.
    simpl in Hspec.
    destruct Hspec as (batches & res & w' & Hrun & Hlog & _ & _ & _ & Hslices
                       & Hbefore & Hres & _).
    destruct res as [err|].
    + destruct Hres as (before & b & -> & Hans). injection Hans as <-.
      destruct before as [|b0 before].
      * exists w'. split; [done|]. rewrite Hlog. simpl.
        by rewrite (Hslices 0%nat b eq_refl).
      * destruct (Hbefore 0%nat b0 eq_refl) as [rejected Hok]; [|done].
        simpl. rewrite length_app. simpl. lia.
    + destruct Hres as (_ & Hlen & Hok).
      destruct batches as [|b0 batches]; [done|].
      by destruct (Hok 0%nat b0 eq_refl).
Defined.

(** Eleven handles against a client that fails: one call with the first ten
    entries, and the error comes back. *)
Example deleteMessages_unreachable_queue :
  deleteMessages unreachable_queue Background eleven empty_world
  = Val (Some (ErrOther "ServiceUnavailable"))
        {| rpcs := [DeleteMessageBatchInput (deleteEntry <$> take 10 eleven)];
           store := store empty_world; inFlight := inFlight empty_world |}.
Proof. vm_compute. reflexivity. Qed.

(** The count [ceil(n/10)] does not hold for every client: when the first
    call fails, [deleteMessages] returns the error and the eleventh handle
    is never sent. *)
Lemma deleteMessages_stops_at_error :
  ¬ (∀ a api ctx msgs w,
       sqs a = Some api → DeleteMessage (conf a) = true →
       ∃ batches,
         rpcs (final (deleteMessages a ctx msgs w))
         = rpcs w ++ (DeleteMessageBatchInput <$> batches) ∧
         length batches = batches_for (length msgs) ∧
         Forall (λ b, length b ≤ 10)%nat batches ∧
         concat batches = deleteEntry <$> msgs).
Proof.
  intros Hclaim.
  destruct (Hclaim unreachable_queue failing_api Background eleven empty_world
              eq_refl eq_refl) as (batches & Hlog & Hlen & _).
  vm_compute in Hlog, Hlen.
  destruct batches as [|b1 [|b2 batches]]; simpl in *; discriminate.
Qed.

(** ** [updateVisibilityMessages] *)

(** The inner loop consumes a non-empty prefix of the slice and adds the
    entries of its live handles, in order, to the batch. *)
Lemma updateVisibility_entries_spec σ timeout msgs : ∀ b,
  ∃ k, (k ≤ length msgs)%nat ∧ (msgs ≠ [] → 1 ≤ k)%nat ∧
    updateVisibility_entries σ timeout msgs b
    = {| vb_Entries := vb_Entries b
                       ++ (visibilityEntry timeout <$> filter (live σ) (take k msgs));
         vb_sent := vb_sent b ++ filter (live σ) (take k msgs);
         vb_consumed := vb_consumed b + k |}.
Proof.
  induction msgs as [|msg msgs IH]; intros b.
  - exists 0%nat. simpl. rewrite !app_nil_r, Nat.add_0_r.
    split; [done|]. split; [done|]. by destruct b.
  - cbn [updateVisibility_entries].
    destruct (sqsMessageDeadline.IsDeleted σ (deadline msg)) eqn:Hdel.
    + destruct (IH {| vb_Entries := vb_Entries b; vb_sent := vb_sent b;
                      vb_consumed := S (vb_consumed b) |}) as (k & Hk & _ & ->).
      exists (S k). simpl. split; [lia|]. split; [lia|].
      rewrite filter_cons_False by (unfold live; congruence).
      f_equal. lia.
    + case_bool_decide as Hfull.
      * exists 1%nat. simpl. split; [lia|]. split; [lia|].
        rewrite take_0, filter_cons_True, filter_nil by done.
        f_equal. lia.
      * destruct (IH {| vb_Entries := vb_Entries b ++ [visibilityEntry timeout msg];
                        vb_sent := vb_sent b ++ [msg];
                        vb_consumed := S (vb_consumed b) |}) as (k & Hk & _ & ->).
        exists (S k). simpl. split; [lia|]. split; [lia|].
        rewrite filter_cons_True by done.
        rewrite fmap_cons, <- !app_assoc. simpl. f_equal. lia.
Qed.

(** With every handle deleted the inner loop consumes the whole slice and
    adds nothing. *)
Lemma updateVisibility_entries_all_deleted σ timeout msgs : ∀ b,
  Forall (λ h, sqsMessageDeadline.IsDeleted σ (deadline h) = true) msgs →
  updateVisibility_entries σ timeout msgs b
  = {| vb_Entries := vb_Entries b; vb_sent := vb_sent b;
       vb_consumed := vb_consumed b + length msgs |}.
Proof.
  induction msgs as [|msg msgs IH]; intros b Hall.
  - simpl. rewrite Nat.add_0_r. by destruct b.
  - apply Forall_cons in Hall as [Hmsg Hall].
    cbn [updateVisibility_entries]. rewrite Hmsg, IH by done. simpl.
    f_equal. lia.
Qed.

Lemma Failed_length {A} rejected (entries : list A) : ∀ i,
  (length (Failed rejected i entries) ≤ length entries)%nat.
Proof.
  induction entries as [|e entries IH]; intros i; simpl; [done|].
  destruct (rejected i); simpl; specialize (IH (S i)); lia.
Qed.

(** [sent[i]] stays in range when [Failed] is no longer than [sent]. *)
Lemma updateVisibility_failed_in_range {A} σ sent (failed : list A) : ∀ i,
  (i + length failed ≤ length sent)%nat →
  updateVisibility_failed σ sent i failed = true.
Proof.
  induction failed as [|f failed IH]; intros i Hlen; simpl; [done|].
  simpl in Hlen.
  destruct (lookup_lt_is_Some_2 sent i) as [h ->]; [lia|].
  rewrite IH by lia. by destruct (sqsMessageDeadline.IsDeleted _ _).
Qed.

(** What a run of the outer loop issues, for every reader and every bound
    on the loop: calls that change visibility and nothing else, whose
    entries are, in order, those of the live handles of a prefix of the
    slice; the store and the tracker are left alone. *)
Lemma updateVisibility_loop_log a ctx timeout : ∀ fuel msgs w,
  ∃ batches m,
    rpcs (final (updateVisibility_loop a fuel ctx timeout msgs w))
    = rpcs w ++ (ChangeMessageVisibilityBatchInput <$> batches) ∧
    store (final (updateVisibility_loop a fuel ctx timeout msgs w)) = store w ∧
    inFlight (final (updateVisibility_loop a fuel ctx timeout msgs w)) = inFlight w ∧
    concat batches
    = visibilityEntry timeout <$> filter (live (store w)) (take m msgs).
Proof.
  induction fuel as [|fuel IH]; intros msgs w.
  { exists [], 0%nat. destruct msgs; simpl; by rewrite app_nil_r. }
  destruct msgs as [|msg msgs'].
  { exists [], 0%nat. simpl. by rewrite app_nil_r. }
  cbn [updateVisibility_loop].
  remember (msg :: msgs') as msgs eqn:Hmsgs. clear Hmsgs msg msgs'.
  unfold_M. cbv beta. simpl.
  destruct (updateVisibility_entries_spec (store w) timeout msgs
              {| vb_Entries := []; vb_sent := []; vb_consumed := 0 |})
    as (k & Hk & _ & ->). simpl.
  set (Entries := visibilityEntry timeout <$> filter (live (store w)) (take k msgs)).
  unfold call_ChangeMessageVisibilityBatch.
  destruct (sqs a) as [api|].
  2:{ exists [], 0%nat. simpl. by rewrite app_nil_r. }
  unfold_M. cbv beta. simpl.
  set (w1 := {| rpcs := rpcs w ++ [ChangeMessageVisibilityBatchInput Entries];
                store := store w; inFlight := inFlight w |}).
  assert (Hone : ∃ batches m,
             rpcs w1 = rpcs w ++ (ChangeMessageVisibilityBatchInput <$> batches) ∧
             concat batches
             = visibilityEntry timeout <$> filter (live (store w)) (take m msgs)).
  { exists [Entries], k. simpl. by rewrite app_nil_r. }
  destruct (ChangeMessageVisibilityBatch api (rpcs w) ctx Entries) as [err|rejected].
  { destruct Hone as (batches & m & ? & ?). by exists batches, m. }
  destruct (updateVisibility_failed _ _ _ _).
  2:{ destruct Hone as (batches & m & ? & ?). by exists batches, m. }
  destruct (IH (drop k msgs) w1) as (batches & m & Hlog & Hstore & Htracker & Hcover).
  exists (Entries :: batches), (k + m)%nat.
  rewrite Hlog, Hstore, Htracker. simpl.
  split; [by rewrite <- app_assoc|]. split; [done|]. split; [done|].
  rewrite Hcover. subst Entries. simpl.
  by rewrite <- fmap_app, <- filter_app, take_take_drop.
Qed.

(** With a client and the slice length as bound, the loop ends by itself
    and does not panic: the index into [sent] is always in range. *)
Lemma updateVisibility_loop_returns a api ctx timeout : ∀ fuel msgs w,
  sqs a = Some api → (length msgs ≤ fuel)%nat →
  ∃ res w', updateVisibility_loop a fuel ctx timeout msgs w = Val res w'.
Proof.
  induction fuel as [|fuel IH]; intros msgs w Hsqs Hfuel.
  { destruct msgs; [by eexists _, _|simpl in Hfuel; lia]. }
  destruct msgs as [|msg msgs'].
  { by eexists _, _. }
  cbn [updateVisibility_loop].
  remember (msg :: msgs') as msgs eqn:Hmsgs.
  assert (Hne : msgs ≠ []) by (by subst msgs). clear Hmsgs msg msgs'.
  unfold_M. cbv beta. simpl.
  destruct (updateVisibility_entries_spec (store w) timeout msgs
              {| vb_Entries := []; vb_sent := []; vb_consumed := 0 |})
    as (k & Hk & Hk1 & ->). simpl. specialize (Hk1 Hne).
  unfold call_ChangeMessageVisibilityBatch. rewrite Hsqs.
  unfold_M. cbv beta. simpl.
  destruct (ChangeMessageVisibilityBatch _ _ _ _) as [err|rejected];
    [by eexists _, _|].
  rewrite updateVisibility_failed_in_range.
  - apply IH; [done|]. rewrite length_drop. lia.
  - etrans; [apply Failed_length|]. by rewrite length_fmap.
Qed.

(** Entries that are, in order, the images of the members of a prefix with a
    property come, each of them, from a member of the list with the
    property. *)
Lemma covered_from {A B} (f : A → B) (P : A → Prop) `{!∀ x, Decision (P x)}
    (batches : list (list B)) (m : nat) (msgs : list A) :
  concat batches = f <$> filter P (take m msgs) →
  Forall (λ Entries, Forall (λ e, ∃ msg, msg ∈ msgs ∧ e = f msg ∧ P msg) Entries)
         batches.
Proof.
  intros Hcover.
  apply Forall_forall. intros Entries HEntries.
  apply Forall_forall. intros e He.
  assert (Hin : e ∈ concat batches) by (apply elem_of_concat; eauto).
  rewrite Hcover in Hin.
  apply list_elem_of_fmap in Hin as (msg & -> & [HP Hmsg]%list_elem_of_filter).
  exists msg. split; [|done]. eapply subseteq_take, Hmsg.
Qed.

(** C7.  The entries [updateVisibilityMessages] issues are, in order, the
    entries of the handles of a prefix of its list that do not read as
    deleted: a handle whose deadline is the deleted marker when it is
    considered is consumed without an entry.  In particular every entry on
    the wire comes from a handle of the list that was not deleted. *)
Theorem updateVisibilityMessages_skips_deleted a ctx timeout msgs w :
  ∃ batches m,
    rpcs (final (updateVisibilityMessages a ctx timeout msgs w))
    = rpcs w ++ (ChangeMessageVisibilityBatchInput <$> batches) ∧
    concat batches
    = visibilityEntry timeout
        <$> filter (λ h, sqsMessageDeadline.IsDeleted (store w) (deadline h) = false)
                   (take m msgs) ∧
    Forall (λ Entries,
              Forall (λ e, ∃ msg, msg ∈ msgs ∧ e = visibilityEntry timeout msg ∧
                           sqsMessageDeadline.IsDeleted (store w) (deadline msg) = false)
                     Entries) batches.
Proof.
  unfold updateVisibilityMessages.
  destruct (updateVisibility_loop_log a ctx timeout (length msgs) msgs w)
    as (batches & m & Hlog & _ & _ & Hcover).
  exists batches, m. split; [exact Hlog|]. split; [exact Hcover|].
  exact (covered_from (visibilityEntry timeout) (live (store w)) batches m msgs Hcover).
Qed.

(** C9.  Called with a non-empty list of handles that all read as deleted,
    [updateVisibilityMessages] still makes one call, with no entries, and
    returns the error of that call, nil when the call succeeds. *)
Theorem updateVisibilityMessages_all_deleted a api ctx timeout msgs w :
  sqs a = Some api →
  msgs ≠ [] →
  Forall (λ h, sqsMessageDeadline.IsDeleted (store w) (deadline h) = true) msgs →
  updateVisibilityMessages a ctx timeout msgs w
  = Val (match ChangeMessageVisibilityBatch api (rpcs w) ctx [] with
         | RpcErr err => Some err
         | RpcOk _ => None
         end)
        {| rpcs := rpcs w ++ [ChangeMessageVisibilityBatchInput []];
           store := store w; inFlight := inFlight w |}.
Proof.
  intros Hsqs Hne Hall. unfold updateVisibilityMessages.
  destruct msgs as [|msg msgs']; [done|].
  cbn [length updateVisibility_loop].
  remember (msg :: msgs') as msgs eqn:Hmsgs.
  unfold_M. cbv beta. simpl.
  rewrite updateVisibility_entries_all_deleted by done. simpl.
  rewrite drop_all.
  unfold call_ChangeMessageVisibilityBatch. rewrite Hsqs.
  unfold_M. cbv beta. simpl.
  destruct (ChangeMessageVisibilityBatch api (rpcs w) ctx []); [done|].
  simpl. by destruct (length msgs').
Qed.

Lemma updateVisibilityMessages_all_deleted_witness :
  updateVisibilityMessages connected Background 30 [fresh] deleted_one
  = Val None {| rpcs := [ChangeMessageVisibilityBatchInput []];
                store := store deleted_one; inFlight := inFlight deleted_one |}.
Proof.
  apply (updateVisibilityMessages_all_deleted connected quiet_api Background 30
           [fresh] deleted_one); [reflexivity|discriminate|].
  repeat constructor.
Defined.

(** ** [ackLoop] *)

Lemma ackLoop_for_app a closeNowCtx evs1 evs2 : ∀ s w,
  ackLoop_for a closeNowCtx s (evs1 ++ evs2) w
  = match ackLoop_for a closeNowCtx s evs1 w with
    | Val (s', false) w' => ackLoop_for a closeNowCtx s' evs2 w'
    | other => other
    end.
Proof.
  induction evs1 as [|ev evs1 IH]; intros s w; [done|].
  simpl. unfold mbind, M_bind.
  by destruct (ackLoop_select a closeNowCtx s ev w) as [[s'|] w'|w'|w'].
Qed.

(** No turn of the loop takes a handle out of a pending slice: a turn
    leaves both slices as they were or adds the received handle at the end.
    Nothing follows a flush that would empty the slice it sent. *)
Lemma ackLoop_select_keeps_pending a ctx s ev w s' w' :
  ackLoop_select a ctx s ev w = Val (Some s') w' →
  pendingAcks s `prefix_of` pendingAcks s' ∧
  pendingNacks s `prefix_of` pendingNacks s'.
Proof.
  intros Hturn. destruct ev as [h|h|run|]; cbn [ackLoop_select] in Hturn;
    unfold_M; cbv beta in Hturn.
  - repeat case_match; simplify_eq; simpl; (split; [by apply prefix_app_r|done]).
  - repeat case_match; simplify_eq; simpl; (split; [done|by apply prefix_app_r]).
  - repeat case_match; simplify_eq; by simpl.
  - done.
Qed.

(** Over an empty tracker the goroutine of a tick changes nothing, whether
    its pass runs or not. *)
Lemma go_refreshCurrentHandles_empty a ctx run w :
  handles (inFlight w) = ∅ →
  go_refreshCurrentHandles a ctx run w = Val () w.
Proof.
  intros Hempty. destruct run as [|now seconds]; [done|].
  unfold go_refreshCurrentHandles, refreshCurrentHandles, PullToRefresh.
  unfold_M. simpl. rewrite Hempty, map_to_list_empty. simpl. by destruct w.
Qed.

Lemma happy_path_acks :
  ackLoop_for connected Background ackLoop_start
    [ackMessagesChan m1; ackMessagesChan m2; ackMessagesChan m3] three_in_flight
  = Val ({| pendingAcks := [m1; m2; m3]; pendingNacks := []; refreshes := 0 |}, false)
        three_acked.
Proof. vm_compute. reflexivity. Qed.

(** No turn of the loop empties [pendingAcks]: every tick sends the three
    acked handles again.  Nothing is tracked any more, so the refresh passes
    find nothing to do. *)
Lemma happy_path_ticks (runs : list refreshRun) : ∀ n w,
  handles (inFlight w) = ∅ →
  ackLoop_for connected Background
    {| pendingAcks := [m1; m2; m3]; pendingNacks := []; refreshes := n |}
    ((flushTimer <$> runs) ++ [SoftStopChan]) w
  = Val ({| pendingAcks := [m1; m2; m3]; pendingNacks := [];
            refreshes := (n + length runs)%nat |}, true)
        {| rpcs := rpcs w ++ replicate (length runs) delete_all_three;
           store := store w; inFlight := inFlight w |}.
Proof.
  induction runs as [|run runs IH]; intros n w Hempty.
  - simpl. unfold_M. rewrite app_nil_r, Nat.add_0_r. by destruct w.
  - cbn [fmap list_fmap app ackLoop_for]. unfold mbind at 1. unfold M_bind at 1.
    assert (Htick :
      ackLoop_select connected Background
        {| pendingAcks := [m1; m2; m3]; pendingNacks := []; refreshes := n |}
        (flushTimer run) w
      = Val (Some {| pendingAcks := [m1; m2; m3]; pendingNacks := [];
                     refreshes := S n |})
            {| rpcs := rpcs w ++ [delete_all_three];
               store := store w; inFlight := inFlight w |}).
    { assert (Hacks : flushFinishedHandles connected Background [m1; m2; m3] true w
                      = Val () {| rpcs := rpcs w ++ [delete_all_three];
                                  store := store w; inFlight := inFlight w |})
        by done.
      assert (Hnacks : ∀ w', flushFinishedHandles connected Background [] false w'
                             = Val () w') by done.
      cbn [ackLoop_select pendingAcks pendingNacks refreshes]. unfold_M.
      rewrite Hacks, Hnacks. by rewrite go_refreshCurrentHandles_empty. }
    rewrite Htick, IH by done. simpl.
    rewrite <- app_assoc. do 3 f_equal. lia.
Qed.

(** C2.  Three messages are acked, the timer ticks once for every entry of
    [runs] -- whatever becomes of the refresh goroutine of each tick --, the
    soft stop arrives.  The loop issues one [DeleteMessageBatch] per tick
    and one on the way out, all identical, each with all three ids.  Only
    without a tick is there exactly one. *)
Theorem ackLoop_happy_path_repeats_delete (runs : list refreshRun) :
  rpcs (final (ackLoop connected Background
                 ([ackMessagesChan m1; ackMessagesChan m2; ackMessagesChan m3]
                  ++ (flushTimer <$> runs) ++ [SoftStopChan])
                 three_in_flight))
  = replicate (S (length runs)) delete_all_three.
Proof.
  unfold ackLoop. unfold mbind at 1. unfold M_bind at 1.
  rewrite ackLoop_for_app, happy_path_acks, happy_path_ticks by done.
  change (rpcs three_acked) with (@nil rpc). rewrite app_nil_l.
  rewrite replicate_S_end. done.
Qed.

(** ** Ack routing *)

Lemma adds_only_nothing {A} P w (r : result A) :
  rpcs (final r) = rpcs w → adds_only P w r.
Proof. intros Hlog. exists []. by rewrite app_nil_r. Qed.

Lemma adds_only_trans {A B} P w (r1 : result A) (r2 : result B) :
  adds_only P w r1 → adds_only P (final r1) r2 → adds_only P w r2.
Proof.
  intros (calls1 & Hlog1 & HP1) (calls2 & Hlog2 & HP2).
  exists (calls1 ++ calls2). split.
  - by rewrite Hlog2, Hlog1, <- app_assoc.
  - by apply Forall_app.
Qed.

Lemma adds_only_bind {A B} P (m : M A) (f : A → M B) w :
  adds_only P w (m w) →
  (∀ x w', m w = Val x w' → adds_only P w' (f x w')) →
  adds_only P w ((m ≫= f) w).
Proof.
  intros Hm Hf. unfold mbind, M_bind.
  destruct (m w) as [x w'|w'|w'] eqn:Hrun.
  - eapply adds_only_trans; [exact Hm|]. by apply Hf.
  - destruct Hm as (calls & Hlog & HP). by exists calls.
  - destruct Hm as (calls & Hlog & HP). by exists calls.
Qed.

Lemma adds_only_mono {A} (P Q : rpc → Prop) w (r : result A) :
  (∀ call, P call → Q call) → adds_only P w r → adds_only Q w r.
Proof.
  intros HPQ (calls & Hlog & HP). exists calls. split; [done|].
  eapply Forall_impl; eauto.
Qed.

Lemma ensures_ret {A} P (Q : A → Prop) x w :
  Q x → ensures P Q w ((mret x : M A) w).
Proof.
  intros HQ. split; [by apply adds_only_nothing|].
  intros x' w' Heq. unfold mret, M_ret in Heq. by simplify_eq.
Qed.

Lemma ensures_bind {A B} P (Q1 : A → Prop) (Q2 : B → Prop)
    (m : M A) (f : A → M B) w :
  ensures P Q1 w (m w) →
  (∀ x w', m w = Val x w' → Q1 x → ensures P Q2 w' (f x w')) →
  ensures P Q2 w ((m ≫= f) w).
Proof.
  intros [Hm HQ1] Hf. split.
  - apply adds_only_bind; [done|]. intros x w' Hrun.
    by apply (Hf x w' Hrun), (HQ1 x w').
  - unfold mbind, M_bind. destruct (m w) as [x w1|w1|w1] eqn:Hrun; [|done..].
    intros y w' Heq. by eapply (Hf x w1 eq_refl (HQ1 x w1 eq_refl)).
Qed.

Lemma ensures_any {A} P w (r : result A) :
  adds_only P w r → ensures P (λ _, True) w r.
Proof. by split. Qed.

Lemma ensures_modify_store P f w : ensures P (λ _, True) w (modify_store f w).
Proof. by apply ensures_any, adds_only_nothing. Qed.

Lemma ensures_modify_tracker P f w : ensures P (λ _, True) w (modify_tracker f w).
Proof. by apply ensures_any, adds_only_nothing. Qed.

(** ** The refresh pass and the log *)

Lemma PullToRefresh_visits_sub t now vs : ∀ hs σ v,
  v ∈ (foldl (PullToRefresh_visit t now) (hs, σ) vs).1 → v ∈ hs ∨ v ∈ vs.
Proof.
  induction vs as [|u vs IH]; intros hs σ v; cbn [foldl]; [by left|].
  unfold PullToRefresh_visit at 2. case_bool_decide.
  - intros [?|?]%IH; [by left|right; by right].
  - intros [[?|Hv%list_elem_of_singleton]%elem_of_app|?]%IH;
      [by left|right; subst; by left|right; by right].
Qed.

(** What [PullToRefresh] returns is tracked. *)
Lemma PullToRefresh_tracked t now σ v :
  v ∈ (PullToRefresh t now σ).1 → ∃ k, handles t !! k = Some v.
Proof.
  unfold PullToRefresh.
  intros [Hv|Hv]%PullToRefresh_visits_sub; [by apply elem_of_nil in Hv|].
  apply list_elem_of_fmap in Hv as ([k v'] & -> & Hkv).
  exists k. by apply elem_of_map_to_list.
Qed.

(** What a refresh pass adds, for every reader: visibility changes for
    tracked handles. *)
Lemma refreshCurrentHandles_log a ctx now seconds w :
  ∃ batches,
    rpcs (final (refreshCurrentHandles a ctx now seconds w))
    = rpcs w ++ (ChangeMessageVisibilityBatchInput <$> batches) ∧
    Forall (λ b, ∀ e, e ∈ b → ∃ k v, handles (inFlight w) !! k = Some v ∧
                                     e = visibilityEntry seconds v) batches.
Proof.
  unfold refreshCurrentHandles. unfold_M. cbv beta. simpl.
  pose proof (PullToRefresh_tracked (inFlight w) now (store w)) as Htracked.
  destruct (PullToRefresh (inFlight w) now (store w)) as [hs σ']. simpl in Htracked.
  case_bool_decide.
  { exists []. simpl. rewrite app_nil_r. split; [done|constructor]. }
  set (w1 := {| rpcs := rpcs w; store := σ'; inFlight := inFlight w |}).
  destruct (updateVisibility_loop_log a ctx seconds (length hs) hs w1)
    as (batches & m & Hlog & _ & _ & Hcover).
  exists batches. split.
  - unfold updateVisibilityMessages.
    destruct (updateVisibility_loop a (length hs) ctx seconds hs w1); exact Hlog.
  - pose proof (covered_from (visibilityEntry seconds) (live (store w1))
                  batches m hs Hcover) as Hfrom.
    eapply Forall_impl; [exact Hfrom|]. intros b Hb e He.
    eapply Forall_forall in Hb as (v & Hv & -> & _); [|exact He].
    destruct (Htracked v Hv) as [k Hk]. eauto.
Qed.

(** The goroutine of a tick adds visibility changes only, for handles the
    tracker holds, with the seconds of its pass. *)
Lemma go_refreshCurrentHandles_refreshed (P : sqsMessageHandle → Prop)
    a ctx run runs w :
  run ∈ runs →
  (∀ v, tracked (inFlight w) v → P v) →
  adds_only (refreshed P runs) w (go_refreshCurrentHandles a ctx run w).
Proof.
  intros Hrun HP. destruct run as [|now seconds]; [by apply adds_only_nothing|].
  unfold go_refreshCurrentHandles.
  destruct (refreshCurrentHandles_log a ctx now seconds w) as (batches & Hlog & Hfrom).
  exists (ChangeMessageVisibilityBatchInput <$> batches). split.
  - unfold mbind, M_bind.
    by destruct (refreshCurrentHandles a ctx now seconds w).
  - apply Forall_fmap. eapply Forall_impl; [exact Hfrom|].
    intros b Hb. exists now, seconds. split; [done|].
    intros e He. destruct (Hb e He) as (k & v & Hv & ->).
    exists v. split; [|done]. apply HP. by exists k.
Qed.

Lemma deleteMessages_routed a ctx evs msgs w :
  Forall (acked evs) msgs →
  adds_only (routed evs) w (deleteMessages a ctx msgs w).
Proof.
  intros Hmsgs.
  destruct (deleteMessages_issues a ctx msgs w) as (batches & Hlog & Hfrom).
  exists (DeleteMessageBatchInput <$> batches). split; [done|].
  apply Forall_fmap. eapply Forall_impl; [exact Hfrom|].
  intros b Hb e He. destruct (Hb e He) as (msg & Hmsg & ->).
  exists msg. split; [|done]. by eapply Forall_forall in Hmsgs.
Qed.

Lemma resetMessages_routed a ctx evs msgs w :
  Forall (nacked evs) msgs →
  adds_only (routed evs) w (resetMessages a ctx msgs w).
Proof.
  intros Hmsgs. unfold resetMessages.
  destruct (ResetVisibility (conf a)); simpl; [|by apply adds_only_nothing].
  destruct (updateVisibility_loop_log a ctx 0 (length msgs) msgs w)
    as (batches & m & Hlog & _ & _ & Hcover).
  pose proof (covered_from (visibilityEntry 0) (live (store w)) batches m msgs Hcover)
    as Hfrom.
  exists (ChangeMessageVisibilityBatchInput <$> batches). split; [done|].
  apply Forall_fmap. eapply Forall_impl; [exact Hfrom|].
  intros b Hb e He. eapply Forall_forall in Hb as (msg & Hmsg & -> & _); [|done].
  exists msg. split; [|done]. by eapply Forall_forall in Hmsgs.
Qed.

Lemma flushFinishedHandles_routed a ctx evs handles (erase : bool) w :
  (if erase then Forall (acked evs) handles else Forall (nacked evs) handles) →
  adds_only (routed evs) w (flushFinishedHandles a ctx handles erase w).
Proof.
  intros Hhandles. unfold flushFinishedHandles.
  case_bool_decide; [by apply adds_only_nothing|].
  destruct erase.
  - apply adds_only_bind; [by apply deleteMessages_routed|].
    intros. by apply adds_only_nothing.
  - apply adds_only_bind; [by apply resetMessages_routed|].
    intros. by apply adds_only_nothing.
Qed.

Lemma flushFinishedHandles_chained a ctx evs handles (erase : bool) w :
  (if erase then Forall (acked evs) handles else Forall (nacked evs) handles) →
  adds_only (routed_or_refreshed evs) w (flushFinishedHandles a ctx handles erase w).
Proof.
  intros Hhandles. eapply adds_only_mono; [|by apply flushFinishedHandles_routed].
  intros call Hcall. by left.
Qed.

Lemma ackLoop_select_routed a ctx evs s ev w :
  pending_routed evs (Some s) → received_routed evs ev →
  ensures (routed_or_refreshed evs) (pending_routed evs) w
    (ackLoop_select a ctx s ev w).
Proof.
  intros [Hacks Hnacks] Hev. destruct ev as [h|h|run|]; simpl in Hev;
    cbn [ackLoop_select].
  - assert (Hacks' : Forall (acked evs) (pendingAcks s ++ [h])).
    { apply Forall_app. split; [done|]. by apply Forall_singleton. }
    eapply ensures_bind; [apply ensures_modify_tracker|]. intros _ w1 _ _.
    eapply ensures_bind; [apply ensures_modify_store|]. intros _ w2 _ _.
    eapply (ensures_bind _ (λ _, True)).
    { case_bool_decide; [|by apply ensures_ret].
      by apply ensures_any, (flushFinishedHandles_chained a ctx evs _ true). }
    intros _ w3 _ _. by apply ensures_ret.
  - assert (Hnacks' : Forall (nacked evs) (pendingNacks s ++ [h])).
    { apply Forall_app. split; [done|]. by apply Forall_singleton. }
    eapply ensures_bind; [apply ensures_modify_tracker|]. intros _ w1 _ _.
    eapply ensures_bind; [apply ensures_modify_store|]. intros _ w2 _ _.
    eapply (ensures_bind _ (λ _, True)).
    { case_bool_decide; [|by apply ensures_ret].
      by apply ensures_any, (flushFinishedHandles_chained a ctx evs _ false). }
    intros _ w3 _ _. by apply ensures_ret.
  - eapply ensures_bind.
    { by apply ensures_any, (flushFinishedHandles_chained a ctx evs _ true). }
    intros _ w1 _ _. eapply ensures_bind.
    { by apply ensures_any, (flushFinishedHandles_chained a ctx evs _ false). }
    intros _ w2 _ _. eapply ensures_bind.
    { apply ensures_any. eapply adds_only_mono; [intros call Hcall; right; exact Hcall|].
      apply go_refreshCurrentHandles_refreshed; [|done].
      apply list_elem_of_omap. by exists (tick run). }
    intros _ w3 _ _. by apply ensures_ret.
  - by apply ensures_ret.
Qed.

Lemma ackLoop_leave_routed a ctx evs s w :
  pending_routed evs (Some s) →
  ensures (routed_or_refreshed evs) (λ _, True) w (ackLoop_leave a ctx s w).
Proof.
  intros [Hacks Hnacks]. unfold ackLoop_leave.
  eapply ensures_bind.
  { by apply ensures_any, (flushFinishedHandles_chained a ctx evs _ true). }
  intros _ w1 _ _. eapply ensures_bind.
  { by apply ensures_any, (flushFinishedHandles_chained a ctx evs _ false). }
  intros _ w2 _ _. apply ensures_modify_tracker.
Qed.

(** What the closure does with a handle: it deletes it or passes it to the
    ack channel when called with nil, resets it or passes it to the nack
    channel when called with an error. *)
Lemma ackFn_routed a evs mHandle rctx res sel w :
  callAckFn mHandle rctx res sel ∈ evs →
  ensures (routed_or_refreshed evs)
    (λ '(_, sent), match sent with
                   | Some (onAckMessagesChan h) => acked evs h
                   | Some (onNackMessagesChan h) => nacked evs h
                   | None => True
                   end)
    w (ackFn a mHandle rctx res sel w).
Proof.
  intros Hev. unfold ackFn.
  assert (Hleft : ∀ call, routed evs call → routed_or_refreshed evs call)
    by (intros call Hcall; by left).
  destruct mHandle as [h|]; [|by apply ensures_ret].
  destruct res as [err|], sel; try by apply ensures_ret.
  - eapply ensures_bind; [|intros; by apply ensures_ret].
    apply ensures_any. eapply adds_only_mono; [exact Hleft|].
    apply resetMessages_routed, Forall_singleton.
    by exists rctx, err, ackSoftStop.
  - apply ensures_ret. by exists rctx, err, ackSend.
  - eapply ensures_bind; [|intros; by apply ensures_ret].
    apply ensures_any. eapply adds_only_mono; [exact Hleft|].
    apply deleteMessages_routed, Forall_singleton.
    by exists rctx, ackSoftStop.
  - apply ensures_ret. by exists rctx, ackSend.
Qed.

Lemma ack_step_routed a ctx evs s ev w :
  ev ∈ evs → pending_routed evs s →
  ensures (routed_or_refreshed evs) (pending_routed evs) w (ack_step a ctx s ev w).
Proof.
  intros Hev Hs. destruct ev as [mHandle rctx res sel|run|].
  - cbn [ack_step]. eapply ensures_bind; [by apply ackFn_routed|].
    intros [err sent] w1 _ Hsent.
    destruct sent as [[h|h]|], s as [s|]; try by apply ensures_ret.
    + by apply ackLoop_select_routed.
    + by apply ackLoop_select_routed.
  - destruct s as [s|]; [|by apply ensures_ret].
    by apply ackLoop_select_routed.
  - destruct s as [s|]; [|by apply ensures_ret]. cbn [ack_step].
    eapply ensures_bind; [by apply ackLoop_leave_routed|].
    intros. by apply ensures_ret.
Qed.

Lemma ack_run_routed a ctx evs : ∀ todo s w,
  todo ⊆ evs → pending_routed evs s →
  adds_only (routed_or_refreshed evs) w (ack_run a ctx s todo w).
Proof.
  induction todo as [|ev todo IH]; intros s w Hsub Hs.
  - by apply adds_only_nothing.
  - cbn [ack_run].
    destruct (ack_step_routed a ctx evs s ev w) as [Hstep Hnext]; [set_solver|done|].
    apply adds_only_bind; [done|].
    intros s' w' Hrun. apply IH; [set_solver|]. by eapply Hnext.
Qed.

Lemma routed_not_changes_visibility evs h call :
  Forall (λ ev, ¬ is_nack_of h ev) evs →
  routed evs call → ¬ changes_visibility h call.
Proof.
  intros Hnever Hcall Hvis. destruct call as [Entries|Entries]; [done|].
  destruct Hvis as (e & He & Hid & Hreceipt).
  destruct (Hcall e He) as (h' & (rctx & err & sel & Hev) & ->).
  eapply Forall_forall in Hnever; [|exact Hev]. apply Hnever. by split.
Qed.

Lemma routed_not_deletes evs h call :
  Forall (λ ev, ¬ is_ack_of h ev) evs →
  routed evs call → ¬ deletes h call.
Proof.
  intros Hnever Hcall Hdel. destruct call as [Entries|Entries]; [|done].
  destruct Hdel as (e & He & Hid & Hreceipt).
  destruct (Hcall e He) as (h' & (rctx & sel & Hev) & ->).
  eapply Forall_forall in Hnever; [|exact Hev]. apply Hnever. by split.
Qed.

(** The closure, branch by branch.  Without the soft stop it touches the
    wire in no case: it gives back the error of its context or hands the
    handle to the loop. *)
Lemma ackFn_branches a h rctx w :
  ackFn a (Some h) rctx None rctxDone w = Val (Err rctx, None) w ∧
  ackFn a (Some h) rctx None ackSend w = Val (None, Some (onAckMessagesChan h)) w ∧
  ∀ err,
    ackFn a (Some h) rctx (Some err) rctxDone w = Val (Err rctx, None) w ∧
    ackFn a (Some h) rctx (Some err) ackSend w
    = Val (None, Some (onNackMessagesChan h)) w.
Proof. done. Qed.

(** X15.  Under the soft stop, with a client and both toggles on, a call
    with nil issues the delete of its handle and a call with an error the
    reset of its handle (which is live: the loop has not seen it). *)
Lemma ackFn_soft_stop a api h rctx w :
  sqs a = Some api →
  DeleteMessage (conf a) = true → ResetVisibility (conf a) = true →
  rpcs (final (ackFn a (Some h) rctx None ackSoftStop w))
  = rpcs w ++ [DeleteMessageBatchInput [deleteEntry h]] ∧
  ∀ err, live (store w) h →
    rpcs (final (ackFn a (Some h) rctx (Some err) ackSoftStop w))
    = rpcs w ++ [ChangeMessageVisibilityBatchInput [visibilityEntry 0 h]].
Proof.
  intros Hsqs Hdelete Hreset. split.
  - unfold ackFn, deleteMessages. rewrite Hdelete. simpl.
    unfold call_DeleteMessageBatch. rewrite Hsqs. unfold_M. simpl.
    by destruct (DeleteMessageBatch api (rpcs w) rctx [deleteEntry h]).
  - intros err Hlive. unfold live in Hlive.
    unfold ackFn, resetMessages, updateVisibilityMessages. rewrite Hreset. simpl.
    unfold_M. simpl. rewrite Hlive. simpl.
    unfold call_ChangeMessageVisibilityBatch. rewrite Hsqs. unfold_M. simpl.
    destruct (ChangeMessageVisibilityBatch api (rpcs w) rctx [visibilityEntry 0 h])
      as [e|rejected]; [done|].
    simpl. destruct (rejected 0%nat); simpl; [|done]. by rewrite Hlive.
Qed.

(** C4.  Take any run of the consumer's acknowledgements against the ack
    loop, from the loop's start, with any client and any setting of the two
    toggles (both on included), the refresh passes of the ticks included.
    If the message of a handle is never passed to the closure with an
    error, then every call the run adds that changes the visibility of that
    message is one of a refresh pass, with the seconds of that pass, and in
    a run in which no pass runs there is no such call at all:
    [ackFn(rctx, nil)] leads to deletes only.  If it is never passed with
    nil, no call the run adds deletes it: [ackFn(rctx, err)] leads to
    visibility resets only. *)
Theorem ack_routing a closeNowCtx evs w h :
  (Forall (λ ev, ¬ is_nack_of h ev) evs →
   ∃ calls,
     rpcs (final (ack_run a closeNowCtx (Some ackLoop_start) evs w)) = rpcs w ++ calls ∧
     Forall (λ call, changes_visibility h call →
                     refreshed (λ _, True) (passes_in evs) call) calls ∧
     (no_pass (passes_in evs) →
      Forall (λ call, ¬ changes_visibility h call) calls)) ∧
  (Forall (λ ev, ¬ is_ack_of h ev) evs →
   ∃ calls,
     rpcs (final (ack_run a closeNowCtx (Some ackLoop_start) evs w)) = rpcs w ++ calls ∧
     Forall (λ call, ¬ deletes h call) calls).
Proof.
  destruct (ack_run_routed a closeNowCtx evs evs (Some ackLoop_start) w)
    as (calls & Hlog & Hrouted); [done|by split|].
  split; intros Hnever; exists calls; (split; [done|]).
  - assert (Hvis : Forall (λ call, changes_visibility h call →
                             refreshed (λ _, True) (passes_in evs) call) calls).
    { eapply Forall_impl; [exact Hrouted|]. intros call [Hcall|Hcall] Hvis; [|done].
      by destruct (routed_not_changes_visibility evs h call). }
    split; [done|]. intros Hnone.
    eapply Forall_impl; [exact Hvis|]. intros call Hcall Hvis'.
    destruct call as [Entries|Entries]; [done|].
    destruct (Hcall Hvis') as (now & seconds & Hrun & _).
    eapply Forall_forall in Hnone; [|exact Hrun]. discriminate.
  - eapply Forall_impl; [exact Hrouted|]. intros call [Hcall|Hcall].
    + by eapply routed_not_deletes.
    + destruct call as [Entries|Entries]; [destruct Hcall|intros Hdel; exact Hdel].
Qed.

Lemma ack_routing_witness :
  (∃ calls,
     rpcs (final (ack_run stopping Background (Some ackLoop_start) shutdown_run
                    three_in_flight))
     = rpcs three_in_flight ++ calls ∧
     Forall (λ call, changes_visibility m1 call →
                     refreshed (λ _, True) (passes_in shutdown_run) call) calls) ∧
  (∃ calls,
     rpcs (final (ack_run stopping Background (Some ackLoop_start)
                    shutdown_run_locked three_in_flight))
     = rpcs three_in_flight ++ calls ∧
     Forall (λ call, ¬ changes_visibility m1 call) calls) ∧
  (∃ calls,
     rpcs (final (ack_run stopping Background (Some ackLoop_start) shutdown_run
                    three_in_flight))
     = rpcs three_in_flight ++ calls ∧
     Forall (λ call, ¬ deletes m2 call) calls).
Proof.
  assert (Hnot_nacked : ∀ run,
            Forall (λ ev, ¬ is_nack_of m1 ev)
              [ callAckFn (Some m1) Background None ackSend;
                callAckFn (Some m2) Background (Some (ErrOther "processing failed"))
                  ackSoftStop;
                tick run; stop ]).
  { intros run. repeat constructor; simpl; try tauto. intros [? _]. discriminate. }
  split; [|split].
  - destruct (proj1 (ack_routing stopping Background shutdown_run three_in_flight m1)
                (Hnot_nacked _)) as (calls & Hlog & Hvis & _).
    by exists calls.
  - destruct (proj1 (ack_routing stopping Background shutdown_run_locked
                       three_in_flight m1) (Hnot_nacked _))
      as (calls & Hlog & _ & Hnone).
    exists calls. split; [done|]. apply Hnone. by repeat constructor.
  - apply (proj2 (ack_routing stopping Background shutdown_run three_in_flight m2)).
    repeat constructor; simpl; try tauto.
    intros [? _]. discriminate.
Defined.

(** The calls of that run: the reset of [m2] by the closure, the delete of
    [m1] at the tick, the refresh of the two handles still tracked (in the
    order the map is visited), and the delete of [m1] once more on the way
    out. *)
Example shutdown_run_calls :
  rpcs (final (ack_run stopping Background (Some ackLoop_start) shutdown_run
                 three_in_flight))
  = [ ChangeMessageVisibilityBatchInput [visibilityEntry 0 m2];
      DeleteMessageBatchInput [deleteEntry m1];
      ChangeMessageVisibilityBatchInput [visibilityEntry 30 m3; visibilityEntry 30 m2];
      DeleteMessageBatchInput [deleteEntry m1] ].
Proof. vm_compute. reflexivity. Qed.

(** * Further properties *)

(** ** The tracker: registration, keys, room *)

Lemma last_cons_cases {A} (x : A) (l : list A) :
  last (x :: l) = match last l with Some y => Some y | None => Some x end.
Proof. destruct l as [|y l]; [done|]. rewrite last_cons. by destruct (last (y :: l)). Qed.

Lemma last_with_id_cons i msg messages :
  last_with_id i (msg :: messages)
  = match last_with_id i messages with
    | Some h => Some h
    | None => match handle msg with
              | Some h => if decide (id h = i) then Some h else None
              | None => None
              end
    end.
Proof.
  unfold last_with_id. simpl. destruct (handle msg) as [h|]; simpl; [|by case_match].
  rewrite filter_cons. destruct (decide (id h = i)); [|by case_match].
  apply last_cons_cases.
Qed.

(** The map the second loop of [AddNew] builds, id by id. *)
Lemma AddNew_insert_lookup messages : ∀ (m : gmap string sqsMessageHandle) i,
  AddNew_insert messages m !! i
  = match last_with_id i messages with Some h => Some h | None => m !! i end.
Proof.
  induction messages as [|msg messages IH]; intros m i; [done|].
  unfold AddNew_insert in *. cbn [foldl]. rewrite IH, last_with_id_cons.
  destruct (last_with_id i messages); [done|].
  destruct (handle msg) as [h|]; [|done].
  destruct (decide (id h = i)) as [<-|Hne].
  - by rewrite lookup_insert_eq.
  - by rewrite lookup_insert_ne.
Qed.

Lemma last_with_id_id i messages h :
  last_with_id i messages = Some h →
  id h = i ∧ ∃ msg, msg ∈ messages ∧ handle msg = Some h.
Proof.
  unfold last_with_id. intros Hlast.
  apply last_Some_elem_of, list_elem_of_filter in Hlast as [Hid Hin].
  split; [done|]. apply list_elem_of_omap in Hin as (msg & Hmsg & Hh). eauto.
Qed.

(** X1.  When [AddNew] inserts, the tracker afterwards holds, under every
    id the batch carries, the last handle of the batch with that id; every
    other id keeps what it had; messages without a handle leave no trace. *)
Theorem AddNew_registers ctx messages t t' :
  AddNew ctx messages t = Inserted t' →
  (∀ i, handles t' !! i
        = match last_with_id i messages with
          | Some h => Some h
          | None => handles t !! i
          end) ∧
  limit t' = limit t ∧ timeout t' = timeout t.
Proof.
  unfold AddNew. case_bool_decide; [by repeat case_match|].
  intros [= <-]. split; [|done]. intros i. apply AddNew_insert_lookup.
Qed.

Lemma AddNew_registers_witness :
  ∃ t', AddNew Background redelivery (newTracker default_conf) = Inserted t' ∧
        handles t' !! "m1" = Some m1_again ∧ handles t' !! "m2" = None ∧
        size (handles t') = 1%nat.
Proof.
  eexists. split; [reflexivity|].
  destruct (AddNew_registers Background redelivery (newTracker default_conf) _ eq_refl)
    as (Hlookup & _ & _).
  split; [|split].
  - rewrite Hlookup. reflexivity.
  - rewrite Hlookup. reflexivity.
  - vm_compute. reflexivity.
Defined.

Lemma AddNew_tracker_keyed ctx messages t :
  keyed_by_id t → keyed_by_id (AddNew_tracker ctx messages t).
Proof.
  intros Hkeyed. unfold AddNew_tracker, AddNew.
  case_bool_decide; [by repeat case_match|].
  intros k v. simpl. rewrite AddNew_insert_lookup.
  destruct (last_with_id k messages) as [h|] eqn:Hlast; [|by apply Hkeyed].
  intros [= <-]. by apply last_with_id_id in Hlast as [? _].
Qed.

(** X2.  In every state the tracker of a connected reader reaches, a handle
    sits under its own id: whatever is registered, removed or cleared, the
    key of an entry is the id of the handle it holds. *)
Theorem reachable_keyed_by_id conf t :
  reachable conf t → ∀ k v, handles t !! k = Some v → id v = k.
Proof.
  induction 1 as [|t op _ IH _]; [done|].
  destruct op as [ctx messages|i| | |]; simpl; try done.
  - by apply AddNew_tracker_keyed.
  - intros k v [_ Hkv]%lookup_delete_Some. by apply IH.
Qed.

Lemma reachable_keyed_by_id_witness :
  let t := trackerOp_run (OpRemove "m2")
             (trackerOp_run (OpAddNew Background redelivery)
                (newTracker default_conf)) in
  reachable default_conf t ∧ ∀ k v, handles t !! k = Some v → id v = k.
Proof.
  assert (Hreach : reachable default_conf
                     (trackerOp_run (OpRemove "m2")
                        (trackerOp_run (OpAddNew Background redelivery)
                           (newTracker default_conf)))).
  { apply reachable_op; [|done].
    apply reachable_op; [apply reachable_new|]. vm_compute. discriminate. }
  split; [exact Hreach|]. exact (reachable_keyed_by_id default_conf _ Hreach).
Defined.

(** X3.  Room is made by removal: when a tracker that is exactly at its
    limit loses a tracked handle through [Remove], or a tracker with a
    positive limit is cleared, the next [AddNew] inserts its whole batch at
    once, whatever the size of the batch and the state of its context. *)
Theorem Remove_makes_room i v t ctx messages :
  handles t !! i = Some v →
  Size t ≤ limit t →
  (∃ t', AddNew ctx messages (Remove i t) = Inserted t') ∧
  (∃ t', AddNew ctx messages (Clear t) = Inserted t').
Proof.
  intros Hi Hfull.
  assert (Hpos : (0 < size (handles t))%nat).
  { destruct (decide (size (handles t) = 0%nat)) as [Hz|]; [|lia].
    apply map_size_empty_inv in Hz. rewrite Hz in Hi. by rewrite lookup_empty in Hi. }
  unfold AddNew, Size in *. simpl. split.
  - rewrite map_size_delete, Hi. simpl.
    rewrite bool_decide_eq_false_2 by lia. eauto.
  - rewrite map_size_empty. rewrite bool_decide_eq_false_2 by lia. eauto.
Qed.

Lemma Remove_makes_room_witness :
  (∃ t', AddNew cancelled redelivery (Remove "m2" full_tracker) = Inserted t') ∧
  (∃ t', AddNew cancelled redelivery (Clear full_tracker) = Inserted t').
Proof.
  apply (Remove_makes_room "m2" m2 full_tracker cancelled redelivery).
  - reflexivity.
  - vm_compute. discriminate.
Defined.

(** X4.  With [MaxOutstanding] at zero or below nothing is ever admitted:
    every [AddNew] parks or returns early, and the tracker of the reader
    stays empty in every state it reaches. *)
Theorem nothing_admitted conf :
  MaxOutstanding conf ≤ 0 →
  ∀ t, reachable conf t →
       handles t = ∅ ∧
       ∀ ctx messages, AddNew ctx messages t
                       = if Err ctx is Some _ then ReturnedEarly else Parked.
Proof.
  intros Hlimit t Hreach.
  assert (Hfull : ∀ t', reachable conf t' →
            bool_decide (limit t' ≤ Size t') = true).
  { intros t' Ht'. apply bool_decide_eq_true.
    rewrite (reachable_limit _ _ Ht'). pose proof (Size_nonneg t'). lia. }
  split.
  - induction Hreach as [|t op Hreach IH _]; [done|].
    destruct op as [ctx messages|i| | |]; simpl; try done.
    + unfold AddNew_tracker, AddNew. rewrite (Hfull t Hreach) by done.
      by repeat case_match.
    + rewrite IH. apply delete_empty.
  - intros ctx messages. unfold AddNew. by rewrite Hfull.
Qed.

Lemma nothing_admitted_witness :
  handles (trackerOp_run (OpAddNew Background redelivery) (newTracker closed_conf)) = ∅.
Proof.
  refine (proj1 (nothing_admitted closed_conf _ _ _)).
  - vm_compute. discriminate.
  - apply reachable_op; [apply reachable_new|]. vm_compute. discriminate.
Defined.

(** ** [updateVisibilityMessages], in full *)

Lemma updateVisibility_entries_bound σ timeout msgs : ∀ b,
  (length (vb_Entries b) < maxBatchSize)%nat →
  (length (vb_Entries (updateVisibility_entries σ timeout msgs b)) ≤ maxBatchSize)%nat.
Proof.
  induction msgs as [|msg msgs IH]; intros b Hlen; cbn [updateVisibility_entries].
  - lia.
  - destruct (sqsMessageDeadline.IsDeleted σ (deadline msg)); [by apply IH|].
    case_bool_decide as Hfull; simpl; [lia|].
    apply IH. simpl. rewrite length_app in *. simpl in *. lia.
Qed.

(** A batch the inner loop leaves with fewer than ten entries has consumed
    the whole slice. *)
Lemma updateVisibility_entries_short σ timeout msgs : ∀ b,
  (length (vb_Entries b) < maxBatchSize)%nat →
  (length (vb_Entries (updateVisibility_entries σ timeout msgs b)) < maxBatchSize)%nat →
  vb_consumed (updateVisibility_entries σ timeout msgs b)
  = (vb_consumed b + length msgs)%nat.
Proof.
  induction msgs as [|msg msgs IH]; intros b Hlen; cbn [updateVisibility_entries].
  - intros _. simpl. lia.
  - destruct (sqsMessageDeadline.IsDeleted σ (deadline msg)).
    + intros Hshort. rewrite IH by done. simpl. lia.
    + case_bool_decide as Hfull; simpl; [lia|].
      intros Hshort. rewrite IH; simpl; [lia| |done].
      rewrite length_app in *. simpl in *. unfold maxBatchSize in *. lia.
Qed.

(** A run of the outer loop with a client and the slice length as bound:
    it returns, it leaves the store and the tracker alone, its calls hold at
    most ten entries each, and their entries are in order those of the live
    handles, up to the call the client fails, or of all of them. *)
Lemma updateVisibility_loop_spec a api ctx timeout : ∀ fuel msgs w,
  sqs a = Some api →
  (length msgs ≤ fuel)%nat →
  ∃ batches res w',
    updateVisibility_loop a fuel ctx timeout msgs w = Val res w' ∧
    store w' = store w ∧ inFlight w' = inFlight w ∧
    rpcs w' = rpcs w ++ (ChangeMessageVisibilityBatchInput <$> batches) ∧
    Forall (λ b, length b ≤ maxBatchSize)%nat batches ∧
    (∃ m, concat batches
          = visibilityEntry timeout <$> filter (live (store w)) (take m msgs)) ∧
    match res with
    | None =>
        concat batches = visibilityEntry timeout <$> filter (live (store w)) msgs
    | Some err =>
        ∃ before b, batches = before ++ [b] ∧
          ChangeMessageVisibilityBatch api
            (rpcs w ++ (ChangeMessageVisibilityBatchInput <$> before)) ctx b
          = RpcErr err
    end ∧
    ((∀ sofar c es err, ChangeMessageVisibilityBatch api sofar c es ≠ RpcErr err) →
     res = None) ∧
    (∀ i b, batches !! i = Some b → (S i < length batches)%nat →
            length b = maxBatchSize) ∧
    (∀ i b, batches !! i = Some b →
            (S i < length batches)%nat ∨ res = None →
            ∃ rejected,
              ChangeMessageVisibilityBatch api
                (rpcs w ++ (ChangeMessageVisibilityBatchInput <$> take i batches)) ctx b
              = RpcOk rejected) ∧
    (batches = [] ↔ msgs = []) ∧
    (∃ m, concat batches
          = visibilityEntry timeout <$> filter (live (store w)) (take m msgs) ∧
          (m = length msgs ∨ ∃ b, last batches = Some b ∧ length b = maxBatchSize)).
Proof.
  induction fuel as [|fuel IH]; intros msgs w Hsqs Hfuel.
  { destruct msgs; [|simpl in Hfuel; lia].
    exists [], None, w. simpl. rewrite app_nil_r.
    repeat (split; [done|]). split; [by exists 0%nat|]. split; [done|].
    repeat (split; [done|]). exists 0%nat. split; [done|by left]. }
  destruct msgs as [|msg msgs'].
  { exists [], None, w. simpl. rewrite app_nil_r.
    repeat (split; [done|]). split; [by exists 0%nat|]. split; [done|].
    repeat (split; [done|]). exists 0%nat. split; [done|by left]. }
  cbn [updateVisibility_loop].
  remember (msg :: msgs') as msgs eqn:Hmsgs.
  assert (Hne : msgs ≠ []) by (by subst msgs). clear Hmsgs msg msgs'.
  unfold_M. cbv beta. simpl.
  pose proof (updateVisibility_entries_bound (store w) timeout msgs
                {| vb_Entries := []; vb_sent := []; vb_consumed := 0 |}) as Hbound.
  pose proof (updateVisibility_entries_short (store w) timeout msgs
                {| vb_Entries := []; vb_sent := []; vb_consumed := 0 |}) as Hshort.
  destruct (updateVisibility_entries_spec (store w) timeout msgs
              {| vb_Entries := []; vb_sent := []; vb_consumed := 0 |})
    as (k & Hk & Hk1 & Hb). rewrite Hb in Hbound, Hshort |- *.
  simpl in Hbound, Hshort |- *.
  specialize (Hk1 Hne). specialize (Hbound ltac:(unfold maxBatchSize; lia)).
  specialize (Hshort ltac:(unfold maxBatchSize; lia)).
  clear Hb.
  set (Entries := visibilityEntry timeout <$> filter (live (store w)) (take k msgs))
    in *.
  unfold call_ChangeMessageVisibilityBatch. rewrite Hsqs.
  unfold_M. cbv beta. simpl.
  set (w1 := {| rpcs := rpcs w ++ [ChangeMessageVisibilityBatchInput Entries];
                store := store w; inFlight := inFlight w |}).
  destruct (ChangeMessageVisibilityBatch api (rpcs w) ctx Entries)
    as [err|rejected] eqn:Hans.
  - exists [Entries], (Some err), w1.
    split; [done|]. split; [done|]. split; [done|]. split; [done|].
    split; [by apply Forall_singleton|]. split.
    { exists k. simpl. by rewrite app_nil_r. }
    split; [exists [], Entries; simpl; by rewrite app_nil_r|].
    split; [intros Hnever; by destruct (Hnever _ _ _ _ Hans)|].
    split; [intros [|i] b Hb Hlt; simpl in *; [lia|done]|].
    split; [intros [|i] b Hb [Hlt|Hnone]; simpl in *; try done; lia|].
    split; [done|].
    exists k. simpl. rewrite app_nil_r. split; [done|].
    destruct (decide (length Entries < maxBatchSize)%nat) as [Hlt|Hge].
    + left. specialize (Hshort Hlt). simpl in Hshort. done.
    + right. exists Entries. split; [done|]. lia.
  - rewrite updateVisibility_failed_in_range.
    2:{ etrans; [apply Failed_length|]. subst Entries. by rewrite length_fmap. }
    destruct (IH (drop k msgs) w1 Hsqs)
      as (batches & res & w' & Hrun & Hstore & Htracker & Hlog & Hsizes
          & [m Hcover] & Hres & Hnever & Hfull & Hanswers & Hempty
          & (m' & Hcover' & Hlast)).
    { rewrite length_drop. lia. }
    exists (Entries :: batches), res, w'.
    split; [done|]. split; [done|]. split; [done|]. split.
    { rewrite Hlog. simpl. by rewrite <- app_assoc. }
    split; [by constructor|]. split.
    { exists (k + m)%nat. simpl. rewrite Hcover. subst Entries. simpl.
      by rewrite <- fmap_app, <- filter_app, take_take_drop. }
    split.
    { destruct res as [err|].
      + destruct Hres as (before & b & -> & Hans').
        exists (Entries :: before), b. split; [done|].
        rewrite <- Hans'. simpl. by rewrite <- app_assoc.
      + simpl. rewrite Hres. subst Entries. simpl.
        by rewrite <- fmap_app, <- filter_app, take_drop. }
    split; [done|]. split; [|split; [|split; [done|]]].
    + intros [|i] b Hb Hlt; simpl in Hb, Hlt.
      * injection Hb as <-.
        destruct (decide (length Entries < maxBatchSize)%nat) as [Hlt'|]; [|lia].
        specialize (Hshort Hlt'). simpl in Hshort. subst k.
        rewrite (proj2 Hempty) in Hlt by apply drop_all. simpl in Hlt. lia.
      * apply (Hfull i b Hb). lia.
    + intros [|i] b Hb Hcase; simpl in Hb.
      * injection Hb as <-. exists rejected. simpl. by rewrite app_nil_r.
      * destruct (Hanswers i b Hb) as [rejected' Hok].
        { destruct Hcase as [Hlt|Hnone]; [left; simpl in Hlt; lia|by right]. }
        exists rejected'. rewrite <- Hok. simpl. by rewrite <- app_assoc.
    + destruct (decide (batches = [])) as [->|Hsome].
      * exists k. simpl. rewrite app_nil_r. split; [done|].
        destruct (decide (length Entries < maxBatchSize)%nat) as [Hlt|Hge].
        -- left. specialize (Hshort Hlt). simpl in Hshort. done.
        -- right. exists Entries. split; [done|]. lia.
      * exists (k + m')%nat. split.
        { simpl. rewrite Hcover'. subst Entries. simpl.
          by rewrite <- fmap_app, <- filter_app, take_take_drop. }
        destruct Hlast as [->|(b & Hb & Hten)].
        -- left. rewrite length_drop. lia.
        -- right. exists b. split; [|done].
           destruct batches; [done|]. exact Hb.
Qed.

(** X5.  With a client, [updateVisibilityMessages] always returns: the index
    into [sent] stays in range and the loop ends.  It leaves deadlines and
    tracker alone and makes a call exactly when the list is not empty.  Its
    calls carry at most ten entries each, and every call before the last
    carries exactly ten and was answered without an error: the loop stops at
    the first call the client fails, and it returns the error of that call.
    The entries are, in order, those of the handles that do not read as
    deleted, of a prefix of the list that ends with the list or with a full
    call; when nil is returned no call failed and every live handle of the
    list is covered. *)
Theorem updateVisibilityMessages_batches a api ctx timeout msgs w :
  sqs a = Some api →
  ∃ batches res w',
    updateVisibilityMessages a ctx timeout msgs w = Val res w' ∧
    store w' = store w ∧ inFlight w' = inFlight w ∧
    rpcs w' = rpcs w ++ (ChangeMessageVisibilityBatchInput <$> batches) ∧
    (batches = [] ↔ msgs = []) ∧
    Forall (λ b, length b ≤ 10)%nat batches ∧
    (∀ i b, batches !! i = Some b → (S i < length batches)%nat →
            length b = 10%nat ∧
            ∃ rejected,
              ChangeMessageVisibilityBatch api
                (rpcs w ++ (ChangeMessageVisibilityBatchInput <$> take i batches)) ctx b
              = RpcOk rejected) ∧
    (∃ m, concat batches
          = visibilityEntry timeout
              <$> filter (λ h, sqsMessageDeadline.IsDeleted (store w) (deadline h) = false)
                         (take m msgs) ∧
          (m = length msgs ∨ ∃ b, last batches = Some b ∧ length b = 10%nat)) ∧
    match res with
    | None =>
        concat batches
        = visibilityEntry timeout
            <$> filter (λ h, sqsMessageDeadline.IsDeleted (store w) (deadline h) = false)
                       msgs ∧
        ∀ i b, batches !! i = Some b →
               ∃ rejected,
                 ChangeMessageVisibilityBatch api
                   (rpcs w ++ (ChangeMessageVisibilityBatchInput <$> take i batches))
                   ctx b
                 = RpcOk rejected
    | Some err =>
        ∃ before b, batches = before ++ [b] ∧
          ChangeMessageVisibilityBatch api
            (rpcs w ++ (ChangeMessageVisibilityBatchInput <$> before)) ctx b
          = RpcErr err
    end ∧
    ((∀ sofar c es err, ChangeMessageVisibilityBatch api sofar c es ≠ RpcErr err) →
     res = None).
Proof.
  intros Hsqs. unfold updateVisibilityMessages.
  destruct (updateVisibility_loop_spec a api ctx timeout (length msgs) msgs w Hsqs)
    as (batches & res & w' & Hrun & Hstore & Htracker & Hlog & Hsizes & _
        & Hres & Hnever & Hfull & Hanswers & Hempty & Hcover); [done|].
  exists batches, res, w'. repeat (split; [done|]).
  split.
  { intros i b Hb Hlt. split; [by apply (Hfull i b)|].
    apply (Hanswers i b Hb). by left. }
  split; [done|]. split; [|done].
  destruct res as [err|]; [done|]. split; [done|].
  intros i b Hb. apply (Hanswers i b Hb). by right.
Qed.

(** Three handles of which the first reads as deleted.  A client that
    accepts every call gets the other two, and nil comes back; a client
    that fails every call gets the same single call, and its error comes
    back. *)
Lemma updateVisibilityMessages_batches_witness :
  (∃ batches w',
     updateVisibilityMessages connected Background 30 [m1; m2; m3] deleted_one
     = Val None w' ∧
     rpcs w' = ChangeMessageVisibilityBatchInput <$> batches ∧
     concat batches = visibilityEntry 30 <$> [m2; m3]) ∧
  (∃ w',
     updateVisibilityMessages unreachable_queue Background 30 [m1; m2; m3] deleted_one
     = Val (Some (ErrOther "ServiceUnavailable")) w' ∧
     rpcs w' = [ChangeMessageVisibilityBatchInput (visibilityEntry 30 <$> [m2; m3])]).
Proof.
  split.
  - destruct (updateVisibilityMessages_batches connected quiet_api Background 30
                [m1; m2; m3] deleted_one eq_refl)
      as (batches & res & w' & Hrun & _ & _ & Hlog & _ & _ & _ & _ & Hres & Hnever).
    rewrite (Hnever ltac:(done)) in Hrun, Hres.
    exists batches, w'. split; [done|]. split; [done|]. exact (proj1 Hres).
  - destruct (updateVisibilityMessages_batches unreachable_queue failing_api
                Background 30 [m1; m2; m3] deleted_one eq_refl)
      as (batches & res & w' & Hrun & _ & _ & Hlog & Hempty & Hsizes & Hbefore
          & (m & Hcover & Hlast) & Hres & _).
    destruct res as [err|].
    + destruct Hres as (before & b & -> & Hans). injection Hans as <-.
      destruct before as [|b0 before].
      * exists w'. split; [done|]. rewrite Hlog. simpl. do 2 f_equal.
        simpl in Hcover. rewrite app_nil_r in Hcover.
        destruct Hlast as [->|(b' & Hb' & Hten)]; [exact Hcover|].
        injection Hb' as <-. rewrite Hcover, length_fmap in Hten.
        pose proof (length_filter (λ h, sqsMessageDeadline.IsDeleted
                      (store deleted_one) (deadline h) = false) (take m [m1; m2; m3])).
        rewrite length_take in *. simpl in *. lia.
      * destruct (Hbefore 0%nat b0 eq_refl) as [_ [rejected Hok]]; [|done].
        simpl. rewrite length_app. simpl. lia.
    + destruct Hres as [_ Hok].
      destruct batches as [|b0 batches]; [by destruct (proj1 Hempty eq_refl)|].
      by destruct (Hok 0%nat b0 eq_refl).
Defined.

(** ** [ackLoop], turn by turn *)

Lemma concat_nil_inv {A} (ls : list (list A)) :
  concat ls = [] → Forall (λ l, l = []) ls.
Proof.
  induction ls as [|l ls IH]; simpl; [constructor|].
  intros [-> Hls]%app_eq_nil. constructor; [done|]. by apply IH.
Qed.

Lemma IsDeleted_SetDeleted σ l l' :
  l = l' ∨ sqsMessageDeadline.IsDeleted σ l' = true →
  sqsMessageDeadline.IsDeleted (sqsMessageDeadline.SetDeleted σ l) l' = true.
Proof.
  unfold sqsMessageDeadline.IsDeleted, sqsMessageDeadline.SetDeleted.
  destruct (decide (l = l')) as [->|Hne].
  - intros _. rewrite atomic_Load_Store. by apply bool_decide_eq_true.
  - intros [?|Hdel]; [done|]. by rewrite atomic_Load_Store_ne.
Qed.

Lemma IsDeleted_mark_deleted hs : ∀ σ l,
  (∃ h, h ∈ hs ∧ deadline h = l) ∨ sqsMessageDeadline.IsDeleted σ l = true →
  sqsMessageDeadline.IsDeleted (mark_deleted σ hs) l = true.
Proof.
  induction hs as [|h hs IH]; intros σ l Hl; simpl.
  - destruct Hl as [(h & Hh & _)|?]; [by apply elem_of_nil in Hh|done].
  - apply IH. destruct Hl as [(h' & [->|Hh']%elem_of_cons & Hl)|Hdel].
    + right. apply IsDeleted_SetDeleted. by left.
    + left. eauto.
    + right. apply IsDeleted_SetDeleted. by right.
Qed.

Lemma remove_all_lookup hs : ∀ t k,
  handles (remove_all t hs) !! k
  = if decide (k ∈ id <$> hs) then None else handles t !! k.
Proof.
  induction hs as [|h hs IH]; intros t k.
  - by rewrite decide_False by apply not_elem_of_nil.
  - change (remove_all t (h :: hs)) with (remove_all (Remove (id h) t) hs).
    rewrite IH, fmap_cons. unfold Remove at 1. cbn [handles with_handles].
    destruct (decide (k ∈ id <$> hs)) as [Hin|Hnot].
    + rewrite decide_True by (by right). done.
    + destruct (decide (k = id h)) as [->|Hne].
      * rewrite decide_True by (by left). apply lookup_delete_eq.
      * rewrite decide_False by (intros [?|?]%elem_of_cons; done).
        by apply lookup_delete_ne.
Qed.

Lemma mark_deleted_lookup_agree hs : ∀ (σ1 σ2 : cells) (l : loc),
  σ1 !! l = σ2 !! l → mark_deleted σ1 hs !! l = mark_deleted σ2 hs !! l.
Proof.
  induction hs as [|h hs IH]; intros σ1 σ2 l Hl; [done|].
  simpl. apply IH. unfold sqsMessageDeadline.SetDeleted, atomic.Store.
  destruct (decide (deadline h = l)) as [->|Hne].
  - by rewrite !lookup_insert_eq.
  - by rewrite !lookup_insert_ne.
Qed.

Lemma IsDeleted_agree (σ1 σ2 : cells) (l : loc) :
  σ1 !! l = σ2 !! l →
  sqsMessageDeadline.IsDeleted σ1 l = sqsMessageDeadline.IsDeleted σ2 l.
Proof.
  intros Hl. unfold sqsMessageDeadline.IsDeleted, atomic.Load. by rewrite Hl.
Qed.

(** [deleteMessages] of a connected reader, toggle included. *)
Lemma deleteMessages_spec a api ctx msgs w :
  sqs a = Some api →
  ∃ batches res w',
    deleteMessages a ctx msgs w = Val res w' ∧
    store w' = store w ∧ inFlight w' = inFlight w ∧
    rpcs w' = rpcs w ++ (DeleteMessageBatchInput <$> batches) ∧
    (batches ≠ [] → DeleteMessage (conf a) = true) ∧
    (∃ m, concat batches = deleteEntry <$> take m msgs) ∧
    (DeleteMessage (conf a) = true →
     (∀ sofar c es err, DeleteMessageBatch api sofar c es ≠ RpcErr err) →
     concat batches = deleteEntry <$> msgs).
Proof.
  intros Hsqs. unfold deleteMessages.
  destruct (DeleteMessage (conf a)); simpl.
  - destruct (deleteMessages_loop_spec a api ctx (length msgs) msgs w Hsqs)
      as (batches & res & w' & Hrun & Hstore & Htracker & Hlog & _ & _ & Hcover
          & Hres & Hnever & _); [done|].
    exists batches, res, w'. repeat (split; [done|]).
    intros _ Hok. rewrite (Hnever Hok) in Hres. by destruct Hres.
  - exists [], None, w. simpl. rewrite app_nil_r.
    repeat (split; [done|]). split; [by exists 0%nat|done].
Qed.

(** [resetMessages] of a connected reader, toggle included: with the toggle
    off nothing is issued; with it on, what [updateVisibilityMessages]
    issues for a timeout of 0. *)
Lemma resetMessages_spec a api ctx msgs w :
  sqs a = Some api →
  ∃ batches res w',
    resetMessages a ctx msgs w = Val res w' ∧
    store w' = store w ∧ inFlight w' = inFlight w ∧
    rpcs w' = rpcs w ++ (ChangeMessageVisibilityBatchInput <$> batches) ∧
    (batches ≠ [] → ResetVisibility (conf a) = true) ∧
    Forall (λ b, length b ≤ maxBatchSize)%nat batches ∧
    (∃ m, concat batches
          = visibilityEntry 0 <$> filter (live (store w)) (take m msgs)) ∧
    (ResetVisibility (conf a) = true →
     (∀ sofar c es err, ChangeMessageVisibilityBatch api sofar c es ≠ RpcErr err) →
     concat batches = visibilityEntry 0 <$> filter (live (store w)) msgs) ∧
    (ResetVisibility (conf a) = true → (batches = [] ↔ msgs = [])) ∧
    (∀ i b, batches !! i = Some b →
            (S i < length batches)%nat ∨ res = None →
            ∃ rejected,
              ChangeMessageVisibilityBatch api
                (rpcs w ++ (ChangeMessageVisibilityBatchInput <$> take i batches)) ctx b
              = RpcOk rejected) ∧
    (res = None → ResetVisibility (conf a) = true →
     concat batches = visibilityEntry 0 <$> filter (live (store w)) msgs) ∧
    (∀ i b, batches !! i = Some b → (S i < length batches)%nat →
            length b = maxBatchSize) ∧
    (ResetVisibility (conf a) = true →
     ∃ m, concat batches
          = visibilityEntry 0 <$> filter (live (store w)) (take m msgs) ∧
          (m = length msgs ∨ ∃ b, last batches = Some b ∧ length b = maxBatchSize)) ∧
    (∀ err, res = Some err →
            ∃ before b, batches = before ++ [b] ∧
              ChangeMessageVisibilityBatch api
                (rpcs w ++ (ChangeMessageVisibilityBatchInput <$> before)) ctx b
              = RpcErr err).
Proof.
  intros Hsqs. unfold resetMessages, updateVisibilityMessages.
  destruct (ResetVisibility (conf a)); simpl.
  - destruct (updateVisibility_loop_spec a api ctx 0 (length msgs) msgs w Hsqs)
      as (batches & res & w' & Hrun & Hstore & Htracker & Hlog & Hsizes & Hcover
          & Hres & Hnever & Hfull & Hanswers & Hempty & Hlast); [done|].
    exists batches, res, w'. repeat (split; [done|]).
    split; [intros _ Hok; by rewrite (Hnever Hok) in Hres|].
    split; [done|]. split; [done|].
    split; [intros -> _; exact Hres|].
    split; [done|]. split; [done|].
    intros err ->. exact Hres.
  - exists [], None, w. simpl. rewrite app_nil_r.
    repeat (split; [done|]). split; [by exists 0%nat|done].
Qed.

Lemma filter_live_deleted σ (hs : list sqsMessageHandle) :
  Forall (λ h, sqsMessageDeadline.IsDeleted σ (deadline h) = true) hs →
  filter (live σ) hs = [].
Proof.
  induction 1 as [|h hs Hh _ IH]; [done|].
  rewrite filter_cons_False; [done|]. unfold live. congruence.
Qed.

(** A flush of a connected reader returns and leaves the store and the
    tracker alone.  When the handles it is given all read as deleted, its
    calls are calls the loop may make; a flush of acks with a client that
    fails no delete covers them all. *)
Lemma flushFinishedHandles_spec a api ctx hs (erase : bool) w :
  sqs a = Some api →
  ∃ w' calls,
    flushFinishedHandles a ctx hs erase w = Val () w' ∧
    store w' = store w ∧ inFlight w' = inFlight w ∧
    rpcs w' = rpcs w ++ calls ∧
    (Forall (λ h, sqsMessageDeadline.IsDeleted (store w) (deadline h) = true) hs →
     Forall (loop_call a) calls) ∧
    (erase = true → DeleteMessage (conf a) = true →
     (∀ sofar c es err, DeleteMessageBatch api sofar c es ≠ RpcErr err) →
     ∃ batches, calls = DeleteMessageBatchInput <$> batches ∧
                concat batches = deleteEntry <$> hs).
Proof.
  intros Hsqs. unfold flushFinishedHandles.
  case_bool_decide as Hempty.
  { exists w, []. rewrite app_nil_r. repeat (split; [done|]).
    intros _ _ _. exists [].
    by apply length_zero_iff_nil in Hempty as ->. }
  destruct erase.
  - destruct (deleteMessages_spec a api ctx hs w Hsqs)
      as (batches & res & w' & Hrun & Hstore & Htracker & Hlog & Hon & _ & Hall).
    unfold mbind, M_bind. rewrite Hrun.
    exists w', (DeleteMessageBatchInput <$> batches).
    repeat (split; [done|]). split.
    + intros _. apply Forall_fmap, Forall_forall. intros b Hb. simpl.
      apply Hon. intros ->. by apply elem_of_nil in Hb.
    + intros _ Hdel Hok. exists batches. split; [done|]. by apply Hall.
  - destruct (resetMessages_spec a api ctx hs w Hsqs)
      as (batches & res & w' & Hrun & Hstore & Htracker & Hlog & Hon & _
          & [m Hcover] & _).
    unfold mbind, M_bind. rewrite Hrun.
    exists w', (ChangeMessageVisibilityBatchInput <$> batches).
    repeat (split; [done|]). split; [|done].
    intros Hdeleted.
    rewrite filter_live_deleted in Hcover by (by apply Forall_take).
    apply concat_nil_inv in Hcover.
    apply Forall_fmap, Forall_forall. intros b Hb. simpl. split.
    + apply Hon. intros ->. by apply elem_of_nil in Hb.
    + by eapply Forall_forall in Hcover.
Qed.

(** [PullToRefresh] writes the deadline cells of tracked handles only. *)
Lemma PullToRefresh_visits_keep t now vs : ∀ hs (σ : cells) (l : loc),
  (∀ v, v ∈ vs → deadline v ≠ l) →
  (foldl (PullToRefresh_visit t now) (hs, σ) vs).2 !! l = σ !! l.
Proof.
  induction vs as [|v vs IH]; intros hs σ l Hl; cbn [foldl]; [done|].
  unfold PullToRefresh_visit at 2. case_bool_decide.
  - apply IH. intros u Hu. apply Hl. by right.
  - rewrite IH by (intros u Hu; apply Hl; by right).
    unfold sqsMessageDeadline.Store, atomic.Store.
    apply lookup_insert_ne. apply Hl. by left.
Qed.

Lemma PullToRefresh_keep t now (σ : cells) (l : loc) :
  untracked_cell t l → (PullToRefresh t now σ).2 !! l = σ !! l.
Proof.
  intros Hl. unfold PullToRefresh. apply PullToRefresh_visits_keep.
  intros v ([k v'] & -> & Hkv%elem_of_map_to_list)%list_elem_of_fmap.
  by apply (Hl k).
Qed.

(** The goroutine of a tick, for a connected reader: it returns and leaves
    the tracker alone; it writes the deadline cells of tracked handles
    only; its calls are visibility changes for tracked handles with the
    seconds of the pass. *)
Lemma go_refreshCurrentHandles_spec a api ctx run w :
  sqs a = Some api →
  ∃ w' calls,
    go_refreshCurrentHandles a ctx run w = Val () w' ∧
    inFlight w' = inFlight w ∧
    rpcs w' = rpcs w ++ calls ∧
    Forall (refreshed (tracked (inFlight w)) [run]) calls ∧
    (∀ l, untracked_cell (inFlight w) l → store w' !! l = store w !! l) ∧
    (run = refreshLocked → store w' = store w).
Proof.
  intros Hsqs.
  destruct (go_refreshCurrentHandles_refreshed (tracked (inFlight w)) a ctx run [run] w)
    as (calls & Hlog & Hcalls); [by left|done|].
  destruct run as [|now seconds].
  { exists w, []. simpl. rewrite app_nil_r. repeat (split; [done|]). done. }
  revert Hlog. unfold go_refreshCurrentHandles, refreshCurrentHandles.
  unfold_M. cbv beta. simpl.
  pose proof (PullToRefresh_keep (inFlight w) now (store w)) as Hkeep.
  destruct (PullToRefresh (inFlight w) now (store w)) as [hs σ']. simpl in Hkeep.
  case_bool_decide.
  { simpl. intros Hlog. eexists _, calls. split; [done|]. simpl.
    repeat (split; [done|]). done. }
  set (w1 := {| rpcs := rpcs w; store := σ'; inFlight := inFlight w |}).
  destruct (updateVisibility_loop_spec a api ctx seconds (length hs) hs w1 Hsqs)
    as (batches & res & w' & Hrun & Hstore & Htracker & _); [done|].
  unfold updateVisibilityMessages. rewrite Hrun. simpl. intros Hlog.
  exists w', calls. split; [done|]. rewrite Htracker, Hstore. simpl.
  repeat (split; [done|]). done.
Qed.

Lemma stop_in_cons ev evs :
  ev ≠ SoftStopChan → stop_in (ev :: evs) = stop_in evs.
Proof.
  intros Hev. unfold stop_in. destruct ev; try done; simpl;
    apply bool_decide_ext; lia.
Qed.

Lemma ackLoopState_eta s :
  {| pendingAcks := pendingAcks s ++ []; pendingNacks := pendingNacks s ++ [];
     refreshes := refreshes s + 0 |} = s.
Proof. destruct s. simpl. by rewrite !app_nil_r, Nat.add_0_r. Qed.

Lemma refreshed_mono (P Q : sqsMessageHandle → Prop) runs runs' call :
  (∀ v, P v → Q v) → runs ⊆ runs' →
  refreshed P runs call → refreshed Q runs' call.
Proof.
  intros HPQ Hsub. destruct call as [Entries|Entries]; [done|].
  intros (now & seconds & Hrun & Hentries).
  exists now, seconds. split; [by apply Hsub|].
  intros e He. destruct (Hentries e He) as (v & Hv & ->). eauto.
Qed.

(** One turn of the loop of a connected reader, other than the soft stop:
    it comes back; a received handle is appended to its slice, removed from
    the tracker and marked deleted; only a refresh pass writes other cells,
    and only those of tracked handles; when what is pending reads as
    deleted, the calls are calls the loop may make or calls of the pass. *)
Lemma ackLoop_select_spec a api ctx s ev w :
  sqs a = Some api → ev ≠ SoftStopChan →
  ∃ w' calls,
    ackLoop_select a ctx s ev w
    = Val (Some {| pendingAcks := pendingAcks s ++ acks_of [ev];
                   pendingNacks := pendingNacks s ++ nacks_of [ev];
                   refreshes := refreshes s + ticks_of [ev] |}) w' ∧
    inFlight w' = remove_all (inFlight w) (finished_of [ev]) ∧
    rpcs w' = rpcs w ++ calls ∧
    (∀ l, untracked_cell (remove_all (inFlight w) (finished_of [ev])) l →
          store w' !! l = mark_deleted (store w) (finished_of [ev]) !! l) ∧
    (no_pass (passes_of [ev]) →
     store w' = mark_deleted (store w) (finished_of [ev])) ∧
    (pending_deleted s (store w) →
     Forall (λ call, loop_call a call
                     ∨ refreshed (tracked (inFlight w)) (passes_of [ev]) call) calls).
Proof.
  intros Hsqs Hev.
  assert (Hleft : ∀ calls, Forall (loop_call a) calls →
            Forall (λ call, loop_call a call
                            ∨ refreshed (tracked (inFlight w)) (passes_of [ev]) call)
                   calls).
  { intros calls Hcalls. eapply Forall_impl; [exact Hcalls|]. by left. }
  destruct ev as [h|h|run|]; [| | |done].
  - (* an ack arrives *)
    cbn [ackLoop_select]. unfold_M. cbv beta. simpl.
    set (σ1 := sqsMessageDeadline.SetDeleted (store w) (deadline h)).
    set (w1 := {| rpcs := rpcs w; store := σ1;
                  inFlight := Remove (id h) (inFlight w) |}).
    assert (Hflush : ∃ w2 calls,
      (if bool_decide (MaxNumberOfMessages (conf a)
                       ≤ Z.of_nat (length (pendingAcks s ++ [h])))
       then flushFinishedHandles a ctx (pendingAcks s ++ [h]) true
       else λ w0, Val () w0) w1 = Val () w2 ∧
      store w2 = σ1 ∧ inFlight w2 = inFlight w1 ∧
      rpcs w2 = rpcs w ++ calls ∧
      (Forall (λ h', sqsMessageDeadline.IsDeleted σ1 (deadline h') = true)
              (pendingAcks s ++ [h]) → Forall (loop_call a) calls)).
    { case_bool_decide.
      - destruct (flushFinishedHandles_spec a api ctx (pendingAcks s ++ [h]) true w1
                    Hsqs) as (w2 & calls & ? & ? & ? & ? & ? & _).
        by exists w2, calls.
      - exists w1, []. rewrite app_nil_r. repeat (split; [done|]). done. }
    destruct Hflush as (w2 & calls & -> & Hstore2 & Htracker2 & Hlog2 & Hcalls2).
    exists w2, calls. rewrite Nat.add_0_r, app_nil_r. split; [done|].
    rewrite Hstore2, Htracker2. repeat (split; [done|]).
    intros [Hacks Hnacks]%Forall_app. apply Hleft, Hcalls2.
    apply Forall_app. split.
    + eapply Forall_impl; [exact Hacks|]. intros h' Hh'.
      apply IsDeleted_SetDeleted. by right.
    + apply Forall_singleton, IsDeleted_SetDeleted. by left.
  - (* a nack arrives *)
    cbn [ackLoop_select]. unfold_M. cbv beta. simpl.
    set (σ1 := sqsMessageDeadline.SetDeleted (store w) (deadline h)).
    set (w1 := {| rpcs := rpcs w; store := σ1;
                  inFlight := Remove (id h) (inFlight w) |}).
    assert (Hflush : ∃ w2 calls,
      (if bool_decide (MaxNumberOfMessages (conf a)
                       ≤ Z.of_nat (length (pendingNacks s ++ [h])))
       then flushFinishedHandles a ctx (pendingNacks s ++ [h]) false
       else λ w0, Val () w0) w1 = Val () w2 ∧
      store w2 = σ1 ∧ inFlight w2 = inFlight w1 ∧
      rpcs w2 = rpcs w ++ calls ∧
      (Forall (λ h', sqsMessageDeadline.IsDeleted σ1 (deadline h') = true)
              (pendingNacks s ++ [h]) → Forall (loop_call a) calls)).
    { case_bool_decide.
      - destruct (flushFinishedHandles_spec a api ctx (pendingNacks s ++ [h]) false w1
                    Hsqs) as (w2 & calls & ? & ? & ? & ? & ? & _).
        by exists w2, calls.
      - exists w1, []. rewrite app_nil_r. repeat (split; [done|]). done. }
    destruct Hflush as (w2 & calls & -> & Hstore2 & Htracker2 & Hlog2 & Hcalls2).
    exists w2, calls. rewrite Nat.add_0_r, app_nil_r. split; [done|].
    rewrite Hstore2, Htracker2. repeat (split; [done|]).
    intros [Hacks Hnacks]%Forall_app. apply Hleft, Hcalls2.
    apply Forall_app. split.
    + eapply Forall_impl; [exact Hnacks|]. intros h' Hh'.
      apply IsDeleted_SetDeleted. by right.
    + apply Forall_singleton, IsDeleted_SetDeleted. by left.
  - (* the timer ticks *)
    cbn [ackLoop_select]. unfold mbind, M_bind.
    destruct (flushFinishedHandles_spec a api ctx (pendingAcks s) true w Hsqs)
      as (w1 & calls1 & -> & Hstore1 & Htracker1 & Hlog1 & Hcalls1 & _).
    destruct (flushFinishedHandles_spec a api ctx (pendingNacks s) false w1 Hsqs)
      as (w2 & calls2 & -> & Hstore2 & Htracker2 & Hlog2 & Hcalls2 & _).
    destruct (go_refreshCurrentHandles_spec a api ctx run w2 Hsqs)
      as (w3 & calls3 & -> & Htracker3 & Hlog3 & Hcalls3 & Hkeep3 & Hlocked3).
    unfold mret, M_ret.
    exists w3, (calls1 ++ calls2 ++ calls3).
    rewrite !app_nil_r. split; [unfold ticks_of; simpl; by rewrite Nat.add_1_r|].
    rewrite Htracker3, Htracker2, Htracker1, Hlog3, Hlog2, Hlog1, <- !app_assoc.
    simpl. repeat (split; [done|]). split; [|split].
    + intros l Hl. rewrite Hkeep3, Hstore2, Hstore1; [done|].
      by rewrite Htracker2, Htracker1.
    + intros Hnone. assert (Hrun : run = refreshLocked) by by inversion Hnone.
      by rewrite (Hlocked3 Hrun), Hstore2, Hstore1.
    + intros [Hacks Hnacks]%Forall_app. rewrite !Forall_app. split; [|split].
      * by apply Hleft, Hcalls1.
      * apply Hleft, Hcalls2. by rewrite Hstore1.
      * eapply Forall_impl; [exact Hcalls3|]. intros call Hcall. right.
        by rewrite Htracker2, Htracker1 in Hcall.
Qed.

Lemma before_stop_cons ev evs :
  ev ≠ SoftStopChan → before_stop (ev :: evs) = ev :: before_stop evs.
Proof. by destruct ev. Qed.

Lemma acks_of_cons ev evs : acks_of (ev :: evs) = acks_of [ev] ++ acks_of evs.
Proof. by destruct ev. Qed.

Lemma nacks_of_cons ev evs : nacks_of (ev :: evs) = nacks_of [ev] ++ nacks_of evs.
Proof. by destruct ev. Qed.

Lemma finished_of_cons ev evs :
  finished_of (ev :: evs) = finished_of [ev] ++ finished_of evs.
Proof. by destruct ev. Qed.

Lemma passes_of_cons ev evs :
  passes_of (ev :: evs) = passes_of [ev] ++ passes_of evs.
Proof. by destruct ev. Qed.

Lemma ticks_of_cons ev evs :
  ticks_of (ev :: evs) = (ticks_of [ev] + ticks_of evs)%nat.
Proof. by destruct ev. Qed.

Lemma finished_of_elem h evs :
  h ∈ acks_of evs ++ nacks_of evs → h ∈ finished_of evs.
Proof.
  unfold acks_of, nacks_of, finished_of.
  intros [Hh|Hh]%elem_of_app;
    apply list_elem_of_omap in Hh as (ev & Hev & Hsome);
    apply list_elem_of_omap; exists ev; (split; [done|]);
    destruct ev; simplify_eq; done.
Qed.

Lemma mark_deleted_app σ hs1 hs2 :
  mark_deleted σ (hs1 ++ hs2) = mark_deleted (mark_deleted σ hs1) hs2.
Proof. apply foldl_app. Qed.

Lemma remove_all_app t hs1 hs2 :
  remove_all t (hs1 ++ hs2) = remove_all (remove_all t hs1) hs2.
Proof. apply foldl_app. Qed.

Lemma tracked_remove_all hs t v : tracked (remove_all t hs) v → tracked t v.
Proof.
  intros [k Hk]. exists k. rewrite remove_all_lookup in Hk.
  by destruct (decide (k ∈ id <$> hs)).
Qed.

Lemma untracked_cell_remove_all hs t l :
  untracked_cell t l → untracked_cell (remove_all t hs) l.
Proof.
  intros Hl k v Hk. apply (Hl k). rewrite remove_all_lookup in Hk.
  by destruct (decide (k ∈ id <$> hs)).
Qed.

Lemma cell_apart_remove_all hs t h :
  cell_apart t h → cell_apart (remove_all t hs) h.
Proof.
  intros Hh k v Hk. apply (Hh k). rewrite remove_all_lookup in Hk.
  by destruct (decide (k ∈ id <$> hs)).
Qed.

(** Once the ids of handles are removed, no tracked handle has the cell of
    one of them that is a heap object of its own. *)
Lemma cell_apart_untracked hs t h :
  h ∈ hs → cell_apart t h → untracked_cell (remove_all t hs) (deadline h).
Proof.
  intros Hin Hh k v Hk Hcell. rewrite remove_all_lookup in Hk.
  destruct (decide (k ∈ id <$> hs)) as [|Hnot]; [done|].
  apply Hnot. rewrite (Hh k v Hk Hcell). by apply list_elem_of_fmap_2.
Qed.

Lemma pending_deleted_step s ev n σ :
  pending_deleted s σ →
  pending_deleted {| pendingAcks := pendingAcks s ++ acks_of [ev];
                     pendingNacks := pendingNacks s ++ nacks_of [ev];
                     refreshes := n |}
                  (mark_deleted σ (finished_of [ev])).
Proof.
  unfold pending_deleted. cbn [pendingAcks pendingNacks].
  rewrite !Forall_forall. intros Hpending p Hp.
  apply IsDeleted_mark_deleted.
  rewrite !elem_of_app in Hp.
  destruct Hp as [[Hp|Hp]|[Hp|Hp]].
  - right. apply Hpending, elem_of_app. by left.
  - left. exists p. split; [|done]. apply finished_of_elem, elem_of_app. by left.
  - right. apply Hpending, elem_of_app. by right.
  - left. exists p. split; [|done]. apply finished_of_elem, elem_of_app. by right.
Qed.

(** The [for] of a connected reader over any events: it returns; its
    pending slices are what they were followed by everything received, in
    order; every handle received was removed from the tracker and marked
    deleted; only the refresh passes write other cells, and only those of
    handles the tracker held; where no pass can reach the cell of a handle
    that is pending or received, the calls added are calls the loop may
    make or calls of the passes. *)
Lemma ackLoop_for_spec a api ctx : sqs a = Some api → ∀ evs s w,
  ∃ w' calls,
    ackLoop_for a ctx s evs w
    = Val ({| pendingAcks := pendingAcks s ++ acks_of (before_stop evs);
              pendingNacks := pendingNacks s ++ nacks_of (before_stop evs);
              refreshes := refreshes s + ticks_of (before_stop evs) |},
           stop_in evs) w' ∧
    inFlight w' = remove_all (inFlight w) (finished_of (before_stop evs)) ∧
    rpcs w' = rpcs w ++ calls ∧
    (∀ l, untracked_cell (inFlight w) l →
          store w' !! l
          = mark_deleted (store w) (finished_of (before_stop evs)) !! l) ∧
    (no_pass (passes_of (before_stop evs)) →
     store w' = mark_deleted (store w) (finished_of (before_stop evs))) ∧
    (∀ h, h ∈ finished_of (before_stop evs) →
          no_pass (passes_of (before_stop evs)) ∨ cell_apart (inFlight w) h →
          sqsMessageDeadline.IsDeleted (store w') (deadline h) = true) ∧
    (pending_deleted s (store w) →
     no_pass (passes_of (before_stop evs))
     ∨ (Forall (λ p, untracked_cell (inFlight w) (deadline p))
               (pendingAcks s ++ pendingNacks s)
        ∧ Forall (cell_apart (inFlight w)) (finished_of (before_stop evs))) →
     Forall (λ call, loop_call a call
                     ∨ refreshed (tracked (inFlight w))
                                 (passes_of (before_stop evs)) call) calls).
Proof.
  intros Hsqs. induction evs as [|ev evs IH]; intros s w.
  { exists w, []. simpl. rewrite ackLoopState_eta, app_nil_r.
    repeat (split; [done|]). split; [|by constructor].
    intros h Hh. by apply elem_of_nil in Hh. }
  assert (Hstop : ev = SoftStopChan ∨ ev ≠ SoftStopChan)
    by (destruct ev; (by left) || by right).
  destruct Hstop as [->|Hev].
  { exists w, []. simpl. unfold_M. rewrite ackLoopState_eta, app_nil_r.
    repeat (split; [done|]). split; [|by constructor].
    intros h Hh. by apply elem_of_nil in Hh. }
  destruct (ackLoop_select_spec a api ctx s ev w Hsqs Hev)
    as (w1 & calls1 & Hrun1 & Htracker1 & Hlog1 & Hout1 & Hexact1 & Hcalls1).
  set (s1 := {| pendingAcks := pendingAcks s ++ acks_of [ev];
                pendingNacks := pendingNacks s ++ nacks_of [ev];
                refreshes := refreshes s + ticks_of [ev] |}) in *.
  destruct (IH s1 w1)
    as (w' & calls' & Hrun' & Htracker' & Hlog' & Hout' & Hexact' & Hdel' & Hcalls').
  exists w', (calls1 ++ calls').
  rewrite before_stop_cons, stop_in_cons by done.
  rewrite (acks_of_cons ev), (nacks_of_cons ev), (ticks_of_cons ev),
    (finished_of_cons ev), (passes_of_cons ev).
  split.
  { cbn [ackLoop_for]. unfold mbind, M_bind. rewrite Hrun1, Hrun'. subst s1.
    cbn [pendingAcks pendingNacks refreshes].
    by rewrite <- !app_assoc, Nat.add_assoc. }
  split; [by rewrite Htracker', Htracker1, remove_all_app|].
  split; [by rewrite Hlog', Hlog1, app_assoc|].
  split.
  { intros l Hl. rewrite Hout', mark_deleted_app.
    - apply mark_deleted_lookup_agree, Hout1.
      by apply untracked_cell_remove_all.
    - rewrite Htracker1. by apply untracked_cell_remove_all. }
  split.
  { intros [Hnone1 Hnone']%Forall_app.
    by rewrite (Hexact' Hnone'), (Hexact1 Hnone1), mark_deleted_app. }
  split.
  { intros h [Hh|Hh]%elem_of_app Hguard.
    - (* received in this turn *)
      destruct Hguard as [[Hnone1 Hnone']%Forall_app|Hapart].
      + rewrite (Hexact' Hnone'), (Hexact1 Hnone1).
        apply IsDeleted_mark_deleted. right. apply IsDeleted_mark_deleted.
        left. eauto.
      + pose proof (cell_apart_untracked _ _ _ Hh Hapart) as Hgone.
        rewrite (IsDeleted_agree _ _ _ (Hout' _ ltac:(by rewrite Htracker1))).
        apply IsDeleted_mark_deleted. right.
        rewrite (IsDeleted_agree _ _ _ (Hout1 _ Hgone)).
        apply IsDeleted_mark_deleted. left. eauto.
    - (* received later *)
      apply Hdel'; [done|]. destruct Hguard as [[_ Hnone']%Forall_app|Hapart].
      + by left.
      + right. rewrite Htracker1. by apply cell_apart_remove_all. }
  intros Hpending Hguard. apply Forall_app. split.
  { eapply Forall_impl; [exact (Hcalls1 Hpending)|].
    intros call [Hcall|Hcall]; [by left|right].
    eapply refreshed_mono; [| |exact Hcall]; [done|].
    intros run Hrun. apply elem_of_app. by left. }
  assert (Hworld1 : pending_deleted s1 (store w1)
            ∧ (no_pass (passes_of (before_stop evs))
               ∨ (Forall (λ p, untracked_cell (inFlight w1) (deadline p))
                         (pendingAcks s1 ++ pendingNacks s1)
                  ∧ Forall (cell_apart (inFlight w1))
                           (finished_of (before_stop evs))))).
  { destruct Hguard as [[Hnone1 Hnone']%Forall_app|[Hpend Hfin]].
    - split; [|by left]. rewrite (Hexact1 Hnone1). by apply pending_deleted_step.
    - apply Forall_app in Hfin as [Hfin1 Hfin'].
      assert (Hgone : Forall (λ p, untracked_cell (inFlight w1) (deadline p))
                             (pendingAcks s1 ++ pendingNacks s1)).
      { rewrite Htracker1. apply Forall_forall. intros p Hp.
        subst s1. cbn [pendingAcks pendingNacks] in Hp.
        rewrite !elem_of_app in Hp.
        assert (Hcases : p ∈ pendingAcks s ++ pendingNacks s
                         ∨ p ∈ finished_of [ev]).
        { destruct Hp as [[Hp|Hp]|[Hp|Hp]].
          - left. apply elem_of_app. by left.
          - right. apply finished_of_elem, elem_of_app. by left.
          - left. apply elem_of_app. by right.
          - right. apply finished_of_elem, elem_of_app. by right. }
        destruct Hcases as [Hold|Hnew].
        - apply untracked_cell_remove_all.
          by apply (proj1 (Forall_forall _ _) Hpend).
        - apply cell_apart_untracked; [done|].
          by apply (proj1 (Forall_forall _ _) Hfin1). }
      split.
      + pose proof (pending_deleted_step s ev (refreshes s + ticks_of [ev])%nat
                      _ Hpending) as Hstep.
        fold s1 in Hstep. unfold pending_deleted in *.
        rewrite Forall_forall in Hstep, Hgone. apply Forall_forall.
        intros p Hp. rewrite <- (Hstep p Hp). apply IsDeleted_agree, Hout1.
        rewrite <- Htracker1. by apply Hgone.
      + right. split; [done|]. rewrite Htracker1.
        eapply Forall_impl; [exact Hfin'|]. intros h.
        apply cell_apart_remove_all. }
  destruct Hworld1 as [Hpending1 Hguard1].
  eapply Forall_impl; [exact (Hcalls' Hpending1 Hguard1)|].
  intros call [Hcall|Hcall]; [by left|right].
  eapply refreshed_mono; [| |exact Hcall].
  - intros v. rewrite Htracker1. apply tracked_remove_all.
  - intros run Hrun. apply elem_of_app. by right.
Qed.

(** Leaving the loop: both slices are flushed, then the tracker is
    cleared. *)
Lemma ackLoop_leave_spec a api ctx s w :
  sqs a = Some api →
  ∃ w' calls,
    ackLoop_leave a ctx s w = Val () w' ∧
    store w' = store w ∧ inFlight w' = Clear (inFlight w) ∧
    rpcs w' = rpcs w ++ calls ∧
    (pending_deleted s (store w) → Forall (loop_call a) calls) ∧
    (DeleteMessage (conf a) = true →
     (∀ sofar c es err, DeleteMessageBatch api sofar c es ≠ RpcErr err) →
     ∃ batches rest, calls = (DeleteMessageBatchInput <$> batches) ++ rest ∧
                     concat batches = deleteEntry <$> pendingAcks s).
Proof.
  intros Hsqs. unfold ackLoop_leave, mbind, M_bind.
  destruct (flushFinishedHandles_spec a api ctx (pendingAcks s) true w Hsqs)
    as (w1 & calls1 & -> & Hstore1 & Htracker1 & Hlog1 & Hcalls1 & Hcover).
  destruct (flushFinishedHandles_spec a api ctx (pendingNacks s) false w1 Hsqs)
    as (w2 & calls2 & -> & Hstore2 & Htracker2 & Hlog2 & Hcalls2 & _).
  eexists _, (calls1 ++ calls2). unfold modify_tracker. split; [done|]. simpl.
  rewrite Hstore2, Hstore1, Htracker2, Htracker1, Hlog2, Hlog1, <- app_assoc.
  repeat (split; [done|]). split.
  - intros [Hacks Hnacks]%Forall_app. apply Forall_app. split.
    + by apply Hcalls1.
    + apply Hcalls2. by rewrite Hstore1.
  - intros Hon Hok. destruct (Hcover eq_refl Hon Hok) as (batches & -> & Hall).
    by exists batches, calls2.
Qed.

(** [ackLoop] of a connected reader over any events. *)
Lemma ackLoop_spec a api ctx evs w :
  sqs a = Some api →
  let s := {| pendingAcks := acks_of (before_stop evs);
              pendingNacks := nacks_of (before_stop evs);
              refreshes := ticks_of (before_stop evs) |} in
  ∃ w' calls,
    ackLoop a ctx evs w = Val s w' ∧
    inFlight w'
    = (if stop_in evs
       then Clear (remove_all (inFlight w) (finished_of (before_stop evs)))
       else remove_all (inFlight w) (finished_of (before_stop evs))) ∧
    rpcs w' = rpcs w ++ calls ∧
    (∀ l, untracked_cell (inFlight w) l →
          store w' !! l
          = mark_deleted (store w) (finished_of (before_stop evs)) !! l) ∧
    (no_pass (passes_of (before_stop evs)) →
     store w' = mark_deleted (store w) (finished_of (before_stop evs))) ∧
    (∀ h, h ∈ finished_of (before_stop evs) →
          no_pass (passes_of (before_stop evs)) ∨ cell_apart (inFlight w) h →
          sqsMessageDeadline.IsDeleted (store w') (deadline h) = true) ∧
    (no_pass (passes_of (before_stop evs))
     ∨ Forall (cell_apart (inFlight w)) (finished_of (before_stop evs)) →
     Forall (λ call, loop_call a call
                     ∨ refreshed (tracked (inFlight w))
                                 (passes_of (before_stop evs)) call) calls) ∧
    (stop_in evs = true → DeleteMessage (conf a) = true →
     (∀ sofar c es err, DeleteMessageBatch api sofar c es ≠ RpcErr err) →
     ∃ before batches rest,
       calls = before ++ (DeleteMessageBatchInput <$> batches) ++ rest ∧
       concat batches = deleteEntry <$> acks_of (before_stop evs)).
Proof.
  intros Hsqs s.
  destruct (ackLoop_for_spec a api ctx Hsqs evs ackLoop_start w)
    as (w1 & calls1 & Hrun & Htracker1 & Hlog1 & Hout1 & Hexact1 & Hdel1 & Hcalls1).
  unfold ackLoop, mbind, M_bind. rewrite Hrun. simpl. fold s.
  assert (Hguard : no_pass (passes_of (before_stop evs))
                   ∨ Forall (cell_apart (inFlight w)) (finished_of (before_stop evs)) →
                   pending_deleted s (store w1)
                   ∧ Forall (λ call, loop_call a call
                                     ∨ refreshed (tracked (inFlight w))
                                         (passes_of (before_stop evs)) call) calls1).
  { intros Hguard. split.
    - apply Forall_forall. intros h Hh. apply finished_of_elem in Hh.
      apply Hdel1; [done|]. destruct Hguard as [?|Hapart]; [by left|right].
      by apply (proj1 (Forall_forall _ _) Hapart).
    - apply Hcalls1; [constructor|].
      destruct Hguard as [?|Hapart]; [by left|right]. split; [constructor|done]. }
  destruct (stop_in evs).
  - destruct (ackLoop_leave_spec a api ctx s w1 Hsqs)
      as (w2 & calls2 & -> & Hstore2 & Htracker2 & Hlog2 & Hcalls2 & Hcover).
    exists w2, (calls1 ++ calls2). unfold mret, M_ret. split; [done|].
    rewrite Hstore2, Htracker2, Hlog2, Htracker1, Hlog1, <- app_assoc.
    repeat (split; [done|]). split.
    + intros [Hpending Hclass]%Hguard. apply Forall_app. split; [done|].
      eapply Forall_impl; [exact (Hcalls2 Hpending)|]. by left.
    + intros _ Hon Hok. destruct (Hcover Hon Hok) as (batches & rest & -> & Hall).
      by exists calls1, batches, rest.
  - exists w1, calls1. unfold mret, M_ret. split; [done|].
    rewrite app_nil_r in *. repeat (split; [done|]). split; [|done].
    by intros [_ Hclass]%Hguard.
Qed.








(** The calls of that run: two nacks, a tick and the stop.  The flushes of
    the tick and of the stop send nothing for the two nacked handles; the
    refresh pass of the tick extends the handle that is still tracked. *)
Example two_nacks_calls :
  rpcs (final (ackLoop connected Background
                 [nackMessagesChan m1; nackMessagesChan m2;
                  flushTimer (refreshRuns (time.Unix 1000 0) 30); SoftStopChan]
                 three_in_flight))
  = [ChangeMessageVisibilityBatchInput [];
     ChangeMessageVisibilityBatchInput [visibilityEntry 30 m3];
     ChangeMessageVisibilityBatchInput []].
Proof. vm_compute. reflexivity. Qed.

(** X9.  When the loop is left, with [DeleteMessage] on and a client that
    fails no delete, every handle acked before the stop is in a delete the
    loop issued on the way out: no ack is lost at shutdown. *)
Theorem ackLoop_deletes_every_ack a api ctx evs w h :
  sqs a = Some api →
  DeleteMessage (conf a) = true →
  (∀ sofar c es err, DeleteMessageBatch api sofar c es ≠ RpcErr err) →
  stop_in evs = true →
  h ∈ acks_of (before_stop evs) →
  ∃ calls call,
    rpcs (final (ackLoop a ctx evs w)) = rpcs w ++ calls ∧
    call ∈ calls ∧ deletes h call.
Proof.
  intros Hsqs Hon Hok Hstop Hh.
  destruct (ackLoop_spec a api ctx evs w Hsqs)
    as (w' & calls & -> & _ & Hlog & _ & _ & _ & _ & Hcover).
  destruct (Hcover Hstop Hon Hok) as (before & batches & rest & -> & Hall).
  assert (Hentry : deleteEntry h ∈ concat batches).
  { rewrite Hall. by apply list_elem_of_fmap_2. }
  apply elem_of_concat in Hentry as (b & Hb & Hbatch).
  exists (before ++ (DeleteMessageBatchInput <$> batches) ++ rest),
         (DeleteMessageBatchInput b).
  split; [exact Hlog|]. split.
  - apply elem_of_app. right. apply elem_of_app. left.
    by apply list_elem_of_fmap_2.
  - by exists (deleteEntry h).
Qed.

Lemma ackLoop_deletes_every_ack_witness :
  ∃ calls call,
    rpcs (final (ackLoop connected Background
                   [ackMessagesChan m1; nackMessagesChan m2; SoftStopChan]
                   three_in_flight))
    = rpcs three_in_flight ++ calls ∧
    call ∈ calls ∧ deletes m1 call.
Proof.
  apply (ackLoop_deletes_every_ack connected quiet_api Background
           [ackMessagesChan m1; nackMessagesChan m2; SoftStopChan]
           three_in_flight m1 eq_refl eq_refl); [done|reflexivity|].
  vm_compute. by left.
Defined.

(** ** The toggles *)

Lemma deleteMessages_toggle a ctx msgs w :
  adds_only (toggle_call a) w (deleteMessages a ctx msgs w).
Proof.
  destruct (DeleteMessage (conf a)) eqn:Hon.
  - destruct (deleteMessages_issues a ctx msgs w) as (batches & Hlog & _).
    exists (DeleteMessageBatchInput <$> batches). split; [done|].
    apply Forall_fmap, Forall_forall. by intros b _.
  - apply adds_only_nothing. unfold deleteMessages. by rewrite Hon.
Qed.

Lemma resetMessages_toggle a ctx msgs w :
  adds_only (toggle_call a) w (resetMessages a ctx msgs w).
Proof.
  destruct (ResetVisibility (conf a)) eqn:Hon.
  - unfold resetMessages, updateVisibilityMessages. rewrite Hon. simpl.
    destruct (updateVisibility_loop_log a ctx 0 (length msgs) msgs w)
      as (batches & m & Hlog & _).
    exists (ChangeMessageVisibilityBatchInput <$> batches). split; [done|].
    apply Forall_fmap, Forall_forall. by intros b _.
  - apply adds_only_nothing. unfold resetMessages. by rewrite Hon.
Qed.

(** Whatever the two senders and the refresh passes may add, the closure
    and the loop may add, and nothing else. *)
Lemma ack_run_adds_only (P : rpc → Prop) a ctx runs :
  (∀ c msgs w, adds_only P w (deleteMessages a c msgs w)) →
  (∀ c msgs w, adds_only P w (resetMessages a c msgs w)) →
  (∀ c run w, run ∈ runs → adds_only P w (go_refreshCurrentHandles a c run w)) →
  ∀ evs s w, passes_in evs ⊆ runs → adds_only P w (ack_run a ctx s evs w).
Proof.
  intros Hdelete Hreset Hrefresh.
  assert (Hflush : ∀ hs (erase : bool) w,
            ensures P (λ _, True) w (flushFinishedHandles a ctx hs erase w)).
  { intros hs erase w. apply ensures_any. unfold flushFinishedHandles.
    case_bool_decide; [by apply adds_only_nothing|].
    destruct erase; (apply adds_only_bind; [done|]);
      intros; by apply adds_only_nothing. }
  assert (Hselect : ∀ s ev w, passes_of [ev] ⊆ runs →
            ensures P (λ _, True) w (ackLoop_select a ctx s ev w)).
  { intros s ev w Hev. destruct ev as [h|h|run|]; cbn [ackLoop_select].
    - eapply ensures_bind; [apply ensures_modify_tracker|]. intros _ w1 _ _.
      eapply ensures_bind; [apply ensures_modify_store|]. intros _ w2 _ _.
      eapply (ensures_bind _ (λ _, True)); [|intros; by apply ensures_ret].
      case_bool_decide; [apply Hflush|by apply ensures_ret].
    - eapply ensures_bind; [apply ensures_modify_tracker|]. intros _ w1 _ _.
      eapply ensures_bind; [apply ensures_modify_store|]. intros _ w2 _ _.
      eapply (ensures_bind _ (λ _, True)); [|intros; by apply ensures_ret].
      case_bool_decide; [apply Hflush|by apply ensures_ret].
    - eapply ensures_bind; [apply Hflush|]. intros _ w1 _ _.
      eapply ensures_bind; [apply Hflush|]. intros _ w2 _ _.
      eapply (ensures_bind _ (λ _, True)); [|intros; by apply ensures_ret].
      apply ensures_any, Hrefresh, Hev. by left.
    - by apply ensures_ret. }
  assert (Hclosure : ∀ mHandle rctx res sel w,
            ensures P (λ _, True) w (ackFn a mHandle rctx res sel w)).
  { intros mHandle rctx res sel w. unfold ackFn.
    destruct mHandle as [h|]; [|by apply ensures_ret].
    destruct res as [err|], sel; try by apply ensures_ret.
    - eapply ensures_bind; [by apply ensures_any|]. intros; by apply ensures_ret.
    - eapply ensures_bind; [by apply ensures_any|]. intros; by apply ensures_ret. }
  induction evs as [|ev evs IH]; intros s w Hruns; [by apply adds_only_nothing|].
  assert (Hlater : passes_in evs ⊆ runs).
  { intros run Hrun. apply Hruns. destruct ev; simpl; [done| |done]. by right. }
  cbn [ack_run]. apply adds_only_bind; [|intros; by apply IH].
  destruct ev as [mHandle rctx res sel|run|]; cbn [ack_step].
  - apply adds_only_bind; [apply Hclosure|].
    intros [err sent] w1 _.
    destruct sent as [[h|h]|], s as [s|]; try by apply adds_only_nothing.
    + apply Hselect. intros run Hrun. by apply elem_of_nil in Hrun.
    + apply Hselect. intros run Hrun. by apply elem_of_nil in Hrun.
  - destruct s as [s|]; [|by apply adds_only_nothing].
    apply Hselect. intros run' Hrun'. apply Hruns.
    apply list_elem_of_singleton in Hrun' as ->. by left.
  - destruct s as [s|]; [|by apply adds_only_nothing].
    apply adds_only_bind; [|intros; by apply adds_only_nothing].
    assert (Hleave : ensures P (λ _, True) w (ackLoop_leave a ctx s w)).
    { unfold ackLoop_leave.
      eapply ensures_bind; [apply Hflush|]. intros _ w1 _ _.
      eapply ensures_bind; [apply Hflush|]. intros _ w2 _ _.
      apply ensures_modify_tracker. }
    exact (proj1 Hleave).
Qed.

(** X10.  The toggles hold for the closure and the flushes of the loop, for
    every reader, client and run: a delete is issued only with
    [DeleteMessage] on, and a visibility change with [ResetVisibility] off
    is never one of theirs.  The refresh passes do not ask the toggle: with
    [ResetVisibility] off the visibility changes of a run are those of the
    passes its ticks start, each with the timeout of its pass for every
    entry.  A run in which every goroutine finds the lock taken issues no
    visibility change with the toggle off. *)
Theorem toggles_respected a closeNowCtx s evs w :
  ∃ calls,
    rpcs (final (ack_run a closeNowCtx s evs w)) = rpcs w ++ calls ∧
    Forall (λ call,
              match call with
              | DeleteMessageBatchInput _ => DeleteMessage (conf a) = true
              | ChangeMessageVisibilityBatchInput Entries =>
                  ResetVisibility (conf a) = true
                  ∨ (∃ now seconds,
                       tick (refreshRuns now seconds) ∈ evs ∧
                       ∀ e, e ∈ Entries → ∃ v, e = visibilityEntry seconds v)
              end) calls ∧
    (no_pass (passes_in evs) →
     Forall (λ call,
               match call with
               | DeleteMessageBatchInput _ => DeleteMessage (conf a) = true
               | ChangeMessageVisibilityBatchInput _ =>
                   ResetVisibility (conf a) = true
               end) calls).
Proof.
  destruct (ack_run_adds_only
              (λ call, toggle_call a call
                       ∨ refreshed (λ _, True) (passes_in evs) call)
              a closeNowCtx (passes_in evs)) with (evs := evs) (s := s) (w := w)
    as (calls & Hlog & Hcalls).
  - intros c msgs w0. eapply adds_only_mono; [|apply deleteMessages_toggle].
    by left.
  - intros c msgs w0. eapply adds_only_mono; [|apply resetMessages_toggle].
    by left.
  - intros c run w0 Hrun.
    eapply adds_only_mono;
      [|by apply (go_refreshCurrentHandles_refreshed (λ _, True))].
    by right.
  - done.
  - exists calls. split; [exact Hlog|]. split.
    + eapply Forall_impl; [exact Hcalls|].
      intros [Entries|Entries] [Hcall|Hcall]; try done.
      * by left.
      * right. destruct Hcall as (now & seconds & Hrun & Hentries).
        exists now, seconds. split.
        -- unfold passes_in in Hrun.
           apply list_elem_of_omap in Hrun as (ev & Hev & Hsome).
           destruct ev; simplify_eq. done.
        -- intros e He. destruct (Hentries e He) as (v & _ & ->). eauto.
    + intros Hnone. eapply Forall_impl; [exact Hcalls|].
      intros [Entries|Entries] [Hcall|Hcall]; try done.
      destruct Hcall as (now & seconds & Hrun & _).
      by apply (proj1 (Forall_forall _ _) Hnone) in Hrun.
Qed.

(** With both toggles off the run of the shutdown scenario issues one call,
    that of the refresh pass its tick starts; when the goroutine finds the
    lock taken it issues nothing.  The loop has still taken the acked handle
    out of the tracker. *)
Example hands_off_run :
  rpcs (final (ack_run hands_off Background (Some ackLoop_start) shutdown_run
                 three_in_flight))
  = [ChangeMessageVisibilityBatchInput
       [visibilityEntry 30 m3; visibilityEntry 30 m2]] ∧
  rpcs (final (ack_run hands_off Background (Some ackLoop_start)
                 shutdown_run_locked three_in_flight)) = [] ∧
  handles (inFlight (final (ack_run hands_off Background (Some ackLoop_start)
                              [callAckFn (Some m1) Background None ackSend]
                              three_in_flight))) !! "m1" = None.
Proof. vm_compute. done. Qed.
(** ** The refresh pass *)

(** [PullToRefresh] on a tracker whose handles have cells of their own. *)
Lemma PullToRefresh_spec t now σ :
  cells_distinct t →
  ∃ σ',
    PullToRefresh t now σ
    = (filter (far_from_expiry t now σ) (map_to_list (handles t)).*2, σ') ∧
    (∀ k v, handles t !! k = Some v → far_from_expiry t now σ v →
            atomic.Load σ' (deadline v) = time.Unix_of (time.Add now (timeout t))) ∧
    (∀ k v, handles t !! k = Some v → ¬ far_from_expiry t now σ v →
            atomic.Load σ' (deadline v) = atomic.Load σ (deadline v)) ∧
    ((∀ k v, handles t !! k = Some v → ¬ far_from_expiry t now σ v) → σ' = σ).
Proof.
  intros Hdist. unfold PullToRefresh.
  set (vs := (map_to_list (handles t)).*2).
  assert (Hin : ∀ v, v ∈ vs ↔ ∃ k, handles t !! k = Some v).
  { intros v. subst vs. rewrite list_elem_of_fmap. split.
    - intros ([k v'] & -> & Hkv). exists k. by apply elem_of_map_to_list.
    - intros [k Hk]. exists (k, v). split; [done|]. by apply elem_of_map_to_list. }
  assert (Hnd : NoDup (deadline <$> vs)).
  { subst vs. rewrite <- list_fmap_compose. apply NoDup_fmap_2_strong.
    - intros [k1 v1] [k2 v2] H1%elem_of_map_to_list H2%elem_of_map_to_list Heq.
      simpl in Heq. assert (k1 = k2) as -> by eauto using Hdist. congruence.
    - apply NoDup_map_to_list. }
  destruct (PullToRefresh_visits t now vs [] σ Hnd) as (σ' & Hfold & Hbump & Hkeep).
  assert (Hnone : (∀ k v, handles t !! k = Some v → ¬ far_from_expiry t now σ v) →
                  foldl (PullToRefresh_visit t now) ([], σ) vs = ([], σ)).
  { intros Hno. assert (Hall : ∀ v, v ∈ vs → ¬ far_from_expiry t now σ v).
    { intros v [k Hk]%Hin. eauto. }
    clear -Hall. generalize (@nil sqsMessageHandle).
    induction vs as [|v vs IH]; intros hs; [done|]. cbn [foldl].
    rewrite PullToRefresh_visit_near by (apply Hall; by left).
    apply IH. intros u Hu. apply Hall. by right. }
  exists σ'. split; [by rewrite Hfold|]. split; [|split].
  - intros k v Hk Hfar. apply Hbump; [|done]. apply Hin. eauto.
  - intros k v Hk Hnear. apply Hkeep. intros u Hu Hu_far Heq.
    apply Hin in Hu as [k' Hk'].
    assert (k' = k) as -> by eauto using Hdist.
    assert (u = v) as -> by congruence. done.
  - intros Hno. rewrite (Hnone Hno) in Hfold. congruence.
Qed.

(** X11.  A refresh pass of a connected reader over a tracker whose handles
    have cells of their own: it returns the number of tracked handles with
    at least half the timeout left; none such, and it makes no call and
    changes nothing.  Otherwise it moves exactly their deadlines to
    [now + timeout] and issues visibility changes only, of at most ten
    entries each, every entry for one of those handles with the given
    number of seconds.  The tracker itself is never changed, and an error
    of the client is not passed on. *)
Theorem refreshCurrentHandles_pass a api ctx now seconds w :
  sqs a = Some api →
  cells_distinct (inFlight w) →
  let t := inFlight w in
  ∃ n batches w',
    refreshCurrentHandles a ctx now seconds w = Val n w' ∧
    inFlight w' = t ∧
    rpcs w' = rpcs w ++ (ChangeMessageVisibilityBatchInput <$> batches) ∧
    (n = 0%nat ↔ ∀ k v, handles t !! k = Some v → ¬ far_from_expiry t now (store w) v) ∧
    (n = 0%nat → batches = [] ∧ w' = w) ∧
    Forall (λ b, (length b ≤ 10)%nat ∧
                 ∀ e, e ∈ b → ∃ k v, handles t !! k = Some v ∧
                                     far_from_expiry t now (store w) v ∧
                                     e = visibilityEntry seconds v) batches ∧
    (∀ k v, handles t !! k = Some v →
            atomic.Load (store w') (deadline v)
            = if decide (far_from_expiry t now (store w) v)
              then time.Unix_of (time.Add now (timeout t))
              else atomic.Load (store w) (deadline v)).
Proof.
  intros Hsqs Hdist t. unfold refreshCurrentHandles.
  unfold_M. cbv beta. simpl. fold t.
  destruct (PullToRefresh_spec t now (store w) Hdist)
    as (σ' & -> & Hbump & Hkeep & Hsame).
  set (vs := (map_to_list (handles t)).*2) in *.
  set (hs := filter (far_from_expiry t now (store w)) vs).
  assert (Hin : ∀ v, v ∈ hs ↔
            (∃ k, handles t !! k = Some v) ∧ far_from_expiry t now (store w) v).
  { intros v. subst hs vs. rewrite list_elem_of_filter, list_elem_of_fmap. split.
    - intros [Hfar ([k v'] & -> & Hkv)]. split; [|done].
      exists k. by apply elem_of_map_to_list.
    - intros [[k Hk] Hfar]. split; [done|].
      exists (k, v). split; [done|]. by apply elem_of_map_to_list. }
  assert (Hnone : length hs = 0%nat ↔
            ∀ k v, handles t !! k = Some v → ¬ far_from_expiry t now (store w) v).
  { rewrite length_zero_iff_nil. split.
    - intros Hnil k v Hk Hfar.
      assert (Hv : v ∈ hs) by (apply Hin; eauto).
      rewrite Hnil in Hv. by apply elem_of_nil in Hv.
    - intros Hno. destruct hs as [|v hs']; [done|].
      destruct (proj1 (Hin v)) as [[k Hk] Hfar]; [by left|].
      by destruct (Hno k v). }
  assert (Hloads : ∀ k v, handles t !! k = Some v →
            atomic.Load σ' (deadline v)
            = if decide (far_from_expiry t now (store w) v)
              then time.Unix_of (time.Add now (timeout t))
              else atomic.Load (store w) (deadline v)).
  { intros k v Hk. case_decide; eauto. }
  case_bool_decide as Hempty.
  - exists 0%nat, [], w.
    assert (σ' = store w) as -> by (apply Hsame, Hnone, Hempty).
    simpl. rewrite app_nil_r. split; [by destruct w|].
    repeat (split; [done|]).
    split; [split; [intros _; by apply Hnone|done]|].
    split; [done|]. split; [constructor|exact Hloads].
  - set (w1 := {| rpcs := rpcs w; store := σ'; inFlight := inFlight w |}).
    destruct (updateVisibility_loop_spec a api ctx seconds (length hs) hs w1 Hsqs)
      as (batches & res & w' & Hrun & Hstore & Htracker & Hlog & Hsizes
          & [m Hcover] & _); [done|].
    unfold updateVisibilityMessages. rewrite Hrun.
    exists (length hs), batches, w'.
    split; [done|]. split; [done|]. split; [done|]. split; [done|].
    split; [done|]. split.
    + pose proof (covered_from (visibilityEntry seconds) (live (store w1))
                    batches m hs Hcover) as Hfrom.
      apply Forall_forall. intros b Hb. split.
      * by eapply Forall_forall in Hsizes.
      * intros e He. eapply Forall_forall in Hfrom; [|exact Hb].
        eapply Forall_forall in Hfrom as (v & Hv & -> & _); [|exact He].
        apply Hin in Hv as [[k Hk] Hfar]. eauto.
    + rewrite Hstore. exact Hloads.
Qed.

Lemma cells_distinct_NoDup t :
  NoDup (deadline <$> (map_to_list (handles t)).*2) → cells_distinct t.
Proof.
  intros Hnd k1 k2 v1 v2 H1%elem_of_map_to_list H2%elem_of_map_to_list Heq.
  apply list_elem_of_lookup in H1 as [i Hi], H2 as [j Hj].
  rewrite <- list_fmap_compose in Hnd.
  assert (i = j) as ->.
  { eapply NoDup_lookup; [exact Hnd| |].
    - rewrite list_lookup_fmap, Hi. reflexivity.
    - rewrite list_lookup_fmap, Hj. simpl. by rewrite Heq. }
  congruence.
Qed.

Lemma refreshCurrentHandles_pass_witness :
  ∃ n batches w',
    refreshCurrentHandles connected Background (time.Unix 1000 0) 30
      {| rpcs := []; store := two_deadlines; inFlight := two_tracked |} = Val n w' ∧
    n = 1%nat ∧
    rpcs w' = ChangeMessageVisibilityBatchInput <$> batches ∧
    atomic.Load (store w') (deadline stale) = 1005.
Proof.
  destruct (refreshCurrentHandles_pass connected quiet_api Background
              (time.Unix 1000 0) 30
              {| rpcs := []; store := two_deadlines; inFlight := two_tracked |} eq_refl)
    as (n & batches & w' & Hrun & _ & Hlog & _ & _ & _ & Hloads).
  { apply cells_distinct_NoDup. vm_compute.
    repeat (constructor; [rewrite ?elem_of_cons, elem_of_nil; intros H; lia|]).
    constructor. }
  exists n, batches, w'. split; [exact Hrun|]. split.
  - vm_compute in Hrun. congruence.
  - split; [exact Hlog|]. by rewrite (Hloads "m2" stale eq_refl).
Defined.




(** ** [addSQSMetadata] and [Read] *)

Lemma addSQSMetadata_spec p sqsMsg messageId receipt :
  types.MessageId sqsMsg = Some messageId →
  types.ReceiptHandle sqsMsg = Some receipt →
  ∃ p', addSQSMetadata p sqsMsg = Some p' ∧
        service.content p' = service.content p ∧
        ∀ k, service.metadata p' !! k = metadata_of p sqsMsg messageId receipt k.
Proof.
  intros Hid Hreceipt. unfold addSQSMetadata. rewrite Hid, Hreceipt.
  eexists. split; [reflexivity|].
  set (base := match types.Attributes sqsMsg !! "ApproximateReceiveCount" with
               | Some rCountStr => _
               | None => _
               end).
  assert (Hbase : service.content base = service.content p ∧
            ∀ k, service.metadata base !! k
                 = match types.Attributes sqsMsg !! "ApproximateReceiveCount" with
                   | Some rCountStr =>
                       if decide (k = "sqs_approximate_receive_count")
                       then Some rCountStr
                       else if decide (k = "sqs_receipt_handle") then Some receipt
                       else if decide (k = "sqs_message_id") then Some messageId
                       else service.metadata p !! k
                   | None =>
                       if decide (k = "sqs_receipt_handle") then Some receipt
                       else if decide (k = "sqs_message_id") then Some messageId
                       else service.metadata p !! k
                   end).
  { subst base.
    destruct (types.Attributes sqsMsg !! "ApproximateReceiveCount");
      (split; [done|]); intros k; simpl; rewrite !lookup_insert;
      repeat case_decide; by simplify_eq. }
  destruct Hbase as [Hcontent Hbase]. unfold metadata_of.
  set (visit := λ (k : string) (v : types.MessageAttributeValue) (p : service.Message),
                  match types.StringValue v with
                  | Some s => service.MetaSetMut k s p
                  | None => p
                  end).
  assert (Hfold : service.content (map_fold visit base (types.MessageAttributes sqsMsg))
                  = service.content p ∧
            ∀ k, service.metadata (map_fold visit base (types.MessageAttributes sqsMsg))
                 !! k
                 = match types.MessageAttributes sqsMsg !! k ≫= types.StringValue with
                   | Some s => Some s
                   | None => service.metadata base !! k
                   end).
  { apply (map_fold_weak_ind
             (λ r m, service.content r = service.content p ∧
                     ∀ k, service.metadata r !! k
                          = match m !! k ≫= types.StringValue with
                            | Some s => Some s
                            | None => service.metadata base !! k
                            end)).
    - split; [done|]. intros k. by rewrite lookup_empty.
    - intros i x m r Hfresh [Hr_content Hr]. subst visit. split.
      + by destruct (types.StringValue x).
      + intros k. destruct (decide (k = i)) as [->|Hne].
        * rewrite lookup_insert_eq. simpl.
          destruct (types.StringValue x) as [s|]; simpl.
          -- by rewrite lookup_insert_eq.
          -- by rewrite Hr, Hfresh.
        * rewrite lookup_insert_ne by done.
          destruct (types.StringValue x) as [s|]; simpl; [|apply Hr].
          rewrite lookup_insert_ne by done. apply Hr. }
  destruct Hfold as [Hfold_content Hfold]. split; [exact Hfold_content|].
  intros k. rewrite Hfold. destruct (_ ≫= _); [done|]. apply Hbase.
Qed.

(** X13.  [Read] of a message that has a body, an id and a receipt handle
    returns it without an error, with the body as content and with the
    closure over the handle of the message.  Its metadata are, key by key:
    the string value of the message attribute of that name if there is one
    -- also under the three fixed names, which an attribute can shadow --,
    else the receive count, the receipt handle and the message id under
    their names; attributes without a string value leave no key. *)
Theorem Read_metadata a api ctx next body messageId receipt :
  sqs a = Some api →
  types.Body (Message next) = Some body →
  types.MessageId (Message next) = Some messageId →
  types.ReceiptHandle (Message next) = Some receipt →
  ∃ msg,
    Read a ctx (messagesChan next true)
    = ReadReturns (Some msg) (Some (ackFn a (handle next))) None ∧
    service.content msg = body ∧
    ∀ k, service.metadata msg !! k
         = metadata_of (service.NewMessage body) (Message next) messageId receipt k.
Proof.
  intros Hsqs Hbody Hid Hreceipt.
  destruct (addSQSMetadata_spec (service.NewMessage body) (Message next)
              messageId receipt Hid Hreceipt) as (msg & Hmeta & Hcontent & Hlookup).
  exists msg. unfold Read. rewrite Hsqs, Hbody, Hmeta. by repeat split.
Qed.

Lemma Read_metadata_witness :
  ∃ msg,
    Read connected Background
      (messagesChan {| Message := shadowing; handle := Some m1 |} true)
    = ReadReturns (Some msg) (Some (ackFn connected (Some m1))) None ∧
    service.content msg = "hello" ∧
    service.metadata msg !! "sqs_message_id" = Some "spoofed" ∧
    service.metadata msg !! "sqs_receipt_handle" = Some "r1" ∧
    service.metadata msg !! "sqs_approximate_receive_count" = Some "3" ∧
    service.metadata msg !! "tenant" = Some "acme" ∧
    service.metadata msg !! "binary" = None.
Proof.
  destruct (Read_metadata connected quiet_api Background
              {| Message := shadowing; handle := Some m1 |} "hello" "m1" "r1"
              eq_refl eq_refl eq_refl eq_refl) as (msg & Hread & Hcontent & Hlookup).
  exists msg. split; [exact Hread|]. split; [exact Hcontent|].
  rewrite !Hlookup. vm_compute. repeat split.
Defined.

(** X14.  Whatever branch its [select] takes among those that are ready,
    [Read] returns a message exactly when it returns an ack function and
    exactly when it returns no error: never a message with an error, never
    nothing at all. *)
Theorem Read_message_or_error a ctx sel msg ack err :
  readSelect_ready a ctx sel = true →
  Read a ctx sel = ReadReturns msg ack err →
  (is_Some msg ↔ is_Some ack) ∧ (is_Some msg ↔ err = None).
Proof.
  unfold Read, readSelect_ready. intros Hready Hread.
  assert (Hnone : ∀ e : error,
            (is_Some (@None service.Message) ↔ is_Some (@None AckFunc)) ∧
            (is_Some (@None service.Message) ↔ Some e = None)).
  { intros e. split; split; intros H; try done; by destruct H. }
  destruct (sqs a) as [api|]; [|simplify_eq; apply Hnone].
  destruct sel as [next [|]| |]; simpl in *.
  - destruct (types.Body (Message next)) as [body|]; [|simplify_eq; apply Hnone].
    destruct (addSQSMetadata _ _); [|done].
    simplify_eq. by repeat split.
  - simplify_eq. apply Hnone.
  - simplify_eq. apply Hnone.
  - apply bool_decide_eq_true in Hready as [e He].
    rewrite He in Hread. simplify_eq. apply Hnone.
Qed.

Lemma Read_message_or_error_witness :
  (is_Some (@None service.Message) ↔ is_Some (@None AckFunc)) ∧
  (is_Some (@None service.Message) ↔ Some Canceled = None).
Proof.
  apply (Read_message_or_error connected cancelled ctxDone None None (Some Canceled));
    reflexivity.
Defined.

(** The closure under the soft stop, and the refresh of two tracked
    handles, on the scenarios above. *)
Lemma ackFn_soft_stop_witness :
  rpcs (final (ackFn stopping (Some m1) Background None ackSoftStop three_in_flight))
  = rpcs three_in_flight ++ [DeleteMessageBatchInput [deleteEntry m1]] ∧
  rpcs (final (ackFn stopping (Some m1) Background (Some (ErrOther "failed"))
                 ackSoftStop three_in_flight))
  = rpcs three_in_flight ++ [ChangeMessageVisibilityBatchInput [visibilityEntry 0 m1]].
Proof.
  destruct (ackFn_soft_stop stopping quiet_api m1 Background three_in_flight
              eq_refl eq_refl eq_refl) as [Hack Hnack].
  split; [exact Hack|]. apply Hnack. reflexivity.
Defined.

Lemma PullToRefresh_takes_far_from_expiry_witness :
  let '(hs, σ') := PullToRefresh two_tracked (time.Unix 1000 0) two_deadlines in
  (∀ v, v ∈ hs ↔ (∃ k, handles two_tracked !! k = Some v)
                 ∧ far_from_expiry two_tracked (time.Unix 1000 0) two_deadlines v) ∧
  (∀ v, v ∈ hs →
        atomic.Load σ' (deadline v)
        = time.Unix_of (time.Add (time.Unix 1000 0) (timeout two_tracked))) ∧
  (∀ k v, handles two_tracked !! k = Some v → v ∉ hs →
          atomic.Load σ' (deadline v) = atomic.Load two_deadlines (deadline v)).
Proof.
  apply (PullToRefresh_takes_far_from_expiry two_tracked (time.Unix 1000 0)
           two_deadlines).
  apply cells_distinct_NoDup. vm_compute.
  repeat (constructor; [rewrite ?elem_of_cons, elem_of_nil; intros H; lia|]).
  constructor.
Defined.

(** ** [readLoop] *)

Lemma sent_of_app acts acts' : sent_of (acts ++ acts') = sent_of acts ++ sent_of acts'.
Proof. unfold sent_of. apply omap_app. Qed.

Lemma received_of_app acts acts' :
  received_of (acts ++ acts') = received_of acts ++ received_of acts'.
Proof. unfold received_of. apply bind_app. Qed.

(** The loop over the answer of the queue, from any position of the clock
    and any store. *)
Lemma getMsgs_wrap_spec a clock Messages : ∀ i σ new σ',
  getMsgs_wrap a clock i Messages σ = (new, σ') →
  Message <$> new = Messages ∧
  Forall wrapped new ∧
  (∀ l, l ∈ dom σ → l ∈ dom σ' ∧ σ' !! l = σ !! l) ∧
  (∀ h, h ∈ omap handle new → (deadline h ∉ dom σ) ∧ deadline h ∈ dom σ') ∧
  NoDup (deadline <$> omap handle new) ∧
  (∀ j m h, new !! j = Some m → handle m = Some h →
     atomic.Load σ' (deadline h)
     = time.Unix_of (time.Add (clock (i + j)%nat) (MessageTimeout (conf a)))).
Proof.
  induction Messages as [|msg Messages IH]; intros i σ new σ' Hwrap.
  { simpl in Hwrap. simplify_eq. simpl.
    split; [done|]. split; [constructor|]. split; [done|].
    split; [by intros h ?%elem_of_nil|]. split; [constructor|done]. }
  cbn [getMsgs_wrap] in Hwrap.
  destruct (pendingMsg a (clock i) (base.fresh (dom σ)) msg σ) as [m σ1] eqn:Hm.
  destruct (getMsgs_wrap a clock (S i) Messages σ1) as [ms σ2] eqn:Hms.
  injection Hwrap as <- <-.
  destruct (IH _ _ _ _ Hms) as (Hmsgs & Hwrapped & Hkeep & Hfresh & Hnd & Hload).
  pose proof (is_fresh (dom σ)) as Hl.
  assert (Hlater : ∀ j m' h, (m :: ms) !! S j = Some m' → handle m' = Some h →
            atomic.Load σ2 (deadline h)
            = time.Unix_of (time.Add (clock (i + S j)%nat) (MessageTimeout (conf a)))).
  { intros j m' h Hj Hh. rewrite (Hload j m' h Hj Hh). do 3 f_equal. lia. }
  unfold pendingMsg in Hm.
  destruct (types.MessageId msg) as [i0|] eqn:Hid;
    [destruct (types.ReceiptHandle msg) as [r|] eqn:Hreceipt|];
    injection Hm as <- <-.
  - set (l := base.fresh (dom σ)) in *.
    set (σ1 := sqsMessageDeadline.Store σ l (time.Add (clock i) (MessageTimeout (conf a)))) in *.
    assert (Hdom : ∀ l', l' ∈ dom σ1 ↔ l' = l ∨ l' ∈ dom σ).
    { intros l'. subst σ1. unfold sqsMessageDeadline.Store, atomic.Store.
      by rewrite dom_insert, elem_of_union, elem_of_singleton. }
    assert (Hl1 : l ∈ dom σ1) by (apply Hdom; by left).
    cbn [fmap list_fmap omap list_omap handle Message].
    split; [by rewrite <- Hmsgs|]. split; [by constructor|].
    split; [|split; [|split]].
    + intros l' Hl'. assert (Hl'1 : l' ∈ dom σ1) by (apply Hdom; by right).
      destruct (Hkeep l' Hl'1) as [Hin ->]. split; [done|].
      subst σ1. unfold sqsMessageDeadline.Store, atomic.Store.
      apply lookup_insert_ne. by intros ->.
    + intros h [->|Hh]%elem_of_cons.
      * simpl. split; [done|]. by apply Hkeep.
      * destruct (Hfresh h Hh) as [Hnot Hin]. split; [|done].
        intros Hold. apply Hnot, Hdom. by right.
    + simpl. constructor; [|done].
      intros (h & Hh & Hin)%list_elem_of_fmap.
      destruct (Hfresh h Hin) as [Hnot _]. by rewrite <- Hh in Hnot.
    + intros [|j] m' h Hj Hh; [|by apply (Hlater j m')].
      injection Hj as <-. injection Hh as <-. simpl. unfold atomic.Load.
      destruct (Hkeep l Hl1) as [_ ->]. subst σ1.
      unfold sqsMessageDeadline.Store, atomic.Store.
      rewrite lookup_insert_eq. simpl. by rewrite Nat.add_0_r.
  - cbn [fmap list_fmap omap list_omap handle Message].
    split; [by rewrite <- Hmsgs|].
    split; [constructor; [by right|done]|].
    split; [done|]. split; [done|]. split; [done|].
    intros [|j] m' h Hj Hh; [|by apply (Hlater j m')].
    by injection Hj as <-.
  - cbn [fmap list_fmap omap list_omap handle Message].
    split; [by rewrite <- Hmsgs|].
    split; [constructor; [by left|done]|].
    split; [done|]. split; [done|]. split; [done|].
    intros [|j] m' h Hj Hh; [|by apply (Hlater j m')].
    by injection Hj as <-.
Qed.

(** The deferred function of a connected reader returns, leaves the store
    and the tracker alone, and hands back what is pending. *)
Lemma readLoop_deferred_spec a api closeNowCtx s w :
  sqs a = Some api →
  ∃ calls w',
    readLoop_deferred a closeNowCtx s w = Val () w' ∧
    store w' = store w ∧ inFlight w' = inFlight w ∧
    rpcs w' = rpcs w ++ calls ∧
    hands_back a api closeNowCtx (rpcs w) (store w) (pendingMsgs s) calls.
Proof.
  intros Hsqs. unfold readLoop_deferred. case_bool_decide as Hlen.
  - destruct (resetMessages_spec a api closeNowCtx (omap handle (pendingMsgs s)) w Hsqs)
      as (batches & res & w' & Hrun & Hstore & Htracker & Hlog & Hon & Hsizes
          & Hcover & Hall & Hempty & Hanswers & Hnone & Hfull & Hlast & Hfailed).
    exists (ChangeMessageVisibilityBatchInput <$> batches), w'.
    unfold_M. rewrite Hrun. repeat (split; [done|]).
    exists batches. repeat (split; [done|]).
    split; [|split; [done|]; split; [|split; [done|]; split; [done|]; split]].
    + destruct (ResetVisibility (conf a)) eqn:Hreset.
      * rewrite (Hempty eq_refl). split; [by right|]. by intros [?|?].
      * split; [by left|]. intros _. destruct batches; [done|].
        by discriminate Hon.
    + intros i b Hb Hi. split; [by apply (Hfull i)|].
      apply Hanswers; [done|by left].
    + intros Hreset Hok. apply Hnone; [|done].
      destruct res as [err|]; [|done].
      destruct (Hfailed err eq_refl) as (before & b & Hbatches & Herr).
      destruct (Hok before b Hbatches) as [rejected Hrejected]. congruence.
    + intros Hreset [_ Hok]. by apply Hall.
  - exists [], w. rewrite app_nil_r. repeat (split; [done|]).
    destruct (pendingMsgs s); [|simpl in Hlen; lia].
    exists []. repeat (split; [done|]).
    split; [split; [by right|done]|]. split; [constructor|].
    split; [by intros [] b Hb|]. split; [by exists 0%nat|].
    split; [|done]. intros _. exists 0%nat. split; [done|by left].
Qed.

(** The [select] of a turn. *)
Lemma readLoop_select_spec a api closeNowCtx env s w :
  sqs a = Some api →
  ∃ p acts w',
    readLoop_select a closeNowCtx env s w = Val (p, acts) w' ∧
    store w' = store w ∧ inFlight w' = inFlight w ∧
    sent_of acts ++ pending_of p = pendingMsgs s ∧
    received_of acts = [] ∧
    if onSoftStop env then
      (∃ s', p = readLoopReturned s') ∧ acts = [] ∧
      ∃ calls, rpcs w' = rpcs w ++ calls ∧
               hands_back a api closeNowCtx (rpcs w) (store w) (pendingMsgs s) calls
    else
      rpcs w' = rpcs w ∧
      (∃ s', p = atFor s') ∧
      acts = match pendingMsgs s with [] => [] | next :: _ => [Sent next] end.
Proof.
  intros Hsqs. unfold readLoop_select.
  destruct (pendingMsgs s) as [|next rest] eqn:Hpending;
    destruct (onSoftStop env).
  - destruct (readLoop_deferred_spec a api closeNowCtx
                {| pendingMsgs := []; backoffs := S (backoffs s) |} w Hsqs)
      as (calls & w' & Hrun & Hstore & Htracker & Hlog & Hback).
    eexists _, _, w'. unfold_M. rewrite Hrun.
    repeat (split; [done|]). split; [by eexists|]. split; [done|].
    exists calls. by split.
  - eexists _, _, w. repeat (split; [done|]). split; [by eexists|done].
  - destruct (readLoop_deferred_spec a api closeNowCtx s w Hsqs)
      as (calls & w' & Hrun & Hstore & Htracker & Hlog & Hback).
    eexists _, _, w'. unfold_M. rewrite Hrun.
    repeat (split; [done|]). split; [by eexists|]. split; [done|].
    exists calls. rewrite Hpending in Hback. by split.
  - eexists _, _, w. repeat (split; [done|]). split; [by eexists|done].
Qed.

(** [AddNew] inside [getMsgs] and the rest of the turn. *)
Lemma readLoop_AddNew_spec a api closeNowCtx env s messages w :
  sqs a = Some api →
  ∃ p acts w',
    readLoop_AddNew a closeNowCtx env s messages w = Val (p, acts) w' ∧
    store w' = store w ∧
    inFlight w' = AddNew_tracker (closeAtLeisureCtx env) messages (inFlight w) ∧
    sent_of acts ++ pending_of p = pendingMsgs s ∧
    received_of acts = [] ∧
    match AddNew (closeAtLeisureCtx env) messages (inFlight w) with
    | Parked => p = inWait s messages ∧ acts = [] ∧ rpcs w' = rpcs w
    | _ =>
        if onSoftStop env then
          (∃ s', p = readLoopReturned s') ∧ acts = [] ∧
          ∃ calls, rpcs w' = rpcs w ++ calls ∧
                   hands_back a api closeNowCtx (rpcs w)
                     (store w) (pendingMsgs s) calls
        else
          rpcs w' = rpcs w ∧
          (∃ s', p = atFor s') ∧
          acts = match pendingMsgs s with [] => [] | next :: _ => [Sent next] end
    end.
Proof.
  intros Hsqs. unfold readLoop_AddNew, AddNew_tracker. unfold_M.
  destruct (AddNew (closeAtLeisureCtx env) messages (inFlight w)) as [t'| |] eqn:Hadd.
  - destruct (readLoop_select_spec a api closeNowCtx env (backoff_Reset s)
                {| rpcs := rpcs w; store := store w; inFlight := t' |} Hsqs)
      as (p & acts & w' & Hrun & Hstore & Htracker & Hkeep & Hrecv & Hsel).
    exists p, acts, w'. by rewrite Hrun.
  - destruct (readLoop_select_spec a api closeNowCtx env (backoff_Reset s) w Hsqs)
      as (p & acts & w' & Hrun & Hstore & Htracker & Hkeep & Hrecv & Hsel).
    exists p, acts, w'. by rewrite Hrun.
  - eexists _, _, w. by repeat split.
Qed.

(** A turn that asks the queue and gets messages: they are wrapped, and the
    call of [AddNew] is made with exactly them. *)
Lemma readLoop_turn_poll a api closeNowCtx s env Messages w :
  sqs a = Some api →
  pendingMsgs s = [] →
  reply env = ReceiveOk Messages →
  Messages ≠ [] →
  let new := (getMsgs_wrap a (clock env) 0 Messages (store w)).1 in
  let σ' := (getMsgs_wrap a (clock env) 0 Messages (store w)).2 in
  readLoop_turn a closeNowCtx (atFor s) env w
  = match readLoop_AddNew a closeNowCtx env
            {| pendingMsgs := new; backoffs := backoffs s |} new
            {| rpcs := rpcs w; store := σ'; inFlight := inFlight w |} with
    | Val (p, acts) w' => Val (p, Received Messages :: acts) w'
    | Panic w' => Panic w'
    | OutOfFuel w' => OutOfFuel w'
    end.
Proof.
  intros Hsqs Hpending Hreply Hsome. cbv zeta.
  unfold readLoop_turn. rewrite Hpending, Hsqs, Hreply. simpl.
  rewrite bool_decide_true by (destruct Messages; [done|simpl; lia]).
  unfold_M.
  destruct (getMsgs_wrap a (clock env) 0 Messages (store w)) as [new σ'] eqn:Hwrap.
  destruct (getMsgs_wrap_spec _ _ _ _ _ _ _ Hwrap) as (Hmsgs & _).
  assert (Hlen : length new = length Messages) by (by rewrite <- Hmsgs, length_fmap).
  simpl. rewrite Hlen, Nat.sub_diag, drop_0.
  by destruct (readLoop_AddNew _ _ _ _ _ _) as [[p acts] w'| |].
Qed.

(** One turn of a connected reader, from any point: it comes back; the
    messages sent and those still held are, in order, those held before and
    those received, every one wrapped as [getMsgs] does; and calls are made
    only by the turn that returns, to hand back what is held. *)
Lemma readLoop_turn_spec a api closeNowCtx p env w :
  sqs a = Some api →
  ∃ p' acts w',
    readLoop_turn a closeNowCtx p env w = Val (p', acts) w' ∧
    Message <$> (sent_of acts ++ pending_of p')
    = (Message <$> pending_of p) ++ received_of acts ∧
    (Forall wrapped (pending_of p) → Forall wrapped (sent_of acts ++ pending_of p')) ∧
    match p' with
    | readLoopReturned s' =>
        (p = p' ∧ w' = w ∧ acts = []) ∨
        (onSoftStop env = true ∧ sent_of acts = [] ∧
         ∃ calls, rpcs w' = rpcs w ++ calls ∧
                  hands_back a api closeNowCtx (rpcs w)
                    (store w') (pendingMsgs s') calls)
    | inWait _ _ => rpcs w' = rpcs w
    | atFor _ => rpcs w' = rpcs w ∧ onSoftStop env = false
    end.
Proof.
  intros Hsqs.
  assert (Hselect : ∀ s, ∃ p' acts w',
    readLoop_select a closeNowCtx env s w = Val (p', acts) w' ∧
    Message <$> (sent_of acts ++ pending_of p')
    = (Message <$> pendingMsgs s) ++ received_of acts ∧
    (Forall wrapped (pendingMsgs s) → Forall wrapped (sent_of acts ++ pending_of p')) ∧
    match p' with
    | readLoopReturned s' =>
        (onSoftStop env = true ∧ sent_of acts = [] ∧
         ∃ calls, rpcs w' = rpcs w ++ calls ∧
                  hands_back a api closeNowCtx (rpcs w)
                    (store w') (pendingMsgs s') calls)
    | inWait _ _ => rpcs w' = rpcs w
    | atFor _ => rpcs w' = rpcs w ∧ onSoftStop env = false
    end).
  { intros s.
    destruct (readLoop_select_spec a api closeNowCtx env s w Hsqs)
      as (p' & acts & w' & Hrun & Hstore & _ & Hkeep & Hrecv & Hsel).
    exists p', acts, w'. split; [done|].
    rewrite Hkeep, Hrecv, app_nil_r. split; [done|]. split; [done|].
    destruct (onSoftStop env).
    - destruct Hsel as ([s' ->] & -> & calls & Hlog & Hback).
      simpl in *. rewrite Hstore, Hkeep. eauto.
    - by destruct Hsel as (Hlog & [s' ->] & _). }
  assert (Hadd : ∀ s messages w0, rpcs w0 = rpcs w → ∃ p' acts w',
    readLoop_AddNew a closeNowCtx env s messages w0 = Val (p', acts) w' ∧
    sent_of acts ++ pending_of p' = pendingMsgs s ∧
    received_of acts = [] ∧
    match p' with
    | readLoopReturned s' =>
        (onSoftStop env = true ∧ sent_of acts = [] ∧
         ∃ calls, rpcs w' = rpcs w ++ calls ∧
                  hands_back a api closeNowCtx (rpcs w)
                    (store w') (pendingMsgs s') calls)
    | inWait _ _ => rpcs w' = rpcs w
    | atFor _ => rpcs w' = rpcs w ∧ onSoftStop env = false
    end).
  { intros s messages w0 Hw0.
    destruct (readLoop_AddNew_spec a api closeNowCtx env s messages w0 Hsqs)
      as (p' & acts & w' & Hrun & Hstore & _ & Hkeep & Hrecv & Hsel).
    exists p', acts, w'. repeat (split; [done|]).
    destruct (AddNew _ _ _);
      [destruct (onSoftStop env)|destruct (onSoftStop env)|].
    - destruct Hsel as ([s' ->] & -> & calls & Hlog & Hback).
      simpl in *. rewrite Hstore, Hkeep, <- Hw0. eauto.
    - destruct Hsel as (Hlog & [s' ->] & _). split; [congruence|done].
    - destruct Hsel as ([s' ->] & -> & calls & Hlog & Hback).
      simpl in *. rewrite Hstore, Hkeep, <- Hw0. eauto.
    - destruct Hsel as (Hlog & [s' ->] & _). split; [congruence|done].
    - destruct Hsel as (-> & _ & Hlog). congruence. }
  destruct p as [s|s messages|s].
  - destruct (pendingMsgs s) as [|next rest] eqn:Hpending.
    + destruct (reply env) as [err|Messages] eqn:Hreply.
      * unfold readLoop_turn. rewrite Hpending, Hsqs, Hreply. simpl.
        destruct (Hselect s) as (p' & acts & w' & Hrun & Hkeep & Hwrapped & Hcalls).
        exists p', acts, w'. rewrite Hpending in *. split; [done|].
        split; [done|]. split; [done|].
        destruct p'; try done. by right.
      * destruct Messages as [|msg Messages].
        -- unfold readLoop_turn. rewrite Hpending, Hsqs, Hreply. simpl.
           set (s1 := if bool_decide (0 < WaitTimeSeconds (conf a))
                      then backoff_Reset s else s).
           assert (Hs1 : pendingMsgs s1 = [])
             by (subst s1; by case_bool_decide).
           destruct (Hselect s1) as (p' & acts & w' & Hrun & Hkeep & Hwrapped & Hcalls).
           exists p', acts, w'. rewrite Hs1 in Hkeep, Hwrapped. rewrite Hpending.
           split; [done|].
           split; [done|]. split; [done|].
           destruct p'; try done. by right.
        -- rewrite (readLoop_turn_poll a api closeNowCtx s env (msg :: Messages) w
                      Hsqs Hpending Hreply) by done.
           destruct (getMsgs_wrap a (clock env) 0 (msg :: Messages) (store w))
             as [new σ'] eqn:Hwrap.
           destruct (getMsgs_wrap_spec _ _ _ _ _ _ _ Hwrap)
             as (Hmsgs & Hwrapped & _).
           cbn [fst snd].
           destruct (Hadd {| pendingMsgs := new; backoffs := backoffs s |} new
                       {| rpcs := rpcs w; store := σ'; inFlight := inFlight w |} eq_refl)
             as (p' & acts & w' & Hrun & Hkeep & Hrecv & Hcalls).
           exists p', (Received (msg :: Messages) :: acts), w'.
           rewrite Hrun. split; [done|].
           change (sent_of (Received (msg :: Messages) :: acts)) with (sent_of acts).
           change (received_of (Received (msg :: Messages) :: acts))
             with ((msg :: Messages) ++ received_of acts).
           rewrite Hkeep, Hrecv, app_nil_r. simpl in *. rewrite Hpending. simpl.
           split; [done|]. split; [done|].
           destruct p'; try done. by right.
    + unfold readLoop_turn. rewrite Hpending. simpl.
      destruct (Hselect s) as (p' & acts & w' & Hrun & Hkeep & Hwrapped & Hcalls).
      exists p', acts, w'. rewrite Hpending in *. split; [done|].
      split; [done|]. split; [done|].
      destruct p'; try done. by right.
  - destruct (Hadd s messages w eq_refl)
      as (p' & acts & w' & Hrun & Hkeep & Hrecv & Hcalls).
    exists p', acts, w'. simpl. split; [done|].
    rewrite Hkeep, Hrecv, app_nil_r. split; [done|]. split; [done|].
    destruct p'; try done. by right.
  - exists (readLoopReturned s), [], w. simpl. rewrite app_nil_r.
    split; [done|]. split; [done|]. split; [done|]. by left.
Qed.

(** The loop over its turns, from any point. *)
Lemma readLoop_for_spec a api closeNowCtx envs : ∀ p w,
  sqs a = Some api →
  ∃ p' acts w',
    readLoop_for a closeNowCtx p envs w = Val (p', acts) w' ∧
    Message <$> (sent_of acts ++ pending_of p')
    = (Message <$> pending_of p) ++ received_of acts ∧
    (Forall wrapped (pending_of p) → Forall wrapped (sent_of acts ++ pending_of p')).
Proof.
  induction envs as [|env envs IH]; intros p w Hsqs.
  { exists p, [], w. simpl. by rewrite app_nil_r. }
  destruct (readLoop_turn_spec a api closeNowCtx p env (meanwhile env w) Hsqs)
    as (p1 & acts1 & w1 & Hturn & Hkeep1 & Hwrapped1 & _).
  destruct (IH p1 w1 Hsqs) as (p2 & acts2 & w2 & Hrun & Hkeep2 & Hwrapped2).
  exists p2, (acts1 ++ acts2), w2.
  cbn [readLoop_for]. unfold_M. rewrite Hturn, Hrun.
  split; [done|].
  rewrite sent_of_app, received_of_app.
  rewrite !fmap_app in *. split.
  - rewrite <- (assoc_L (++)), Hkeep2, (assoc_L (++)), Hkeep1.
    by rewrite <- !(assoc_L (++)).
  - intros Hp. rewrite <- (assoc_L (++)).
    specialize (Hwrapped1 Hp). apply Forall_app in Hwrapped1 as [Hsent1 Hp1].
    apply Forall_app. split; [done|]. by apply Hwrapped2.
Qed.

(** X17.  Whatever the other goroutines do and whatever the answers of the
    queue, a run of [readLoop] of a connected reader comes back, and the
    messages it has sent to [Read] followed by those it still holds are
    exactly the messages it received, in the order of their arrival, none
    lost and none twice; each of them has a handle exactly when it came
    with both an id and a receipt handle. *)
Theorem readLoop_in_order a api closeNowCtx envs w :
  sqs a = Some api →
  ∃ p acts w',
    readLoop a closeNowCtx envs w = Val (p, acts) w' ∧
    Message <$> (sent_of acts ++ pending_of p) = received_of acts ∧
    Forall wrapped (sent_of acts ++ pending_of p).
Proof.
  intros Hsqs.
  destruct (readLoop_for_spec a api closeNowCtx envs readLoop_start w Hsqs)
    as (p & acts & w' & Hrun & Hkeep & Hwrapped).
  exists p, acts, w'. split; [done|]. split; [done|].
  apply Hwrapped. constructor.
Qed.

Lemma readLoop_in_order_witness :
  ∃ p acts w',
    readLoop connected Background [turn_receiving answer; turn_sending; turn_leaving]
      empty_world = Val (p, acts) w' ∧
    Message <$> (sent_of acts ++ pending_of p) = received_of acts ∧
    Forall wrapped (sent_of acts ++ pending_of p).
Proof. apply (readLoop_in_order connected quiet_api). reflexivity. Defined.

(** That run, call by call: the first two messages are sent on, the one
    without a receipt handle bare; the third is handed back to the queue
    when the loop returns. *)
Example readLoop_run :
  let r := readLoop connected Background
             [turn_receiving answer; turn_sending; turn_leaving] empty_world in
  ∃ p acts w', r = Val (p, acts) w' ∧
    sent_of acts
    = [ {| Message := Message one_message;
           handle := Some {| id := "m1"; receiptHandle := "r1"; deadline := 0%nat |} |};
        {| Message := no_receipt; handle := None |} ] ∧
    rpcs w'
    = [ChangeMessageVisibilityBatchInput
         [visibilityEntry 0 {| id := "m2"; receiptHandle := "r2"; deadline := 1%nat |}]].
Proof. vm_compute. eexists _, _, _. split; [reflexivity|]. split; reflexivity. Qed.

(** X18.  A turn of [readLoop] of a connected reader comes back, and it
    calls the queue client only when it returns: a turn that goes on or
    parks adds nothing to the log; the loop returns only when a [select]
    takes the soft stop, it then sends nothing, and its calls hand back the
    messages it still holds, those received in this very turn included.
    Handing back is [hands_back]: no call at all when it holds no message
    with a handle or [ResetVisibility] is off, and at least one otherwise;
    visibility changes to 0 for the handles that do not read as deleted, in
    order, ten to a call but for the last; every call but the last was
    answered, so that the calls stop at one that fails; and every such
    handle is handed back when the last call is answered too. *)
Theorem readLoop_hands_back a api closeNowCtx p env w :
  sqs a = Some api →
  ∃ p' acts w',
    readLoop_turn a closeNowCtx p env w = Val (p', acts) w' ∧
    match p' with
    | readLoopReturned s' =>
        (p = p' ∧ w' = w ∧ acts = []) ∨
        (onSoftStop env = true ∧ sent_of acts = [] ∧
         ∃ calls, rpcs w' = rpcs w ++ calls ∧
                  hands_back a api closeNowCtx (rpcs w)
                    (store w') (pendingMsgs s') calls)
    | inWait _ _ => rpcs w' = rpcs w
    | atFor _ => rpcs w' = rpcs w ∧ onSoftStop env = false
    end.
Proof.
  intros Hsqs.
  destruct (readLoop_turn_spec a api closeNowCtx p env w Hsqs)
    as (p' & acts & w' & Hrun & _ & _ & Hcalls).
  by exists p', acts, w'.
Qed.

Lemma readLoop_hands_back_witness :
  ∃ p' acts w',
    readLoop_turn connected Background
      (atFor {| pendingMsgs := [one_message]; backoffs := 0 |}) turn_leaving
      three_in_flight = Val (p', acts) w' ∧
    match p' with
    | readLoopReturned s' =>
        (atFor {| pendingMsgs := [one_message]; backoffs := 0 |} = p' ∧
         w' = three_in_flight ∧ acts = []) ∨
        (onSoftStop turn_leaving = true ∧ sent_of acts = [] ∧
         ∃ calls, rpcs w' = rpcs three_in_flight ++ calls ∧
                  hands_back connected quiet_api Background (rpcs three_in_flight)
                    (store w') (pendingMsgs s') calls)
    | inWait _ _ => rpcs w' = rpcs three_in_flight
    | atFor _ => rpcs w' = rpcs three_in_flight ∧ onSoftStop turn_leaving = false
    end.
Proof. apply (readLoop_hands_back connected quiet_api). reflexivity. Defined.

(** Leaving with nothing held, and leaving with a message held but
    [ResetVisibility] off: no call is made. *)
Example readLoop_leaves_quietly :
  (∃ s' w', readLoop_turn connected Background readLoop_start turn_leaving
              three_in_flight = Val (readLoopReturned s', []) w' ∧
            rpcs w' = []) ∧
  (∃ s' w', readLoop_turn hands_off Background
              (atFor {| pendingMsgs := [one_message]; backoffs := 0 |}) turn_leaving
              three_in_flight = Val (readLoopReturned s', []) w' ∧
            rpcs w' = []).
Proof. vm_compute. split; eexists _, _; split; reflexivity. Qed.

(** Leaving with a message held while the client fails every call: one
    call, for that message. *)
Example readLoop_leaves_failing :
  ∃ s' w', readLoop_turn unreachable_queue Background
             (atFor {| pendingMsgs := [one_message]; backoffs := 0 |}) turn_leaving
             three_in_flight = Val (readLoopReturned s', []) w' ∧
           rpcs w' = [ChangeMessageVisibilityBatchInput [visibilityEntry 0 m1]].
Proof. vm_compute. eexists _, _. split; reflexivity. Qed.

Lemma Unix_Unix_of (t : time.Time) :
  time.Unix (time.Unix_of t) 0 = time.Truncate t time.Second.
Proof.
  unfold time.Unix, time.Unix_of, time.Truncate, time.Second.
  pose proof (Z.div_mod t 1000000000). lia.
Qed.

(** X19.  The handles [getMsgs] builds for an answer of the queue: the
    messages are kept in order, each gets a handle exactly when it has an id
    and a receipt handle; the deadline cells of the handles are new and
    pairwise distinct, no cell the store held is touched, and the deadline of
    each handle reads as the clock at its message plus the message timeout,
    cut to the whole second. *)
Theorem getMsgs_handles a clock Messages σ :
  let '(new, σ') := getMsgs_wrap a clock 0 Messages σ in
  Message <$> new = Messages ∧
  Forall wrapped new ∧
  NoDup (deadline <$> omap handle new) ∧
  (∀ h, h ∈ omap handle new → deadline h ∉ dom σ) ∧
  (∀ l, l ∈ dom σ → σ' !! l = σ !! l) ∧
  (∀ j m h, new !! j = Some m → handle m = Some h →
     sqsMessageDeadline.Load σ' (deadline h)
     = time.Truncate (time.Add (clock j) (MessageTimeout (conf a))) time.Second).
Proof.
  destruct (getMsgs_wrap a clock 0 Messages σ) as [new σ'] eqn:Hwrap.
  destruct (getMsgs_wrap_spec _ _ _ _ _ _ _ Hwrap)
    as (Hmsgs & Hwrapped & Hkeep & Hfresh & Hnd & Hload).
  split; [done|]. split; [done|]. split; [done|].
  split; [intros h Hh; by apply Hfresh|].
  split; [intros l Hl; by apply Hkeep|].
  intros j m h Hj Hh. unfold sqsMessageDeadline.Load.
  rewrite (Hload j m h Hj Hh). apply Unix_Unix_of.
Qed.

(** X20.  A turn of a connected reader that holds nothing asks the queue;
    when the answer has messages and the tracker is below its limit, every
    message of the answer that has a handle is in the tracker under its id
    by the end of the turn -- before [Read] can have passed it on -- with
    the last of the answer winning an id that comes twice; the other ids
    keep what they had. *)
Theorem readLoop_tracks a api closeNowCtx s env Messages w :
  sqs a = Some api →
  pendingMsgs s = [] →
  reply env = ReceiveOk Messages →
  Messages ≠ [] →
  Size (inFlight w) < limit (inFlight w) →
  ∃ p' acts w',
    readLoop_turn a closeNowCtx (atFor s) env w = Val (p', acts) w' ∧
    received_of acts = Messages ∧
    Message <$> (sent_of acts ++ pending_of p') = Messages ∧
    ∀ i, handles (inFlight w') !! i
         = match last_with_id i (sent_of acts ++ pending_of p') with
           | Some h => Some h
           | None => handles (inFlight w) !! i
           end.
Proof.
  intros Hsqs Hpending Hreply Hsome Hroom.
  rewrite (readLoop_turn_poll a api closeNowCtx s env Messages w
             Hsqs Hpending Hreply Hsome).
  destruct (getMsgs_wrap a (clock env) 0 Messages (store w)) as [new σ'] eqn:Hwrap.
  destruct (getMsgs_wrap_spec _ _ _ _ _ _ _ Hwrap) as (Hmsgs & _).
  cbn [fst snd].
  destruct (readLoop_AddNew_spec a api closeNowCtx env
              {| pendingMsgs := new; backoffs := backoffs s |} new
              {| rpcs := rpcs w; store := σ'; inFlight := inFlight w |} Hsqs)
    as (p' & acts & w' & Hrun & _ & Htracker & Hkeep & Hrecv & _).
  exists p', (Received Messages :: acts), w'. rewrite Hrun. split; [done|].
  change (sent_of (Received Messages :: acts)) with (sent_of acts).
  change (received_of (Received Messages :: acts))
    with (Messages ++ received_of acts).
  rewrite Hrecv, app_nil_r, Hkeep. simpl in *.
  split; [done|]. split; [done|].
  intros i. rewrite Htracker. unfold AddNew_tracker, AddNew.
  rewrite bool_decide_false by lia. simpl. apply AddNew_insert_lookup.
Qed.

Lemma readLoop_tracks_witness :
  ∃ p' acts w',
    readLoop_turn connected Background readLoop_start (turn_receiving answer)
      empty_world = Val (p', acts) w' ∧
    received_of acts = answer ∧
    Message <$> (sent_of acts ++ pending_of p') = answer ∧
    ∀ i, handles (inFlight w') !! i
         = match last_with_id i (sent_of acts ++ pending_of p') with
           | Some h => Some h
           | None => handles (inFlight empty_world) !! i
           end.
Proof.
  apply (readLoop_tracks connected quiet_api Background
           {| pendingMsgs := []; backoffs := 0 |} (turn_receiving answer) answer
           empty_world); reflexivity || discriminate.
Defined.

(** X21.  Back-pressure.  While [readLoop] sits in [AddNew], the tracker is
    found at or over its limit at every wake-up and the soft stop has not
    fired, the loop does nothing at all: it asks the queue for nothing,
    sends nothing to [Read], registers nothing and makes no call; the world
    changes through the other goroutines only. *)
Theorem readLoop_parked a closeNowCtx s messages envs : ∀ w,
  no_room envs w →
  readLoop_for a closeNowCtx (inWait s messages) envs w
  = Val (inWait s messages, []) (others_only envs w).
Proof.
  induction envs as [|env envs IH]; intros w Hfull; [done|].
  destruct Hfull as (Hfull & Hlive & Hrest).
  cbn [readLoop_for]. unfold_M. simpl.
  unfold readLoop_AddNew. unfold_M. unfold AddNew.
  rewrite bool_decide_true by done. rewrite Hlive.
  by rewrite (IH _ Hrest).
Qed.

Lemma readLoop_parked_witness :
  readLoop_for connected Background
    (inWait {| pendingMsgs := [one_message]; backoffs := 0 |} [one_message])
    [turn_sending; turn_receiving answer] no_room_world
  = Val (inWait {| pendingMsgs := [one_message]; backoffs := 0 |} [one_message], [])
        (others_only [turn_sending; turn_receiving answer] no_room_world).
Proof.
  apply (readLoop_parked connected Background).
  simpl. repeat split; vm_compute; congruence.
Defined.

(** The turn that leads there and the one that leads out: with the tracker
    at its limit the answer of the queue is wrapped and held, and nothing is
    sent; once [ackLoop] has removed a handle, the woken [AddNew] registers
    the message and the loop sends it. *)
Example readLoop_parks_and_resumes :
  let h := {| id := "m1"; receiptHandle := "r1"; deadline := 3%nat |} in
  let held := {| Message := Message one_message; handle := Some h |} in
  let parked := inWait {| pendingMsgs := [held]; backoffs := 0 |} [held] in
  ∃ w1 w2,
    readLoop_turn connected Background readLoop_start
      (turn_receiving [Message one_message]) no_room_world
    = Val (parked, [Received [Message one_message]]) w1 ∧
    inFlight w1 = full_tracker ∧
    readLoop_for connected Background parked [turn_after_ack] w1
    = Val (atFor {| pendingMsgs := []; backoffs := 0 |}, [Sent held]) w2 ∧
    handles (inFlight w2) !! "m1" = Some h ∧
    handles (inFlight w2) !! "m2" = None.
Proof.
  eexists _, _. split; [vm_compute; reflexivity|]. split; [reflexivity|].
  split; [vm_compute; reflexivity|]. split; reflexivity.
Qed.

Lemma readLoop_idle_spec a api closeNowCtx envs : ∀ b w,
  sqs a = Some api →
  Forall idle envs →
  ∃ b',
    readLoop_for a closeNowCtx (atFor {| pendingMsgs := []; backoffs := b |}) envs w
    = Val (atFor {| pendingMsgs := []; backoffs := b' |}, []) (others_only envs w) ∧
    (WaitTimeSeconds (conf a) ≤ 0 ∨ Forall (λ env, ∃ err, reply env = ReceiveErr err) envs →
     b' = (b + length envs)%nat) ∧
    (0 < WaitTimeSeconds (conf a) →
     ∀ env, last envs = Some env → reply env = ReceiveOk [] → b' = 1%nat).
Proof.
  induction envs as [|env envs IH]; intros b w Hsqs Hidle.
  { exists b. simpl. split; [done|]. split; [intros _; lia|]. by intros _ env. }
  apply Forall_cons in Hidle as [[Hgo Hreply] Hidle].
  cbn [readLoop_for]. unfold_M. unfold readLoop_turn. simpl. rewrite Hsqs.
  destruct (reply env) as [err|Messages] eqn:Henv.
  - unfold readLoop_select. simpl. rewrite Hgo. unfold_M. simpl.
    destruct (IH (S b) (meanwhile env w) Hsqs Hidle) as (b' & Hrun & Hgrow & Hone).
    exists b'. rewrite Hrun. split; [done|]. split.
    + intros Hcase. simpl. rewrite Hgrow; [lia|].
      destruct Hcase as [Hshort|Herrs]; [by left|].
      right. by apply Forall_cons in Herrs as [_ Herrs].
    + intros Hlong env' Hlast Hok.
      destruct envs as [|env2 envs]; [simpl in Hlast; congruence|].
      by apply (Hone Hlong env').
  - subst Messages. simpl.
    case_bool_decide as Hlong.
    + unfold readLoop_select. simpl. rewrite Hgo. unfold_M. simpl.
      destruct (IH 1%nat (meanwhile env w) Hsqs Hidle) as (b' & Hrun & Hgrow & Hone).
      exists b'. rewrite Hrun. split; [done|]. split.
      * intros [Hshort|Herrs]; [lia|].
        apply Forall_cons in Herrs as [[err Herr] _]. congruence.
      * intros _ env' Hlast Hok.
        destruct envs as [|env2 envs].
        -- simpl in Hrun. by injection Hrun as ->.
        -- by apply (Hone Hlong env').
    + unfold readLoop_select. simpl. rewrite Hgo. unfold_M. simpl.
      destruct (IH (S b) (meanwhile env w) Hsqs Hidle) as (b' & Hrun & Hgrow & Hone).
      exists b'. rewrite Hrun. split; [done|]. split.
      * intros Hcase. simpl. rewrite Hgrow; [lia|].
        destruct Hcase as [Hshort|Herrs]; [by left|].
        right. by apply Forall_cons in Herrs as [_ Herrs].
      * intros Hlong'. lia.
Qed.

(** X22.  As long as the queue gives nothing and the soft stop is not
    taken, [readLoop] of a connected reader holds nothing, sends nothing
    and calls nothing, and it backs off before every new request.  Without
    long polling, or when every request fails, the back-off is never reset,
    so it has been advanced once per request; with long polling an empty
    answer resets it, so after one the back-off has been advanced exactly
    once, however many empty answers came before. *)
Theorem readLoop_backs_off a api closeNowCtx envs w :
  sqs a = Some api →
  Forall idle envs →
  ∃ b,
    readLoop a closeNowCtx envs w
    = Val (atFor {| pendingMsgs := []; backoffs := b |}, []) (others_only envs w) ∧
    (WaitTimeSeconds (conf a) ≤ 0 ∨ Forall (λ env, ∃ err, reply env = ReceiveErr err) envs →
     b = length envs) ∧
    (0 < WaitTimeSeconds (conf a) →
     ∀ env, last envs = Some env → reply env = ReceiveOk [] → b = 1%nat).
Proof.
  intros Hsqs Hidle.
  destruct (readLoop_idle_spec a api closeNowCtx envs 0%nat w Hsqs Hidle)
    as (b & Hrun & Hgrow & Hone).
  exists b. split; [done|]. split; [|done].
  intros Hcase. by rewrite (Hgrow Hcase).
Qed.

(** Three requests without long polling, one of them answered with an empty
    list: the back-off has been advanced three times. *)
Lemma readLoop_backs_off_witness :
  readLoop connected Background [turn_sending; turn_receiving []; turn_sending]
    empty_world
  = Val (atFor {| pendingMsgs := []; backoffs := 3 |}, [])
        (others_only [turn_sending; turn_receiving []; turn_sending] empty_world).
Proof.
  destruct (readLoop_backs_off connected quiet_api Background
              [turn_sending; turn_receiving []; turn_sending] empty_world)
    as (b & Hrun & Hgrow & _); [reflexivity|repeat constructor|].
  rewrite Hrun, Hgrow; [reflexivity|]. left. simpl. lia.
Defined.

(** ** [Close] *)

Lemma int64_in_range (z : Z) : time.minDuration ≤ z ≤ time.maxDuration → int64 z = z.
Proof.
  unfold int64, time.minDuration, time.maxDuration. intros Hz.
  rewrite Z.mod_small; lia.
Qed.

Lemma int64_below (z : Z) :
  time.minDuration - time.Second ≤ z < time.minDuration → 0 < int64 z.
Proof.
  unfold int64, time.minDuration, time.Second. intros Hz.
  assert (Hmod : (z + 2 ^ 63) `mod` 2 ^ 64 = z + 2 ^ 63 + 2 ^ 64).
  { symmetry. apply (Z.mod_unique _ _ (-1)); lia. }
  lia.
Qed.

(** When [Close] triggers the hard stop at once. *)
Lemma closeNowAt_late (dline now : time.Time) :
  int64 (time.Sub dline now - time.Second) ≤ 0
  ↔ time.minDuration + time.Second ≤ dline - now ≤ time.Second.
Proof.
  destruct (decide (time.minDuration + time.Second ≤ time.Sub dline now)) as [Hin|Hout].
  - rewrite int64_in_range;
      unfold time.Sub, time.minDuration, time.maxDuration, time.Second in *; lia.
  - pose proof (int64_below (time.Sub dline now - time.Second)) as Hwrap.
    unfold time.Sub, time.minDuration, time.maxDuration, time.Second in *. lia.
Qed.

(** X23.  [Close] triggers the soft stop first, and the hard stop at most
    once and after it; without a deadline it never triggers the hard stop.
    The only error it returns is the error of its context, and it returns
    nil only from a [select] that found both loops stopped. *)
Theorem Close_returns ctx Deadline now first second :
  (∀ sel, first = Some sel → closeWait_ready ctx sel = true) →
  closeWait_ready ctx second = true →
  let '(calls, err) := Close ctx Deadline now first second in
  (calls = [TriggerSoftStop] ∨ calls = [TriggerSoftStop; TriggerHardStop]) ∧
  (Deadline = None → calls = [TriggerSoftStop]) ∧
  (∀ e, err = Some e → Err ctx = Some e) ∧
  (err = None → first = Some HasStoppedChan ∨ second = HasStoppedChan).
Proof.
  intros Hfirst Hsecond. unfold Close.
  assert (Hdone : closeWait_ready ctx closeCtxDone = true → Err ctx ≠ None).
  { simpl. intros [e He]%bool_decide_eq_true. congruence. }
  destruct Deadline as [dline|].
  - set (closeNowAt := int64 (time.Sub dline now - time.Second)).
    destruct (decide (closeNowAt ≤ 0)) as [Hlate|Hwait].
    + rewrite (bool_decide_true (closeNowAt ≤ 0)) by done.
      rewrite bool_decide_false by lia.
      destruct second; simpl.
      * split; [by right|]. split; [done|]. split; [by intros e ->|].
        intros Hnil. by destruct (Hdone Hsecond).
      * split; [by right|]. split; [done|]. split; [done|]. by right.
    + rewrite (bool_decide_false (closeNowAt ≤ 0)) by done.
      rewrite bool_decide_true by lia.
      destruct first as [[|]|]; [| |destruct second]; simpl.
      * split; [by left|]. split; [done|]. split; [by intros e ->|].
        intros Hnil. by destruct (Hdone (Hfirst _ eq_refl)).
      * split; [by left|]. split; [done|]. split; [done|]. by left.
      * split; [by right|]. split; [done|]. split; [by intros e ->|].
        intros Hnil. by destruct (Hdone Hsecond).
      * split; [by right|]. split; [done|]. split; [done|]. by right.
  - rewrite bool_decide_false by lia. destruct second; simpl.
    + split; [by left|]. split; [done|]. split; [by intros e ->|].
      intros Hnil. by destruct (Hdone Hsecond).
    + split; [by left|]. split; [done|]. split; [done|]. by right.
Qed.

(** A context with a deadline five seconds ahead, where the timer of the
    first [select] fires and the loops have stopped at the second. *)
Lemma Close_returns_witness :
  let '(calls, err) :=
    Close Background (Some (time.Unix 1005 0)) (time.Unix 1000 0) None HasStoppedChan in
  (calls = [TriggerSoftStop] ∨ calls = [TriggerSoftStop; TriggerHardStop]) ∧
  (Some (time.Unix 1005 0) = None → calls = [TriggerSoftStop]) ∧
  (∀ e, err = Some e → Err Background = Some e) ∧
  (err = None → None = Some HasStoppedChan ∨ HasStoppedChan = HasStoppedChan).
Proof.
  apply (Close_returns Background (Some (time.Unix 1005 0)) (time.Unix 1000 0)
           None HasStoppedChan); [discriminate|reflexivity].
Defined.

(** X24.  With a deadline on its context, [Close] triggers the hard stop
    exactly when the deadline is at most a second ahead of the clock -- and
    not so far behind it that [time.Until(dline) - time.Second] wraps
    around --, or when the timer of its first [select] fires. *)
Theorem Close_hard_stop ctx dline now first second :
  TriggerHardStop ∈ (Close ctx (Some dline) now first second).1
  ↔ time.minDuration + time.Second ≤ dline - now ≤ time.Second ∨ first = None.
Proof.
  pose proof (closeNowAt_late dline now) as Hlate.
  unfold Close.
  set (closeNowAt := int64 (time.Sub dline now - time.Second)) in *.
  assert (Hsoft : TriggerHardStop ∉ [TriggerSoftStop])
    by (by intros ?%list_elem_of_singleton).
  assert (Hhard : TriggerHardStop ∈ [TriggerSoftStop; TriggerHardStop])
    by (right; left).
  destruct (decide (closeNowAt ≤ 0)) as [Hnow|Hwait].
  - rewrite (bool_decide_true (closeNowAt ≤ 0)) by done.
    rewrite bool_decide_false by lia.
    split; [intros _; left; by apply Hlate|]. intros _. by destruct second.
  - rewrite (bool_decide_false (closeNowAt ≤ 0)) by done.
    rewrite bool_decide_true by lia.
    destruct first as [[|]|]; simpl.
    + split; [done|]. intros [Hl|?]; [|done]. apply Hlate in Hl. lia.
    + split; [done|]. intros [Hl|?]; [|done]. apply Hlate in Hl. lia.
    + split; [by right|]. intros _. by destruct second.
Qed.

(** The zero [time.Time] as deadline lies more than 292 years behind any
    clock of today: the subtraction wraps around, no hard stop is
    triggered, and [Close] leaves through [ctx.Done()]. *)
Example Close_zero_deadline :
  Close {| Err := Some DeadlineExceeded |} (Some (time.Unix (-62135596800) 0))
    (time.Unix 1700000000 0) (Some closeCtxDone) closeCtxDone
  = ([TriggerSoftStop], Some DeadlineExceeded).
Proof. reflexivity. Qed.
